(** * gocv-stream-events: detection fusion, source lifecycle and alert throttle

    A shallow embedding of [types.go], [devicesource_string.go],
    [main.go] and the catalog code ([insertDetections], [hasBeenAlerted],
    [notifyObservers], [getStreamAddress]) of the repository.

    - Go's [int] is a 64-bit two's-complement integer: a [Z] wrapped by
      [wrap64] after every arithmetic operation.
    - [float32] and [float64] are IEEE 754 binary32 / binary64 values: the
      kernel's [spec_float] with the operations of [SpecFloat] at
      precision 24 / 53 (round to nearest even, as Go does).
    - slices are lists; an in-place write [s[i] = x] is stdpp's [<[i:=x]>],
      and a slice expression [s[lo:hi]] out of range is a panic ([None]).
    - [log.Fatal] ends the whole process ([os.Exit(1)]); functions that can
      reach it return an [outcome].
    - a [time.Time] is its instant in nanoseconds since the Unix epoch; a
      [*time.Location] is its zone table ([Location]), and the catalog
      keeps a [TIMESTAMP] as a wall clock without zone, rounded as the
      catalog rounds it ([stamp]).
    - strings are byte strings; [fmt.Sscanf] reads them rune by rune
      ([runes]).
    - a [gocv.Mat] passed by value shares its pixels with the caller's:
      what [drawBoundingBoxes] paints stays in the caller's Mat.
    - the catalog is kept in two parts: the tables the alert path reads
      and writes ([Database]) and the tables [detection_event] and
      [detection] ([Detections]). *)

From Stdlib Require Import ZArith Lia Bool String Ascii DecimalString.
From Stdlib Require Import Floats.SpecFloat.
From Stdlib Require Import DecimalPos DecimalZ.
From stdpp Require Import base tactics option list strings.

Local Open Scope Z_scope.

(** ** Machine integers *)

Definition wrap64 (z : Z) : Z := (z + 2 ^ 63) mod 2 ^ 64 - 2 ^ 63.

Definition int_add (a b : Z) : Z := wrap64 (a + b).
Definition int_sub (a b : Z) : Z := wrap64 (a - b).
Definition int_neg (a : Z) : Z := wrap64 (- a).
(** Go's [/] on integers truncates toward zero. *)
Definition int_div (a b : Z) : Z := wrap64 (Z.quot a b).

(** ** Floating point *)

Module F32.
Definition prec : Z := 24.
Definition emax : Z := 128.
Definition t := spec_float.

Definition zero : t := S754_zero false.
(** [float32(z)] for an integer [z]. *)
Definition of_int (z : Z) : t := binary_normalize prec emax z 0 false.
Definition mul : t -> t -> t := SFmul prec emax.
Definition div : t -> t -> t := SFdiv prec emax.
(** [x > y] *)
Definition gt (x y : t) : bool := SFltb y x.
(** The constant [n/d] rounded to binary32, as the compiler rounds a
    decimal literal such as [0.75 = 75/100]. *)
Definition lit (n d : Z) : t := div (of_int n) (of_int d).

(** [int(x)]: truncation toward zero; a value that does not fit (and NaN,
    infinities) gives the amd64 "integer indefinite" [-2^63]. *)
Definition to_int (x : t) : Z :=
  match x with
  | S754_zero _ => 0
  | S754_finite s m e =>
      let a := if 0 <=? e then Z.pos m * 2 ^ e else Z.pos m / 2 ^ (- e) in
      let v := if s then - a else a in
      if (- 2 ^ 63 <=? v) && (v <? 2 ^ 63) then v else - 2 ^ 63
  | _ => - 2 ^ 63
  end.
End F32.

Module F64.
Definition prec : Z := 53.
Definition emax : Z := 1024.
Definition t := spec_float.

Definition zero : t := S754_zero false.
Definition of_int (z : Z) : t := binary_normalize prec emax z 0 false.
Definition add : t -> t -> t := SFadd prec emax.
Definition sub : t -> t -> t := SFsub prec emax.
Definition mul : t -> t -> t := SFmul prec emax.
Definition div : t -> t -> t := SFdiv prec emax.
Definition gt (x y : t) : bool := SFltb y x.
Definition eqb : t -> t -> bool := SFeqb.
Definition lit (n d : Z) : t := div (of_int n) (of_int d).

Definition is_nan (x : t) : bool :=
  match x with S754_nan => true | _ => false end.
Definition is_pinf (x : t) : bool :=
  match x with S754_infinity false => true | _ => false end.
Definition is_ninf (x : t) : bool :=
  match x with S754_infinity true => true | _ => false end.
Definition signbit (x : t) : bool :=
  match x with
  | S754_zero s | S754_infinity s | S754_finite s _ _ => s
  | S754_nan => false
  end.

(** [math.Max] with its special cases, in the order of the Go source. *)
Definition Max (x y : t) : t :=
  if is_pinf x || is_pinf y then S754_infinity false
  else if is_nan x || is_nan y then S754_nan
  else if eqb x zero && eqb x y then (if signbit x then y else x)
  else if gt x y then x else y.

(** [math.Min]. *)
Definition Min (x y : t) : t :=
  if is_ninf x || is_ninf y then S754_infinity true
  else if is_nan x || is_nan y then S754_nan
  else if eqb x zero && eqb x y then (if signbit x then x else y)
  else if gt y x then x else y.
End F64.

(** ** types.go *)

(** [type deviceSource int] with [IMAGE], [VIDEO], [STREAM] = 0, 1, 2. *)
Definition deviceSource := Z.
Definition IMAGE : deviceSource := 0.
Definition VIDEO : deviceSource := 1.
Definition STREAM : deviceSource := 2.

Record detectedObject := {
  confidence : F32.t;
  top : Z;
  left : Z;
  width : Z;
  height : Z;
  label : string
}.

(** ** main.go: getClassIDAndConfidence *)

(** The body of the [for i, y := range x] loop; [res] and [max] are the
    two mutable locals. *)
Definition classStep (i : nat) (y : F32.t) (st : nat * F32.t) : nat * F32.t :=
  let '(res, max) := st in
  if F32.gt y max then (i, y) else (res, max).

Fixpoint classScan (i : nat) (x : list F32.t) (st : nat * F32.t)
  : nat * F32.t :=
  match x with
  | [] => st
  | y :: x' => classScan (S i) x' (classStep i y st)
  end.

Definition getClassIDAndConfidence (x : list F32.t) : nat * F32.t :=
  classScan 0 x (0%nat, F32.zero).

(** ** main.go: bbIntersectionOverUnion *)

Definition bbIntersectionOverUnion (a b : detectedObject) : F64.t :=
  let boxA0 := left a in
  let boxA1 := top a in
  let boxA2 := int_add (left a) (width a) in
  let boxA3 := int_add (top a) (height a) in
  let boxB0 := left b in
  let boxB1 := top b in
  let boxB2 := int_add (left b) (width b) in
  let boxB3 := int_add (top b) (height b) in
  let xA := F64.Max (F64.of_int boxA0) (F64.of_int boxB0) in
  let yA := F64.Max (F64.of_int boxA1) (F64.of_int boxB1) in
  let xB := F64.Min (F64.of_int boxA2) (F64.of_int boxB2) in
  let yB := F64.Min (F64.of_int boxA3) (F64.of_int boxB3) in
  let one := F64.of_int 1 in
  let interArea :=
    F64.mul (F64.Max F64.zero (F64.add (F64.sub xB xA) one))
            (F64.Max F64.zero (F64.add (F64.sub yB yA) one)) in
  let boxAArea :=
    F64.mul (F64.of_int (int_add (int_sub boxA2 boxA0) 1))
            (F64.of_int (int_add (int_sub boxA3 boxA1) 1)) in
  let boxBArea :=
    F64.mul (F64.of_int (int_add (int_sub boxB2 boxB0) 1))
            (F64.of_int (int_add (int_sub boxB3 boxB1) 1)) in
  F64.div interArea (F64.sub (F64.add boxAArea boxBArea) interArea).

(** ** main.go: performDetection *)

(** [intersection > 0.7] for [intersection :=
    bbIntersectionOverUnion(currentlyDetectedObject, obj)]. *)
Definition overlaps (cur obj : detectedObject) : bool :=
  F64.gt (bbIntersectionOverUnion cur obj) (F64.lit 7 10).

(** [for i, obj := range detectedObjects { ... }]: [n] entries remain, [i]
    is the index, [objs] the slice (written in place) and [newObject] the
    flag.  The slice keeps its length during the loop, so ranging over it
    reads entry [i] when the iteration starts. *)
Fixpoint rangeObjects (cur : detectedObject) (n : nat) (i : nat)
    (st : list detectedObject * bool) : list detectedObject * bool :=
  match n with
  | O => st
  | S n' =>
      let '(objs, newObject) := st in
      match objs !! i with
      | None => st
      | Some obj =>
          let st' :=
            if overlaps cur obj then
              (if F32.gt (confidence cur) (confidence obj)
               then <[i := cur]> objs else objs, false)
            else (objs, newObject) in
          rangeObjects cur n' (S i) st'
      end
  end.

(** Lines 386-406: what happens to one candidate that passed the
    confidence threshold. *)
Definition fuseCandidate (detectedObjects : list detectedObject)
    (currentlyDetectedObject : detectedObject) : list detectedObject :=
  if decide (length detectedObjects = 0%nat) then
    detectedObjects ++ [currentlyDetectedObject]
  else
    let '(objs, newObject) :=
      rangeObjects currentlyDetectedObject (length detectedObjects) 0
                   (detectedObjects, true) in
    if newObject then objs ++ [currentlyDetectedObject] else objs.

(** The fusion pass over candidates that already passed the threshold, in
    arrival order, starting from the empty slice. *)
Definition fuse (cands : list detectedObject) : list detectedObject :=
  foldl fuseCandidate [] cands.

(** A [gocv.Mat] as the code reads it.  A frame is asked for its size
    and whether it is empty.  A network output is asked for [Cols()],
    [Total()] and [DataPtrFloat32()]; [out_data] is the slice that call
    returns, [None] when it returns an error (the slice is then [nil];
    the "no data" log line is not modelled). *)
Record Frame := {
  frame_cols : Z;
  frame_rows : Z;
  frame_empty : bool;
  frame_data : list Z
}.

Record Output := {
  out_cols : Z;
  out_total : Z;
  out_data : option (list F32.t)
}.

(** [s[lo:hi]] on a slice whose capacity is its length; [None] is the
    run-time panic "slice bounds out of range". *)
Definition sliceOf {A} (s : list A) (lo hi : Z) : option (list A) :=
  if (0 <=? lo) && (lo <=? hi) && (hi <=? Z.of_nat (length s))
  then Some (take (Z.to_nat (hi - lo)) (drop (Z.to_nat lo) s))
  else None.

(** [fmt.Sprintf("%s - %d%%", class, pct)] *)
Definition formatLabel (class : string) (pct : Z) : string :=
  (class ++ " - " ++ NilZero.string_of_int (Z.to_int pct) ++ "%")%string.

Section Detection.
(** The globals [confidenceTreshold] and [classes]. *)
Variable confidenceTreshold : F32.t.
Variable classes : list string.

(** [int(row[k] * float32(n))] *)
Definition scale (v : F32.t) (n : Z) : Z := F32.to_int (F32.mul v (F32.of_int n)).

(** The candidate built from one row whose best score passed the
    threshold; [None] is a run-time panic (a row shorter than five
    entries, or [classes[classID]] out of range). *)
Definition candidate (frame : Frame) (row : list F32.t)
    (classID : nat) (conf : F32.t) : option detectedObject :=
  r0 ← row !! 0%nat; r1 ← row !! 1%nat; r2 ← row !! 2%nat; r3 ← row !! 3%nat;
  class ← classes !! classID;
  let centerX := scale r0 (frame_cols frame) in
  let centerY := scale r1 (frame_rows frame) in
  let w := scale r2 (frame_cols frame) in
  let h := scale r3 (frame_rows frame) in
  Some {| confidence := conf;
          top := int_sub centerY (int_div h 2);
          left := int_sub centerX (int_div w 2);
          width := w;
          height := h;
          label := formatLabel class (F32.to_int (F32.mul (F32.of_int 100) conf)) |}.

(** One turn of the loop over the rows of an output. *)
Definition detectRow (frame : Frame) (row : list F32.t)
    (detectedObjects : list detectedObject) : option (list detectedObject) :=
  if decide (length row < 5)%nat then None          (* row[5:] *)
  else
    let scores := drop 5 row in
    let '(classID, conf) := getClassIDAndConfidence scores in
    if F32.gt conf confidenceTreshold then
      cur ← candidate frame row classID conf;
      Some (fuseCandidate detectedObjects cur)
    else Some detectedObjects.

(** [for j := 0; j < output.Total(); j += output.Cols() { row :=
    data[j : j+output.Cols()]; ... }], entered with [j].  A turn that
    does not panic takes a row of at least five entries, so [j] grows and
    there are at most [len(data)] turns: [fuel] counts them down and is
    never used up when it starts above [len(data)]
    ([detectRows_fuel]). *)
Fixpoint detectRows (fuel : nat) (frame : Frame) (output : Output)
    (data : list F32.t) (j : Z) (detectedObjects : list detectedObject)
  : option (list detectedObject) :=
  if j <? out_total output then
    match fuel with
    | O => None
    | S fuel' =>
        row ← sliceOf data j (int_add j (out_cols output));
        objs ← detectRow frame row detectedObjects;
        detectRows fuel' frame output data (int_add j (out_cols output)) objs
    end
  else Some detectedObjects.

(** The loop over [results]; with a negative column count the first ten
    values are sliced off [data] (and printed, which is not modelled) and
    the loop is left by [break]. *)
Fixpoint detectOutputs (frame : Frame) (results : list Output)
    (detectedObjects : list detectedObject) : option (list detectedObject) :=
  match results with
  | [] => Some detectedObjects
  | output :: results' =>
      let data := default [] (out_data output) in
      if out_cols output <? 0 then
        row ← sliceOf data 0 10;
        Some detectedObjects
      else
        objs ← detectRows (S (length data)) frame output data 0
                          detectedObjects;
        detectOutputs frame results' objs
  end.

Definition performDetection (frame : Frame) (results : list Output)
  : option (list detectedObject) :=
  detectOutputs frame results [].
End Detection.

(** ** types.go: getDeviceType *)

(** [strings.HasSuffix]: [len(s) >= len(suffix) && s[len(s)-len(suffix):] == suffix] *)
Definition HasSuffix (s suffix : string) : bool :=
  (String.length suffix <=? String.length s)%nat
  && String.eqb (substring (String.length s - String.length suffix)
                           (String.length suffix) s) suffix.

(** [strings.HasPrefix]: [len(s) >= len(prefix) && s[:len(prefix)] == prefix] *)
Definition HasPrefix (s prefix : string) : bool :=
  (String.length prefix <=? String.length s)%nat
  && String.eqb (substring 0 (String.length prefix) s) prefix.

Definition getDeviceType (deviceID : string) : deviceSource :=
  if HasSuffix deviceID ".jpg" || HasSuffix deviceID ".png" then IMAGE
  else if HasSuffix deviceID ".mp4" || String.eqb deviceID "0" then VIDEO
  else if HasPrefix deviceID "rtsp" then STREAM
  else -1.

(** ** main.go: the confidence flag and the launch loop of main *)

(** [confidenceTreshold] from the [-confidence] flag: the percentage
    divided by 100 in [float32], or 0.75 when it is not in 1..100. *)
Definition confidenceTresholdOf (confidence : Z) : F32.t :=
  if (confidence <=? 100) && (0 <? confidence)
  then F32.div (F32.of_int confidence) (F32.of_int 100)
  else F32.lit 75 100.

(** A [go detectFromCapture(sourceType, deviceID, i, wg)] statement. *)
Record launch := {
  launch_type : deviceSource;
  launch_device : string;
  launch_captureId : nat
}.

Record mainState := {
  wg_counter : Z;                (* wg.Add(1) calls so far *)
  launched : list launch;        (* goroutines started, in order *)
  unrecognized : list string     (* "Unrecognized device" log lines *)
}.

(** [for i, deviceID := range deviceIdList { ... }] *)
Fixpoint launchLoop (i : nat) (deviceIdList : list string) (st : mainState)
  : mainState :=
  match deviceIdList with
  | [] => st
  | deviceID :: rest =>
      let st1 := {| wg_counter := wg_counter st + 1;
                    launched := launched st;
                    unrecognized := unrecognized st |} in
      let sourceType := getDeviceType deviceID in
      if sourceType <? 0 then
        launchLoop (S i) rest
          {| wg_counter := wg_counter st1;
             launched := launched st1;
             unrecognized := unrecognized st1 ++ [deviceID] |}
      else
        launchLoop (S i) rest
          {| wg_counter := wg_counter st1;
             launched := launched st1 ++ [{| launch_type := sourceType;
                                             launch_device := deviceID;
                                             launch_captureId := i |}];
             unrecognized := unrecognized st1 |}
  end.

Definition mainLaunches (deviceIdList : list string) : mainState :=
  launchLoop 0 deviceIdList
    {| wg_counter := 0; launched := []; unrecognized := [] |}.

(** ** The catalog: the tables of init.sql the alert path reads and writes *)

Record observerRow := {
  observer_id : Z;
  observer_email : string
}.

Record streamRow := {
  stream_id : Z;
  stream_address : string
}.

Record subscriptionRow := {
  subscription_id : Z;
  subscription_observer_id : Z;
  subscription_stream_id : Z;
  subscription_alert : bool;
  subscription_alert_interval : string
}.

Record alertRow := {
  alert_detection_event_id : Z;
  alert_subscription_id : Z;
  alert_created : Z
}.

(** Rows are kept in the order a sequential scan returns them; columns
    the code never reads are left out and the columns it reads hold no
    NULL. *)
Record Database := {
  observer : list observerRow;
  stream : list streamRow;
  subscription : list subscriptionRow;
  alert : list alertRow
}.

(** What a call that may reach [log.Fatal] gives back. *)
Inductive outcome (A : Type) : Type :=
| Ok (a : A)
| Fatal.
Arguments Ok {A} a.
Arguments Fatal {A}.

(** A scalar subquery [(SELECT c FROM t WHERE ...)]: NULL on no row, the
    value on one row, an error on more than one. *)
Inductive scalar (A : Type) : Type :=
| Null
| Value (a : A)
| TooManyRows.
Arguments Null {A}.
Arguments Value {A} a.
Arguments TooManyRows {A}.

Definition scalarOf {A} (rows : list A) : scalar A :=
  match rows with
  | [] => Null
  | [a] => Value a
  | _ => TooManyRows
  end.

(** *** Time

    A [time.Time] is kept as its instant: nanoseconds since the Unix
    epoch.  (The monotonic reading of [time.Now()] plays no part here:
    the values it is compared with come from [ParseInLocation], which
    carry none, and [After] then compares instants.)  A [time.Duration]
    is an [int64] count of nanoseconds.

    The code works in the location "Europe/Helsinki".  Its zone table is
    the machine's ([time.LoadLocation] is taken to succeed): a
    [Location] is [Location.lookup], which gives, for an instant in Unix
    seconds, the offset in force (seconds east of UTC) and the interval
    [[zone_start, zone_end)] of instants during which it is in force.
    Instants and catalog timestamps lie in the years 0000-9999, where
    adding an offset does not wrap around and a timestamp is printed and
    parsed with four year digits. *)
Record zone := {
  zone_offset : Z;
  zone_start : Z;
  zone_end : Z
}.

Definition Location := Z → zone.

Definition Second : Z := 1000000000.
Definition Minute : Z := 60 * 1000000000.
Definition Hour : Z := 60 * Minute.
Definition Day : Z := 24 * Hour.

(** [unit * time.Duration(n)] *)
Definition Duration_mul (unit n : Z) : Z := wrap64 (unit * n).
(** [t.Add(d)] *)
Definition Add (t d : Z) : Z := t + d.
(** [t.After(u)] *)
Definition After (t u : Z) : bool := u <? t.

(** The date and clock of [t] in [loc] ([t.Date()], [t.Clock()] and the
    nanosecond), as one count: nanoseconds since 1970-01-01 00:00:00 on
    the wall clock of [loc]. *)
Definition wallClock (loc : Location) (t : Z) : Z :=
  t + zone_offset (loc (t / Second)) * Second.

(** The seconds between the internal epoch of [time.Time] (year 1) and
    the Unix epoch. *)
Definition unixToInternal : Z := 62135596800.

(** [time.Date(year, month, day, hour, min, sec, nsec, loc)] for the date
    and clock that lie [civil] seconds after 1970-01-01 00:00:00: the
    zone is looked up at [civil] taken as an instant, and looked up again
    at the corrected instant when that falls outside the zone found. *)
Definition Date (loc : Location) (civil nsec : Z) : Z :=
  let unix := civil in
  let z := loc unix in
  let unix :=
    if zone_offset z =? 0 then unix
    else
      let utc := int_sub unix (zone_offset z) in
      let offset :=
        if (utc <? zone_start z) || (zone_end z <=? utc)
        then zone_offset (loc utc) else zone_offset z in
      int_sub unix offset in
  (int_add unix unixToInternal - unixToInternal) * Second + nsec.

(** [time.ParseInLocation("2006-01-02T15:04:05Z", lastCapture, loc)] on
    the text of a timestamp of the catalog: its date and clock (the [Z]
    of the layout is a literal, a fraction of a second is accepted), read
    in [loc]. *)
Definition ParseInLocation (loc : Location) (created : Z) : Z :=
  Date loc (created / Second) (created mod Second).

(** [t.AddDate(0, 0, days)]: [Date] of the date and clock of [t] with
    [days] added to the day of the month; the day count enters the
    seconds by 64-bit arithmetic. *)
Definition AddDate_days (loc : Location) (t days : Z) : Z :=
  let w := wallClock loc t in
  Date loc (wrap64 (w / Second + 86400 * days)) (w mod Second).

(** *** fmt.Sscanf(alertInterval, "%d%s", &intervalLength, &intervalType)

    The scanner reads its input rune by rune ([readRune.ReadRune], that
    is [utf8.DecodeRune] on what is left of the string).  [%d] skips
    space, takes an optional sign and at least one decimal digit and must
    fit an [int]; [%s] skips space and takes the runes up to the next
    space, written back to bytes.  A newline met while skipping space is
    an error.  The first verb that fails stops the scan, and the
    variables not yet assigned keep their zero values (the error is
    dropped by the caller).  The limit of 2^30 runes per operand is not
    modelled. *)
Definition byteOf (c : ascii) : Z := Z.of_nat (nat_of_ascii c).
Definition charOf (b : Z) : ascii := ascii_of_nat (Z.to_nat b).

Definition RuneError : Z := 65533.

(** [utf8.DecodeRune] on the bytes [p0 :: p]: the rune and its width; an
    encoding that is invalid or cut short is [RuneError] of width 1. *)
Definition DecodeRune (p0 : Z) (p : list Z) : Z * nat :=
  let invalid := (RuneError, 1%nat) in
  let cont b := (128 <=? b) && (b <=? 191) in
  if p0 <? 128 then (p0, 1%nat)
  else if (p0 <? 194) || (244 <? p0) then invalid
  else
    (* the range accepted for the second byte *)
    let lo := if p0 =? 224 then 160 else if p0 =? 240 then 144 else 128 in
    let hi := if p0 =? 237 then 159 else if p0 =? 244 then 143 else 191 in
    let accept b := (lo <=? b) && (b <=? hi) in
    if p0 <? 224 then
      match p with
      | b1 :: _ =>
          if accept b1 then ((p0 - 192) * 64 + (b1 - 128), 2%nat) else invalid
      | _ => invalid
      end
    else if p0 <? 240 then
      match p with
      | b1 :: b2 :: _ =>
          if accept b1 && cont b2
          then ((p0 - 224) * 4096 + (b1 - 128) * 64 + (b2 - 128), 3%nat)
          else invalid
      | _ => invalid
      end
    else
      match p with
      | b1 :: b2 :: b3 :: _ =>
          if accept b1 && cont b2 && cont b3
          then ((p0 - 240) * 262144 + (b1 - 128) * 4096 + (b2 - 128) * 64
                + (b3 - 128), 4%nat)
          else invalid
      | _ => invalid
      end.

(** The first bytes of [s], at most three. *)
Definition ahead (s : string) : list Z :=
  match s with
  | String c1 (String c2 (String c3 _)) => [byteOf c1; byteOf c2; byteOf c3]
  | String c1 (String c2 EmptyString) => [byteOf c1; byteOf c2]
  | String c1 EmptyString => [byteOf c1]
  | EmptyString => []
  end.

(** The runes [ReadRune] gives for [s], one call after the other. *)
Fixpoint runes (s : string) : list Z :=
  match s with
  | EmptyString => []
  | String c0 s1 =>
      let '(r, size) := DecodeRune (byteOf c0) (ahead s1) in
      r :: match size, s1 with
           | 2%nat, String _ s2 => runes s2
           | 3%nat, String _ (String _ s3) => runes s3
           | 4%nat, String _ (String _ (String _ s4)) => runes s4
           | _, _ => runes s1
           end
  end.

(** [utf8.AppendRune]: the bytes [buffer.writeRune] adds for a rune. *)
Definition EncodeRune (r : Z) : string :=
  let b n := charOf n in
  if (0 <=? r) && (r <=? 127) then String (b r) EmptyString
  else if (0 <=? r) && (r <=? 2047) then
    String (b (192 + r / 64)) (String (b (128 + r mod 64)) EmptyString)
  else if (r <? 0) || (1114111 <? r) || ((55296 <=? r) && (r <=? 57343)) then
    String (b 239) (String (b 191) (String (b 189) EmptyString))
  else if r <=? 65535 then
    String (b (224 + r / 4096))
      (String (b (128 + (r / 64) mod 64))
         (String (b (128 + r mod 64)) EmptyString))
  else
    String (b (240 + r / 262144))
      (String (b (128 + (r / 4096) mod 64))
         (String (b (128 + (r / 64) mod 64))
            (String (b (128 + r mod 64)) EmptyString))).

(** [isSpace]: the table of fmt/scan.go. *)
Definition isSpace (r : Z) : bool :=
  ((9 <=? r) && (r <=? 13)) || (r =? 32) || (r =? 133) || (r =? 160)
  || (r =? 5760) || ((8192 <=? r) && (r <=? 8202))
  || ((8232 <=? r) && (r <=? 8233)) || (r =? 8239) || (r =? 8287)
  || (r =? 12288).

Definition isNewline (r : Z) : bool := r =? 10.

(** [SkipSpace]: [None] is the "unexpected newline" error. *)
Fixpoint SkipSpace (rs : list Z) : option (list Z) :=
  match rs with
  | r :: rs' =>
      if isNewline r then None
      else if isSpace r then SkipSpace rs' else Some rs
  | [] => Some rs
  end.

Definition digitOf (c : ascii) : option Z :=
  let n := Z.of_nat (nat_of_ascii c) in
  if (48 <=? n) && (n <=? 57) then Some (n - 48) else None.

(** The rune is one of "0123456789": its value. *)
Definition digitRune (r : Z) : option Z :=
  if (48 <=? r) && (r <=? 57) then Some (r - 48) else None.

(** [scanNumber]: the run of decimal digits at the head of [rs]; how many
    there are, their value after [acc] (as [strconv.ParseInt] reads the
    token), and the rest. *)
Fixpoint scanNumber (rs : list Z) (count : nat) (acc : Z)
  : nat * Z * list Z :=
  match rs with
  | r :: rs' =>
      match digitRune r with
      | Some d => scanNumber rs' (S count) (10 * acc + d)
      | None => (count, acc, rs)
      end
  | [] => (count, acc, rs)
  end.

(** [token(true, notSpace)]: the runes up to the next space or newline,
    written to the buffer. *)
Fixpoint token (rs : list Z) : string :=
  match rs with
  | r :: rs' =>
      if isSpace r then EmptyString
      else String.append (EncodeRune r) (token rs')
  | [] => EmptyString
  end.

Definition scanInt (rs : list Z) : option (Z * list Z) :=
  rs1 ← SkipSpace rs;
  let '(neg, rs2) :=
    match rs1 with
    | 45 :: r => (true, r)            (* '-' *)
    | 43 :: r => (false, r)           (* '+' *)
    | _ => (false, rs1)
    end in
  let '(count, v, rs3) := scanNumber rs2 0 0 in
  let v := if neg : bool then - v else v in
  if decide (count = 0%nat) then None
  else if (- 2 ^ 63 <=? v) && (v <? 2 ^ 63) then Some (v, rs3) else None.

Definition convertString (rs : list Z) : option string :=
  rs1 ← SkipSpace rs;
  match rs1 with
  | [] => None
  | _ => Some (token rs1)
  end.

Definition Sscanf_d_s (str : string) : Z * string :=
  match scanInt (runes str) with
  | None => (0, EmptyString)
  | Some (intervalLength, rest) =>
      match convertString rest with
      | None => (intervalLength, EmptyString)
      | Some intervalType => (intervalLength, intervalType)
      end
  end.

(** *** hasBeenAlerted *)

(** [SELECT id, alert_interval FROM subscription WHERE
    observer_id=(SELECT id from observer WHERE email=$1)], read with
    [QueryRow(...).Scan]: the first row, or an error. *)
Definition subscriptionOf (db : Database) (email : string)
  : option (Z * string) :=
  match scalarOf (map observer_id
                   (filter (λ o, observer_email o = email) (observer db))) with
  | Value oid =>
      match filter (λ s, subscription_observer_id s = oid) (subscription db) with
      | s :: _ => Some (subscription_id s, subscription_alert_interval s)
      | [] => None
      end
  | _ => None
  end.

(** [SELECT created FROM alert WHERE subscription_id=$1 ORDER BY created
    DESC], first row: the latest timestamp among the alerts of the
    subscription, if any. *)
Definition latest (times : list Z) : option Z :=
  foldr (λ t acc, Some (match acc with Some m => Z.max t m | None => t end))
        None times.

Definition lastCapture (db : Database) (subscriptionId : Z) : option Z :=
  latest (map alert_created
            (filter (λ a, alert_subscription_id a = subscriptionId) (alert db))).

(** [INSERT INTO alert (detection_event_id, subscription_id, created)
    VALUES ($1,$2,$3)] *)
Definition insertAlert (db : Database) (event subscriptionId created : Z)
  : Database :=
  {| observer := observer db;
     stream := stream db;
     subscription := subscription db;
     alert := alert db ++ [{| alert_detection_event_id := event;
                              alert_subscription_id := subscriptionId;
                              alert_created := created |}] |}.

Section Throttle.
(** [loc]: the zone table [time.LoadLocation("Europe/Helsinki")] gives.
    [stamp]: how the catalog keeps a timestamp it is given (PostgreSQL
    rounds it to microseconds). *)
Variable loc : Location.
Variable stamp : Z → Z.

(** The [switch] inside [if len(lastCapture) > 0]: [true] is the
    [return true] of a case, [false] falls through to the INSERT. *)
Definition withinInterval (intervalType : string) (intervalLength : Z)
    (lastCaptureTime captureTime : Z) : bool :=
  if String.eqb intervalType "m" then
    After lastCaptureTime
          (Add captureTime (int_neg (Duration_mul Minute intervalLength)))
  else if String.eqb intervalType "h" then
    After lastCaptureTime
          (Add captureTime (int_neg (Duration_mul Hour intervalLength)))
  else if String.eqb intervalType "d" then
    After lastCaptureTime
          (AddDate_days loc captureTime (int_neg intervalLength))
  else true.

(** [now] is the reading of [time.Now()].  The column [created] is a
    TIMESTAMP without zone: it keeps the date and clock of the value it
    is given, here those of [captureTime] in [loc], and gives them back
    as text.  The result [true] means "already alerted": the caller
    sends nothing. *)
Definition hasBeenAlerted (db : Database) (email : string) (event : Z)
    (now : Z) : outcome (Database * bool) :=
  match subscriptionOf db email with
  | None => Fatal
  | Some (subscriptionId, alertInterval) =>
      let '(intervalLength, intervalType) := Sscanf_d_s alertInterval in
      let captureTime := now in
      let alerted :=
        match lastCapture db subscriptionId with
        | Some created =>
            let lastCaptureTime := ParseInLocation loc created in
            withinInterval intervalType intervalLength lastCaptureTime
                           captureTime
        | None => false
        end in
      if alerted then Ok (db, true)
      else Ok (insertAlert db event subscriptionId
                           (stamp (wallClock loc captureTime)), false)
  end.

(** *** notifyObservers *)

(** [SELECT email FROM observer WHERE id IN (SELECT observer_id FROM
    subscription WHERE stream_id=(SELECT id FROM stream WHERE address=$1)
    AND alert=TRUE)] *)
Definition subscribedEmails (db : Database) (deviceID : string)
  : option (list string) :=
  match scalarOf (map stream_id
                   (filter (λ st, stream_address st = deviceID) (stream db))) with
  | TooManyRows => None
  | Null => Some []
  | Value sid =>
      let ids :=
        map subscription_observer_id
            (filter (λ s, subscription_stream_id s = sid
                          ∧ subscription_alert s = true) (subscription db)) in
      Some (map observer_email
              (filter (λ o, observer_id o ∈ ids) (observer db)))
  end.

(** The [for rows.Next()] loop: [sent] collects the receivers of
    [sendMail], in order.  Building the mail body and the SMTP exchange
    are taken to succeed, and the clock is read once for the round. *)
Fixpoint notifyLoop (emails : list string) (event now : Z)
    (db : Database) (sent : list string) : outcome (Database * list string) :=
  match emails with
  | [] => Ok (db, sent)
  | email :: rest =>
      match hasBeenAlerted db email event now with
      | Fatal => Fatal
      | Ok (db', true) => notifyLoop rest event now db' sent
      | Ok (db', false) => notifyLoop rest event now db' (sent ++ [email])
      end
  end.

Definition notifyObservers (db : Database) (deviceID : string) (event now : Z)
  : outcome (Database * list string) :=
  match subscribedEmails db deviceID with
  | None => Fatal
  | Some emails => notifyLoop emails event now db []
  end.
End Throttle.

(** ** The catalog: classes, detection events and detections *)

Record eventRow := {
  event_id : Z;
  event_class : Z;
  event_count : Z;
  event_created : string
}.

Record detectionRow := {
  detection_confidence : Z;
  detection_location_top : Z;
  detection_location_left : Z;
  detection_width : Z;
  detection_height : Z;
  detection_event : Z
}.

Record Detections := {
  detection_events : list eventRow;
  detections : list detectionRow
}.

(** What the catalog answers to the statements of one
    [insertDetections]: the id of the new event row ([None] when the
    INSERT fails), and for each detection in turn whether its INSERT goes
    through (an answer that is missing counts as a failure). *)
Record inserts := {
  ins_event : option Z;
  ins_detections : list bool
}.

(** The row written for one object. *)
Definition detectionOf (lastInsertId : Z) (obj : detectedObject)
  : detectionRow :=
  {| detection_confidence :=
       F32.to_int (F32.mul (confidence obj) (F32.of_int 100));
     detection_location_top := top obj;
     detection_location_left := left obj;
     detection_width := width obj;
     detection_height := height obj;
     detection_event := lastInsertId |}.

(** The row an event leaves in [detection_event]. *)
Definition eventOf (lastInsertId classId : Z)
    (detectedObjects : list detectedObject) (captureTime : string)
  : eventRow :=
  {| event_id := lastInsertId; event_class := classId;
     event_count := Z.of_nat (length detectedObjects);
     event_created := captureTime |}.

(** [for _, obj := range detectedObjects { ... Exec(INSERT INTO
    detection ...) }]: [false] is the [return 0, err] inside the loop. *)
Fixpoint insertLoop (lastInsertId : Z) (objs : list detectedObject)
    (answers : list bool) (rows : list detectionRow)
  : list detectionRow * bool :=
  match objs with
  | [] => (rows, true)
  | obj :: objs' =>
      match answers with
      | true :: answers' =>
          insertLoop lastInsertId objs' answers'
                     (rows ++ [detectionOf lastInsertId obj])
      | _ => (rows, false)
      end
  end.

(** [insertDetections]: the result is [(lastInsertId, nil)] as [Some
    lastInsertId] and [(0, err)] as [None]. *)
Definition insertDetections (store : Detections)
    (detectedObjects : list detectedObject) (classId : Z)
    (captureTime : string) (a : inserts) : Detections * option Z :=
  match ins_event a with
  | None => (store, None)
  | Some lastInsertId =>
      let events :=
        detection_events store
        ++ [eventOf lastInsertId classId detectedObjects captureTime] in
      let '(rows, ok) :=
        insertLoop lastInsertId detectedObjects (ins_detections a)
                   (detections store) in
      ({| detection_events := events; detections := rows |},
       if ok then Some lastInsertId else None)
  end.

(** ** main.go: detectFromCapture *)

Inductive message :=
| ErrorReadingImage        (* "Error reading image from: ..." *)
| ErrorOpeningCapture      (* "Error opening video capture device: ..." *)
| ErrorOpeningStream       (* "Error opening video stream device: ..." *)
| ConnectionSuccesful      (* "connection to ... succesful" *)
| ConnectionTimeouted      (* "connetion to ... timeouted" *)
| ErrorReadingNet          (* "Error reading network model from : ..." *)
| StartReading             (* "Start reading device ..." *)
| DeviceClosed             (* "Device closed: ..." *)
| CannotReadImage.         (* "cannot read image from video/stream" *)

(** What a task does that the rest of the system can see. *)
Inductive event :=
| Printed (m : message)
| WgDone                                             (* wg.Done() *)
| FrameRead (img : Frame)                            (* webcam.Read gave true *)
| Detected (img : Frame) (objs : list detectedObject) (* performDetection ran *)
| Persisted (eventId : Z)                            (* db.insertDetections *)
| Mailed (receivers : list string)                   (* db.notifyObservers *)
| Shown (img : Frame) (objs : list detectedObject).  (* drawBoundingBoxes *)

(** Where a task stands once the environment's answers are used up:
    still in its loop, returned, or gone with the whole process
    ([log.Fatal] and a run-time panic both end it). *)
Inductive status := Running | Returned | Exited | Panicked.

(** *** Opening a stream: the goroutine, the channel and the 5 s context

    The goroutine calls [gocv.OpenVideoCaptureWithAPI]; [dial] says how
    that call ends and when (milliseconds after the context was made).
    The caller's [select] takes whichever of [<-c1] and
    [<-ctxTimeout.Done()] is ready first; when both become ready at the
    same instant Go picks one at random ([tie]: [true] takes [<-c1]). *)
Inductive dial :=
| DialOk (t : Z)
| DialError (t : Z)
| DialHangs.

Definition timeoutMs : Z := 5 * 1000.

Record connection := {
  conn_connected : bool;            (* the select took [webcam = <-c1] *)
  conn_elapsed : Z;                 (* when the select returned *)
  conn_events : list (Z * event)    (* goroutine and caller, in time order *)
}.

Definition connectStream (d : dial) (tie : bool) : connection :=
  let goroutine :=
    match d with
    | DialError t => [(t, Printed ErrorOpeningStream); (t, WgDone)]
    | _ => []              (* [c1 <- wc], or still inside the call *)
    end in
  let received :=
    match d with
    | DialOk t =>
        if t <? timeoutMs then Some t
        else if (t =? timeoutMs) && tie then Some t else None
    | _ => None            (* nothing is ever sent on c1 *)
    end in
  match received with
  | Some t =>
      {| conn_connected := true;
         conn_elapsed := t;
         conn_events := goroutine ++ [(t, Printed ConnectionSuccesful)] |}
  | None =>
      let caller := [(timeoutMs, WgDone);
                     (timeoutMs, Printed ConnectionTimeouted)] in
      {| conn_connected := false;
         conn_elapsed := timeoutMs;
         conn_events :=
           match d with
           | DialError t =>
               if t <=? timeoutMs then goroutine ++ caller
               else caller ++ goroutine
           | _ => caller
           end |}
  end.

(** *** The capture loop *)

(** The environment's answers during one turn of the [for] loop. *)
Record iteration := {
  it_read : option Frame;   (* webcam.Read(&img): [None] is false *)
  it_captureTime : string;  (* time.Now().In(loc).Format(time.RFC3339) *)
  it_classId : option Z;    (* db.getClassId, [None] an error *)
  it_inserts : inserts;     (* the catalog's answers in db.insertDetections *)
  it_now : Z;               (* time.Now() in hasBeenAlerted *)
  it_key : Z                (* window.WaitKey(1) *)
}.

(** How one turn of the loop ends.  The catalog is kept in two parts:
    the tables of the alert path ([Database]) and the tables
    [detection_event] and [detection] ([Detections]). *)
Inductive step :=
| Next (img : Frame) (db : Database) (store : Detections)
      (* [continue], or the end of the body *)
| Stop (s : status) (db : Database) (store : Detections).
      (* [return], [break], exit, panic *)

(** What a task has done so far, where it stands and what it left in the
    catalog. *)
Record task := {
  trace : list event;
  final : status;
  catalog : Database;
  stored : Detections
}.

(** The environment's answers while the source and the model are opened. *)
Record opening := {
  open_image : Frame;     (* gocv.IMRead *)
  open_video : bool;      (* gocv.OpenVideoCapture gave no error *)
  open_dial : dial;       (* gocv.OpenVideoCaptureWithAPI in the goroutine *)
  open_tie : bool;
  open_net : bool         (* gocv.ReadNet gave a non-empty net *)
}.

(** [gocv.NewMat()] *)
Definition emptyMat : Frame :=
  {| frame_cols := 0; frame_rows := 0; frame_empty := true; frame_data := [] |}.

(** [image.Rect(x0, y0, x1, y1)]: the corners, put in order. *)
Definition Rect (x0 y0 x1 y1 : Z) : Z * Z * Z * Z :=
  (Z.min x0 x1, Z.min y0 y1, Z.max x0 x1, Z.max y0 y1).

Section Pipeline.
Variable confidenceTreshold : F32.t.
Variable classes : list string.
(** [os.Getenv("RUN_ENV") == "prod"] *)
Variable prod : bool.
(** The forward pass of the network on a frame. *)
Variable infer : Frame → list Output.
(** [gocv.Rectangle(&img, r, yellow, 2)] and [gocv.PutText(&img, text,
    pt, gocv.FontHersheyPlain, 2.2, blue, 2)]: the Mat with the rectangle
    or the text painted in. *)
Variable Rectangle : Frame → Z * Z * Z * Z → Frame.
Variable PutText : Frame → string → Z * Z → Frame.
(** The zone table and the catalog's rounding of timestamps. *)
Variable loc : Location.
Variable stamp : Z → Z.

(** [drawBoundingBoxes]: the Mat is passed by value, which shares its
    pixels with the caller's, so what is painted stays in the caller's
    [img]; the result is that Mat as the window shows it. *)
Definition drawBoundingBoxes (img : Frame)
    (detectedObjects : list detectedObject) : Frame :=
  foldl (λ img obj,
           PutText
             (Rectangle img
                (Rect (left obj) (top obj)
                      (int_add (left obj) (width obj))
                      (int_add (top obj) (height obj))))
             (label obj) (left obj, top obj))
        img detectedObjects.

(** From [detectedObjects := performDetection(&img, prob)] on. *)
Definition handleFrame (deviceID : string) (img : Frame) (it : iteration)
    (db : Database) (store : Detections) : list event * step :=
  match performDetection confidenceTreshold classes img (infer img) with
  | None => ([], Stop Panicked db store)
  | Some detectedObjects =>
      let detected := [Detected img detectedObjects] in
      if prod then
        if decide (length detectedObjects = 0%nat)
        then (detected, Next img db store)
        else
          match it_classId it with
          | None => (detected, Stop Exited db store)
          | Some classId =>
              match insertDetections store detectedObjects classId
                                     (it_captureTime it) (it_inserts it) with
              | (store', None) => (detected, Stop Exited db store')
              | (store', Some event) =>
                  let persisted := detected ++ [Persisted event] in
                  if 0 <? event then
                    match notifyObservers loc stamp db deviceID event
                                          (it_now it) with
                    | Fatal => (persisted, Stop Exited db store')
                    | Ok (db', receivers) =>
                        (persisted ++ [Mailed receivers], Next img db' store')
                    end
                  else (persisted, Next img db store')
              end
          end
      else
        let img' := drawBoundingBoxes img detectedObjects in
        let shown := detected ++ [Shown img' detectedObjects] in
        if 0 <=? it_key it then (shown ++ [WgDone], Stop Returned db store)
        else (shown, Next img' db store)
  end.

(** One turn of [for { ... }]. *)
Definition loopBody (sourceType : deviceSource) (deviceID : string)
    (img : Frame) (it : iteration) (db : Database) (store : Detections)
  : list event * step :=
  if (sourceType =? STREAM) || (sourceType =? VIDEO) then
    match it_read it with
    | None => ([Printed DeviceClosed; WgDone], Stop Returned db store)
    | Some img' =>
        if frame_empty img' then
          (* log.Fatal(...); the [continue] after it is never reached *)
          ([FrameRead img'; Printed CannotReadImage], Stop Exited db store)
        else
          let '(evs, st) := handleFrame deviceID img' it db store in
          (FrameRead img' :: evs, st)
    end
  else handleFrame deviceID img it db store.

(** The loop, run against the answers [its]; when they are used up the
    task is still [Running]. *)
Fixpoint captureLoop (sourceType : deviceSource) (deviceID : string)
    (img : Frame) (its : list iteration) (db : Database)
    (store : Detections) (past : list event) : task :=
  match its with
  | [] => {| trace := past; final := Running; catalog := db; stored := store |}
  | it :: its' =>
      match loopBody sourceType deviceID img it db store with
      | (evs, Next img' db' store') =>
          captureLoop sourceType deviceID img' its' db' store' (past ++ evs)
      | (evs, Stop s db' store') =>
          {| trace := past ++ evs; final := s; catalog := db';
             stored := store' |}
      end
  end.

Definition detectFromCapture (sourceType : deviceSource) (deviceID : string)
    (o : opening) (its : list iteration) (db : Database)
    (store : Detections) : task :=
  let stopped evs :=
    {| trace := evs; final := Returned; catalog := db; stored := store |} in
  let run img evs :=
    if open_net o then
      captureLoop sourceType deviceID img its db store
                  (evs ++ [Printed StartReading])
    else stopped (evs ++ [Printed ErrorReadingNet]) in
  if sourceType =? IMAGE then
    if frame_empty (open_image o) then stopped [Printed ErrorReadingImage]
    else run (open_image o) []
  else if sourceType =? VIDEO then
    if open_video o then run emptyMat []
    else stopped [Printed ErrorOpeningCapture]
  else if sourceType =? STREAM then
    let c := connectStream (open_dial o) (open_tie o) in
    if conn_connected c then run emptyMat (map snd (conn_events c))
    else stopped (map snd (conn_events c))
  else run emptyMat [].
End Pipeline.

(** [strconv.FormatInt(i, 10)]: the decimal digits of [i], after a [-]
    when it is negative. *)
Definition FormatInt (i : Z) : string := NilZero.string_of_int (Z.to_int i).

(** ** devicesource_string.go *)

Definition _deviceSource_name : string := "IMAGEVIDEOSTREAM".

Definition _deviceSource_index : list Z := [0; 5; 10; 16].

(** [s[lo:hi]] *)
Definition slice (s : string) (lo hi : Z) : string :=
  substring (Z.to_nat lo) (Z.to_nat (hi - lo)) s.

(** [func (i deviceSource) String() string]; [None] is the panic of an
    index out of range. *)
Definition deviceSource_String (i : deviceSource) : option string :=
  if (i <? 0) || (Z.of_nat (length _deviceSource_index) - 1 <=? i) then
    Some ("deviceSource(" ++ FormatInt i ++ ")")%string
  else
    lo ← _deviceSource_index !! Z.to_nat i;
    hi ← _deviceSource_index !! Z.to_nat (i + 1);
    Some (slice _deviceSource_name lo hi).

(** ** main.go: the device list of main *)

(** [strings.Split(s, sep)] for a separator of one byte (the code splits
    at "," and at " "): the pieces between the separators, in order; a
    string without the separator is the only piece. *)
Fixpoint Split (s : string) (sep : ascii) : list string :=
  match s with
  | EmptyString => [EmptyString]
  | String c s' =>
      if Ascii.eqb c sep then EmptyString :: Split s' sep
      else
        match Split s' sep with
        | piece :: pieces => String c piece :: pieces
        | [] => [String c EmptyString]
        end
  end.

(** [SELECT address FROM stream], keeping the addresses that are not
    empty. *)
Definition getStreamAddress (db : Database) : list string :=
  filter (λ addr, addr ≠ EmptyString) (map stream_address (stream db)).

(** [deviceIdList] of [main] for the value of the [-d] flag. *)
Definition deviceIdListOf (db : Database) (deviceIds : string) : list string :=
  if String.eqb deviceIds "--" then getStreamAddress db
  else Split deviceIds ",".

(** [label := strings.Split(detectedObjects[0].label, " ")] and the
    [label[0]] handed to [db.getClassId]; [None] is an index out of
    range. *)
Definition classKey (detectedObjects : list detectedObject) : option string :=
  obj ← detectedObjects !! 0%nat;
  Split (label obj) " " !! 0%nat.

(** ** Vocabulary of the statements below *)

(** The candidates of one row that passed the threshold: none or one;
    [None] is the panic of [detectRow]. *)
Definition rowCandidates (confidenceTreshold : F32.t) (classes : list string)
    (frame : Frame) (row : list F32.t) : option (list detectedObject) :=
  if decide (length row < 5)%nat then None
  else
    let '(classID, conf) := getClassIDAndConfidence (drop 5 row) in
    if F32.gt conf confidenceTreshold then
      cur ← candidate classes frame row classID conf; Some [cur]
    else Some [].

Fixpoint passingRows (confidenceTreshold : F32.t) (classes : list string)
    (frame : Frame) (rows : list (list F32.t)) : option (list detectedObject) :=
  match rows with
  | [] => Some []
  | row :: rows' =>
      c ← rowCandidates confidenceTreshold classes frame row;
      cs ← passingRows confidenceTreshold classes frame rows';
      Some (c ++ cs)
  end.

(** The rows the loop over an output slices off its data, from [j] on,
    and whether it gets to the end of the data without a panic of its
    own: [false] when a slice is out of range or a row has fewer than
    five entries (that row is then the last one listed). *)
Fixpoint sliceRows (fuel : nat) (output : Output) (data : list F32.t)
    (j : Z) : list (list F32.t) * bool :=
  if j <? out_total output then
    match fuel with
    | O => ([], false)
    | S fuel' =>
        match sliceOf data j (int_add j (out_cols output)) with
        | None => ([], false)
        | Some row =>
            if decide (length row < 5)%nat then ([row], false)
            else
              let '(rows, ok) :=
                sliceRows fuel' output data (int_add j (out_cols output)) in
              (row :: rows, ok)
        end
    end
  else ([], true).

(** The rows of an output, and whether its data is walked without a
    slice out of range (with a negative column count: whether it holds
    the ten values printed). *)
Definition out_rows (output : Output) : list (list F32.t) :=
  let data := default [] (out_data output) in
  if out_cols output <? 0 then []
  else fst (sliceRows (S (length data)) output data 0).

Definition sliced (output : Output) : bool :=
  let data := default [] (out_data output) in
  if out_cols output <? 0 then 10 <=? Z.of_nat (length data)
  else snd (sliceRows (S (length data)) output data 0).

(** The threshold-passing candidates of a frame in arrival order: output
    after output, row after row, up to an output with a negative column
    count; [None] is a panic. *)
Fixpoint passing (confidenceTreshold : F32.t) (classes : list string)
    (frame : Frame) (results : list Output) : option (list detectedObject) :=
  match results with
  | [] => Some []
  | output :: results' =>
      if sliced output then
        if out_cols output <? 0 then Some []
        else
          c ← passingRows confidenceTreshold classes frame (out_rows output);
          cs ← passing confidenceTreshold classes frame results';
          Some (c ++ cs)
      else None
  end.

(** The mantissa [p * 2^k]. *)
Definition shl (p : positive) (k : nat) : positive := Nat.iter k xO p.

(** The number of binary digits of [p]. *)
Definition digits (p : positive) : Z := Z.pos (digits2_pos p).

(** The binary64 value [(-1)^s * p], for [p] of at most 53 bits. *)
Definition norm (s : bool) (p : positive) : spec_float :=
  S754_finite s (shl p (Z.to_nat (53 - digits p))) (digits p - 53).

(** The binary64 value of an integer of magnitude below 2^53. *)
Definition Zfloat (z : Z) : spec_float :=
  match z with
  | 0 => S754_zero false
  | Z.pos p => norm false p
  | Z.neg p => norm true p
  end.

(** A box the detector can produce from a frame: sides that are not
    negative and coordinates far inside the range where binary64 holds
    every integer exactly. *)
Definition wellFormed (a : detectedObject) : Prop :=
  0 ≤ width a ≤ 2 ^ 24 ∧ 0 ≤ height a ≤ 2 ^ 24
  ∧ - 2 ^ 24 ≤ left a ≤ 2 ^ 24 ∧ - 2 ^ 24 ≤ top a ≤ 2 ^ 24.

(** The pixels two inclusive ranges [a0..a1] and [b0..b1] share. *)
Definition overlapTerm (a0 a1 b0 b1 : Z) : Z :=
  Z.max 0 (Z.min a1 b1 - Z.max a0 b0 + 1).

(** The pixels two boxes share, and the pixels of one box. *)
Definition interPixels (a b : detectedObject) : Z :=
  overlapTerm (left a) (left a + width a) (left b) (left b + width b)
  * overlapTerm (top a) (top a + height a) (top b) (top b + height b).

Definition boxPixels (a : detectedObject) : Z :=
  (width a + 1) * (height a + 1).

(** The length of the unit a code stands for. *)
Definition unitLength (intervalType : string) : option Z :=
  if String.eqb intervalType "m" then Some Minute
  else if String.eqb intervalType "h" then Some Hour
  else if String.eqb intervalType "d" then Some Day
  else None.

(** The units that are lengths of time ([d] is a day of the calendar),
    and the unit codes the switch knows. *)
Definition durationUnit (intervalType : string) : option Z :=
  if String.eqb intervalType "m" then Some Minute
  else if String.eqb intervalType "h" then Some Hour
  else None.

Definition recognized (intervalType : string) : bool :=
  String.eqb intervalType "m" || String.eqb intervalType "h"
  || String.eqb intervalType "d".

(** The timestamp the catalog keeps for an alert recorded at [t]. *)
Definition recordedAt (loc : Location) (stamp : Z → Z) (t : Z) : Z :=
  stamp (wallClock loc t).

(** The timestamp recorded at [t] is read back as [t]: the catalog kept
    it exactly, and [t] does not lie in the hour that the wall clock
    shows twice when the clocks go back. *)
Definition readsBack (loc : Location) (stamp : Z → Z) (t : Z) : Prop :=
  ParseInLocation loc (recordedAt loc stamp t) = t.

(** [n] days of the calendar before [t] are [n] times 24 hours before
    [t]: the wall clock showed the same time then, at the same offset. *)
Definition sameClockBefore (loc : Location) (t n : Z) : Prop :=
  AddDate_days loc t (int_neg n) = t - Day * n.

(** No alert of the subscription on record carries a timestamp after
    [c]. *)
Definition noneAfter (db : Database) (sid c : Z) : Prop :=
  Forall (λ a, alert_subscription_id a = sid → alert_created a ≤ c)
         (alert db).

(** 2023-06-01 12:00:00 UTC, which is 15:00:00 in Helsinki. *)
Definition noon : Z := 1685620800 * Second.

Definition alertAt (event subscriptionId created : Z) : alertRow :=
  {| alert_detection_event_id := event;
     alert_subscription_id := subscriptionId;
     alert_created := created |}.

(** The catalog of init.sql: one observer, one stream, one subscription
    (here with a chosen interval and alert history). *)
Definition oneSubscription (interval : string) (alerts : list alertRow)
  : Database :=
  {| observer := [{| observer_id := 1; observer_email := "test@mail" |}];
     stream := [{| stream_id := 1; stream_address := "rtsp://a" |}];
     subscription :=
       [{| subscription_id := 1; subscription_observer_id := 1;
           subscription_stream_id := 1; subscription_alert := true;
           subscription_alert_interval := interval |}];
     alert := alerts |}.

(** The same observer subscribed to two streams; [swap] stores the two
    subscription rows in the other order. *)
Definition twoSubscriptions (swap : bool) (alerts : list alertRow)
  : Database :=
  let s1 := {| subscription_id := 1; subscription_observer_id := 1;
               subscription_stream_id := 1; subscription_alert := true;
               subscription_alert_interval := "15m" |} in
  let s2 := {| subscription_id := 2; subscription_observer_id := 1;
               subscription_stream_id := 2; subscription_alert := true;
               subscription_alert_interval := "15m" |} in
  {| observer := [{| observer_id := 1; observer_email := "test@mail" |}];
     stream := [{| stream_id := 1; stream_address := "rtsp://a" |};
                {| stream_id := 2; stream_address := "rtsp://b" |}];
     subscription := if swap then [s2; s1] else [s1; s2];
     alert := alerts |}.

(** Events of a kind in a trace. *)
Definition isFrameRead (e : event) : bool :=
  match e with FrameRead _ => true | _ => false end.
Definition isWgDone (e : event) : bool :=
  match e with WgDone => true | _ => false end.
Definition countEvents (kind : event → bool) (tr : list event) : nat :=
  length (List.filter kind tr).

(** A turn in which there is no frame to read (an image source reads
    none), the catalog answers and no key is pressed. *)
Definition quiet : iteration :=
  {| it_read := None; it_captureTime := "2023-06-01T12:00:00+03:00";
     it_classId := Some 1;
     it_inserts := {| ins_event := Some 1; ins_detections := [true] |};
     it_now := 0; it_key := -1 |}.

(** The tables [detection_event] and [detection] with no rows. *)
Definition noDetections : Detections :=
  {| detection_events := []; detections := [] |}.

(** The table of Europe/Helsinki around 2023: EET (+2 h) until
    2023-03-26 01:00:00 UTC, EEST (+3 h) until 2023-10-29 01:00:00 UTC,
    EET again after that. *)
Definition helsinki2023 : Location :=
  λ sec,
    if sec <? 1679792400 then
      {| zone_offset := 7200; zone_start := 1667091600;
         zone_end := 1679792400 |}
    else if sec <? 1698541200 then
      {| zone_offset := 10800; zone_start := 1679792400;
         zone_end := 1698541200 |}
    else
      {| zone_offset := 7200; zone_start := 1698541200;
         zone_end := 1711846800 |}.

(** A catalog that keeps timestamps to the microsecond, rounding to the
    nearer one. *)
Definition microseconds (t : Z) : Z := 1000 * ((t + 500) / 1000).

(** Painters for the examples: a rectangle and a text each leave a mark
    in the data of the Mat. *)
Definition markRectangle (img : Frame) (r : Z * Z * Z * Z) : Frame :=
  {| frame_cols := frame_cols img; frame_rows := frame_rows img;
     frame_empty := frame_empty img; frame_data := frame_data img ++ [1] |}.

Definition markText (img : Frame) (text : string) (pt : Z * Z) : Frame :=
  {| frame_cols := frame_cols img; frame_rows := frame_rows img;
     frame_empty := frame_empty img; frame_data := frame_data img ++ [2] |}.

(** The frames on which detections ran, in the order of the trace, and
    the detections with their results. *)
Definition detectionOfEvent (e : event)
  : option (Frame * list detectedObject) :=
  match e with Detected f objs => Some (f, objs) | _ => None end.

Definition detections_in (tr : list event)
  : list (Frame * list detectedObject) :=
  omap detectionOfEvent tr.

(** What one turn of the loop does to the Mat an image source keeps: in
    production mode nothing; in interactive mode the boxes and labels of
    what was detected in it are painted into it.  [cachedAfter k img] is
    the Mat after [k] turns. *)
Definition paintedBy (confidenceTreshold : F32.t) (classes : list string)
    (prod : bool) (infer : Frame → list Output)
    (Rectangle : Frame → Z * Z * Z * Z → Frame)
    (PutText : Frame → string → Z * Z → Frame) (img : Frame) : Frame :=
  if prod then img
  else
    match performDetection confidenceTreshold classes img (infer img) with
    | Some objs => drawBoundingBoxes Rectangle PutText img objs
    | None => img
    end.

Definition cachedAfter (confidenceTreshold : F32.t) (classes : list string)
    (prod : bool) (infer : Frame → list Output)
    (Rectangle : Frame → Z * Z * Z * Z → Frame)
    (PutText : Frame → string → Z * Z → Frame) (k : nat) (img : Frame)
  : Frame :=
  Nat.iter k (paintedBy confidenceTreshold classes prod infer Rectangle
                        PutText) img.

(** A network for the examples: it finds the sample object in a Mat
    nothing was painted into, and nothing in a painted one. *)
Definition sampleInfer (sample : Output) (img : Frame) : list Output :=
  if decide (frame_data img = []) then [sample] else [].

(** The object the detector builds from [sampleRow] in a 640x480 frame,
    and the picture with its box and label painted by the painters of the
    examples. *)
Definition sampleObject : detectedObject :=
  {| confidence := F32.lit 9 10; top := 180; left := 240; width := 160;
     height := 120; label := "gull - 90%" |}.

Definition paintedPicture : Frame :=
  {| frame_cols := 640; frame_rows := 480; frame_empty := false;
     frame_data := [1; 2] |}.


(** An image that was read without error. *)
Definition picture : Frame :=
  {| frame_cols := 640; frame_rows := 480; frame_empty := false;
     frame_data := [] |}.

(** [s] ends in [suffix]; [s] starts with [prefix]. *)
Definition endsWith (s suffix : string) : Prop :=
  ∃ p, s = String.append p suffix.
Definition startsWith (s prefix : string) : Prop :=
  ∃ r, s = String.append prefix r.

(** What the range loop leaves in the place of [obj]. *)
Definition replaced (cur obj : detectedObject) : detectedObject :=
  if overlaps cur obj && F32.gt (confidence cur) (confidence obj)
  then cur else obj.

(** No entry overlaps an earlier entry above the threshold. *)
Fixpoint separated (l : list detectedObject) : bool :=
  match l with
  | [] => true
  | a :: l' => forallb (λ b, negb (overlaps b a)) l' && separated l'
  end.

(** A box with a confidence and no label. *)
Definition box (c : F32.t) (l t w h : Z) : detectedObject :=
  {| confidence := c; top := t; left := l; width := w; height := h;
     label := "" |}.

(** What the two locals of [getClassIDAndConfidence] hold once the prefix
    [p] has been scanned. *)
Definition scanned (p : list F32.t) (st : nat * F32.t) : Prop :=
  let '(res, max) := st in
  (Forall (λ y, F32.gt y F32.zero = false) p ∧ res = 0%nat ∧ max = F32.zero)
  ∨ (p !! res = Some max
     ∧ F32.gt max F32.zero = true
     ∧ Forall (λ y, F32.gt y max = false) p
     ∧ ∀ j y, (j < res)%nat → p !! j = Some y → SFleb max y = false).

(** A row of a network output for two classes: centre (0.5, 0.5), size
    0.25 x 0.25, objectness 0.9 and the class scores 0.1 and 0.9; and an
    output holding it twice. *)
Definition sampleRow : list F32.t :=
  [F32.lit 1 2; F32.lit 1 2; F32.lit 1 4; F32.lit 1 4; F32.lit 9 10;
   F32.lit 1 10; F32.lit 9 10].

Definition sampleOutput : Output :=
  {| out_cols := 7; out_total := 14;
     out_data := Some (sampleRow ++ sampleRow) |}.

(** A confidence that is a number. *)
Definition numbered (obj : detectedObject) : Prop :=
  confidence obj ≠ S754_nan.

(** The object [o] is what the loop body builds from [row]: the row's
    best score is [o]'s confidence, it is above the threshold, and [o] is
    the candidate of the row. *)
Definition builtFrom (confidenceTreshold : F32.t) (classes : list string)
    (frame : Frame) (row : list F32.t) (o : detectedObject) : Prop :=
  ∃ classID,
    getClassIDAndConfidence (drop 5 row) = (classID, confidence o)
    ∧ F32.gt (confidence o) confidenceTreshold = true
    ∧ candidate classes frame row classID (confidence o) = Some o.

(** The rows of all outputs. *)
Definition allRows (results : list Output) : list (list F32.t) :=
  concat (map out_rows results).
(** The rows the class table covers: five leading entries and at most
    one score per class. *)
Definition covered (classes : list string) (row : list F32.t) : Prop :=
  (5 ≤ length row ≤ 5 + length classes)%nat.

(** The data of an output holds every row the loop takes off it.  With
    [Cols()] not negative: the rows start at 0, [Cols()], 2 [Cols()],
    ... below [Total()], that is [(Total() - 1) / Cols() + 1] rows when
    [Total()] is positive, each of [Cols()] entries, which are the five
    leading ones and at most one score per known class.  With a negative
    [Cols()]: the ten values printed. *)
Definition holdsRows (classes : list string) (output : Output) : bool :=
  let len := Z.of_nat (length (default [] (out_data output))) in
  let cols := out_cols output in
  let total := out_total output in
  if cols <? 0 then 10 <=? len
  else
    (5 <=? cols) && (cols <=? 5 + Z.of_nat (length classes))
    && (len <? 2 ^ 63)
    && ((total <=? 0) || (((total - 1) / cols + 1) * cols <=? len)).

(** The catalog [db'] is [db] with the alert rows [new] added at the end
    of the alert table, and nothing else changed. *)
Definition grownBy (db db' : Database) (new : list alertRow) : Prop :=
  observer db' = observer db ∧ stream db' = stream db
  ∧ subscription db' = subscription db ∧ alert db' = alert db ++ new.

(** The value of a run of decimal digits read after [acc]. *)
Fixpoint decimalValue (d : Decimal.uint) (acc : Z) : Z :=
  match d with
  | Decimal.Nil => acc
  | Decimal.D0 l => decimalValue l (10 * acc)
  | Decimal.D1 l => decimalValue l (10 * acc + 1)
  | Decimal.D2 l => decimalValue l (10 * acc + 2)
  | Decimal.D3 l => decimalValue l (10 * acc + 3)
  | Decimal.D4 l => decimalValue l (10 * acc + 4)
  | Decimal.D5 l => decimalValue l (10 * acc + 5)
  | Decimal.D6 l => decimalValue l (10 * acc + 6)
  | Decimal.D7 l => decimalValue l (10 * acc + 7)
  | Decimal.D8 l => decimalValue l (10 * acc + 8)
  | Decimal.D9 l => decimalValue l (10 * acc + 9)
  end.

(** A unit word: printable ASCII characters (no blank among them), the
    first of which is neither a digit nor an underscore. *)
Definition isWordChar (c : ascii) : bool :=
  (33 <=? nat_of_ascii c)%nat && (nat_of_ascii c <=? 126)%nat.

Fixpoint allWordChars (u : string) : bool :=
  match u with
  | String c u' => isWordChar c && allWordChars u'
  | EmptyString => true
  end.

Definition isWord (u : string) : bool :=
  allWordChars u
  && match u with
     | String c _ =>
         match digitOf c with Some _ => false | None => true end
         && negb (Ascii.eqb c "_")
     | EmptyString => true
     end.

(** What follows a number: the end of the input, or a character that is
    not a digit. *)
Definition noDigitAhead (r : string) : Prop :=
  match r with
  | String c _ => digitOf c = None
  | EmptyString => True
  end.

(** The bytes of a string, and a string of ASCII characters only. *)
Fixpoint bytes (s : string) : list Z :=
  match s with
  | String c s' => byteOf c :: bytes s'
  | EmptyString => []
  end.

Fixpoint allAscii (s : string) : bool :=
  match s with
  | String c s' => (byteOf c <? 128) && allAscii s'
  | EmptyString => true
  end.

(** The frames the environment supplies before the first read that
    fails. *)
Fixpoint supplied (its : list iteration) : list Frame :=
  match its with
  | it :: rest =>
      match it_read it with
      | Some f => f :: supplied rest
      | None => []
      end
  | [] => []
  end.

(** The reads and detections of a trace, in order: [inl f] for
    [webcam.Read] giving [f], [inr f] for [performDetection] on [f]. *)
Definition frameEvent (e : event) : option (Frame + Frame) :=
  match e with
  | FrameRead f => Some (inl f)
  | Detected f _ => Some (inr f)
  | _ => None
  end.

Definition frameEvents (tr : list event) : list (Frame + Frame) :=
  omap frameEvent tr.

(** Each frame read, then detected, before the next is read. *)
Definition readThenDetect (frames : list Frame) : list (Frame + Frame) :=
  flat_map (λ f, [inl f; inr f]) frames.

(** [strings.Join(elems, sep)] *)
Fixpoint Join (elems : list string) (sep : ascii) : string :=
  match elems with
  | [] => EmptyString
  | [e] => e
  | e :: rest => (e ++ String sep (Join rest sep))%string
  end.

(** How often the byte [c] occurs in [s], and whether it does. *)
Fixpoint countByte (c : ascii) (s : string) : nat :=
  match s with
  | EmptyString => 0
  | String c' s' => (if Ascii.eqb c' c then 1 else 0) + countByte c s'
  end.

Definition hasByte (c : ascii) (s : string) : bool :=
  negb (countByte c s =? 0)%nat.

(** The percentages the [-confidence] flag accepts. *)
Definition percentages : list Z := seqZ 1 100.

(** Where the fraction [r / d] lies in [0, 1): at 0, below 1/2, at 1/2 or
    above 1/2. *)
Definition locates (d r : Z) (l : location) : Prop :=
  match l with
  | loc_Exact => r = 0
  | loc_Inexact Lt => 0 < 2 * r < d
  | loc_Inexact Eq => 0 < r ∧ 2 * r = d
  | loc_Inexact Gt => d < 2 * r
  end.








(** The events a trace reports as stored, in order. *)
Definition persistedOf (e : event) : option Z :=
  match e with Persisted ev => Some ev | _ => None end.

Definition persisted (tr : list event) : list Z := omap persistedOf tr.





(** A binary32 value between 0 and 1. *)
Definition unitInterval (v : F32.t) : bool :=
  valid_binary 24 128 v && SFleb F32.zero v && SFleb v (F32.of_int 1).

(** A row whose four leading entries (centre and size, relative to the
    frame) lie between 0 and 1. *)
Definition normalised (row : list F32.t) : bool :=
  forallb unitInterval (take 4 row).

(** A box whose sides are at most the frame's and whose centre lies in
    the frame. *)
Definition inFrame (frame : Frame) (o : detectedObject) : Prop :=
  0 ≤ width o ≤ frame_cols frame
  ∧ 0 ≤ height o ≤ frame_rows frame
  ∧ 0 ≤ left o + Z.quot (width o) 2 ≤ frame_cols frame
  ∧ 0 ≤ top o + Z.quot (height o) 2 ≤ frame_rows frame.

(** * Properties *)

(** The floating-point functions are kept folded by [simpl]; they are
    evaluated with [vm_compute] where a proof needs their value. *)
Arguments F32.lit : simpl never.
Arguments F64.lit : simpl never.
Arguments F32.gt : simpl never.
Arguments F64.gt : simpl never.
Arguments F32.of_int : simpl never.
Arguments F64.of_int : simpl never.
Arguments bbIntersectionOverUnion : simpl never.
Arguments overlaps : simpl never.

(** ** Machine integers *)

Lemma wrap64_small (z : Z) : - 2 ^ 63 ≤ z < 2 ^ 63 → wrap64 z = z.
Proof. intros Hz. unfold wrap64. rewrite Z.mod_small; lia. Qed.

(** ** The order of floating-point values *)

Ltac cmp_cases :=
  repeat match goal with
  | |- context [Z.compare ?a ?b] =>
      let H := fresh in destruct (Z.compare_spec a b) as [H|H|H]
  | |- context [Pos.compare ?a ?b] =>
      let H := fresh in destruct (Pos.compare_spec a b) as [H|H|H]
  | H : context [Z.compare ?a ?b] |- _ =>
      let H' := fresh in destruct (Z.compare_spec a b) as [H'|H'|H']
  | H : context [Pos.compare ?a ?b] |- _ =>
      let H' := fresh in destruct (Pos.compare_spec a b) as [H'|H'|H']
  end.

(** Case analysis on the shape and sign of every float in sight, then on
    the exponent and mantissa comparisons that are left. *)
Ltac float_order :=
  unfold F32.gt, F64.gt, SFltb, SFleb, SFeqb, SFcompare;
  repeat match goal with x : spec_float |- _ => destruct x as [[]|[]| |[] ? ?] end;
  change (Pos.compare_cont Eq) with Pos.compare;
  simpl; intros; try congruence;
  cmp_cases; subst; simpl in *; try congruence; try lia.

Lemma SFltb_irrefl (a : spec_float) : SFltb a a = false.
Proof. float_order. Qed.

Lemma SFltb_trans (a b c : spec_float) :
  SFltb a b = true → SFltb b c = true → SFltb a c = true.
Proof. float_order. Qed.

Lemma SFltb_leb_trans (a b c : spec_float) :
  SFltb a b = true → SFleb b c = true → SFltb a c = true.
Proof. float_order. Qed.

(** ** getClassIDAndConfidence *)

Section Classify.
Implicit Types (x p : list F32.t) (y max : F32.t) (res : nat).

Lemma scanned_step p y st :
  scanned p st → scanned (p ++ [y]) (classStep (length p) y st).
Proof.
  destruct st as [res max]. unfold classStep, scanned.
  destruct (F32.gt y max) eqn:Hgt; unfold F32.gt in *.
  - intros Hinv. right.
    assert (Hzero : SFltb F32.zero y = true).
    { destruct Hinv as [(_ & _ & ->)|(_ & Hpos & _)]; [done|].
      by apply SFltb_trans with max. }
    assert (Hsmall : Forall (λ y', SFltb max y' = false) p).
    { destruct Hinv as [(H0 & _ & ->)|(_ & _ & H & _)]; done. }
    split_and!.
    + by rewrite lookup_app_r, Nat.sub_diag.
    + done.
    + apply Forall_app. split.
      * eapply Forall_impl; [exact Hsmall|]. intros y' Hy'. simpl in Hy'.
        destruct (SFltb y y') eqn:E; [|done].
        by rewrite (SFltb_trans max y y') in Hy'.
      * repeat constructor. apply SFltb_irrefl.
    + intros j y' Hj Hlook.
      rewrite lookup_app_l in Hlook by done.
      rewrite Forall_lookup in Hsmall. specialize (Hsmall _ _ Hlook).
      simpl in Hsmall.
      destruct (SFleb y y') eqn:E; [|done].
      by rewrite (SFltb_leb_trans max y y') in Hsmall.
  - intros [(H0 & -> & ->)|(Hres & Hpos & Hall & Hfirst)]; [left|right].
    + split_and!; try done. apply Forall_app. split; [done|].
      by repeat constructor.
    + split_and!.
      * rewrite lookup_app_l; [done|]. by eapply lookup_lt_Some.
      * done.
      * apply Forall_app. split; [done|]. by repeat constructor.
      * intros j y' Hj Hlook. apply (Hfirst j y' Hj).
        rewrite lookup_app_l in Hlook; [done|].
        apply lookup_lt_Some in Hres. unfold F32.t in *. lia.
Qed.

Lemma classScan_scanned x :
  ∀ p st, scanned p st → scanned (p ++ x) (classScan (length p) x st).
Proof.
  induction x as [|y x IH]; intros p st Hinv; simpl.
  - by rewrite app_nil_r.
  - replace (p ++ y :: x) with ((p ++ [y]) ++ x) by by rewrite <- app_assoc.
    replace (S (length p)) with (length (p ++ [y]))
      by (rewrite length_app; simpl; lia).
    apply IH. by apply scanned_step.
Qed.

Lemma getClassIDAndConfidence_scanned x :
  scanned x (getClassIDAndConfidence x).
Proof.
  apply (classScan_scanned x [] (0%nat, F32.zero)). left. by split_and!.
Qed.
End Classify.

(** C3 (as amended).  The scan starts from [max = 0.0], so: when some
    score is greater than 0, the result is the index of the first entry
    that attains the maximum of the vector together with that maximum (no
    entry is greater, and every earlier entry is strictly smaller or not
    comparable); when no score is greater than 0 - the empty vector among
    them - the result is [(0, 0.0)].  The three examples of the
    specification are evaluated as well. *)
Theorem getClassIDAndConfidence_first_maximum (x : list F32.t) :
  (Forall (λ y, F32.gt y F32.zero = false) x →
     getClassIDAndConfidence x = (0%nat, F32.zero))
  ∧ (Exists (λ y, F32.gt y F32.zero = true) x →
     ∃ res max, getClassIDAndConfidence x = (res, max)
       ∧ x !! res = Some max
       ∧ Forall (λ y, F32.gt y max = false) x
       ∧ ∀ j y, (j < res)%nat → x !! j = Some y → SFleb max y = false)
  ∧ getClassIDAndConfidence [] = (0%nat, F32.zero)
  ∧ getClassIDAndConfidence [F32.lit 1 10; F32.lit 9 10; F32.lit 3 10]
    = (1%nat, F32.lit 9 10)
  ∧ getClassIDAndConfidence [F32.lit 5 10; F32.lit 5 10]
    = (0%nat, F32.lit 5 10).
Proof.
  pose proof (getClassIDAndConfidence_scanned x) as Hx.
  destruct (getClassIDAndConfidence x) as [res max]. simpl in Hx.
  split_and!; try reflexivity.
  - intros Hnone.
    destruct Hx as [(_ & -> & ->)|(Hres & Hpos & _)]; [done|].
    rewrite Forall_lookup in Hnone. by rewrite (Hnone _ _ Hres) in Hpos.
  - intros Hsome. destruct Hx as [(Hnone & _)|Hx].
    + apply Exists_exists in Hsome as (y & Hy & Hpos).
      rewrite Forall_forall in Hnone. by rewrite (Hnone _ Hy) in Hpos.
    + destruct Hx as (Hres & _ & Hall & Hfirst). by exists res, max.
Qed.

Lemma getClassIDAndConfidence_first_maximum_witness :
  ∃ res max,
    getClassIDAndConfidence [F32.lit 2 10; F32.lit 7 10; F32.lit 7 10]
      = (res, max)
    ∧ [F32.lit 2 10; F32.lit 7 10; F32.lit 7 10] !! res = Some max
    ∧ res = 1%nat.
Proof.
  destruct (getClassIDAndConfidence_first_maximum
              [F32.lit 2 10; F32.lit 7 10; F32.lit 7 10])
    as (_ & H & _).
  destruct H as (res & max & Heq & Hres & _).
  - apply Exists_cons_hd. reflexivity.
  - exists res, max. split_and!; [done|done|].
    vm_compute in Heq. congruence.
Defined.

(** C3, as stated, fails on a vector without a positive score: for
    [[-1.0]] the result is [(0, 0.0)], and [0.0] is not the maximum of
    the vector (it is not even one of its entries). *)
Lemma getClassIDAndConfidence_negative_scores :
  getClassIDAndConfidence [F32.of_int (-1)] = (0%nat, F32.zero)
  ∧ [F32.of_int (-1)] !! 0%nat = Some (F32.of_int (-1))
  ∧ SFeqb F32.zero (F32.of_int (-1)) = false
  ∧ F32.zero ∉ [F32.of_int (-1)].
Proof.
  split_and!; try reflexivity.
  intros H. apply list_elem_of_singleton in H. discriminate H.
Qed.

(** ** The fusion pass *)

Section Fusion.
Implicit Types (cur obj : detectedObject) (objs acc : list detectedObject).

Lemma rangeObjects_spec cur n :
  ∀ i objs newObject, (i + n)%nat = length objs →
    rangeObjects cur n i (objs, newObject)
    = (take i objs ++ map (replaced cur) (drop i objs),
       newObject && negb (existsb (overlaps cur) (drop i objs))).
Proof.
  induction n as [|n IH]; intros i objs flag Hlen; cbn [rangeObjects].
  - rewrite drop_ge by lia. rewrite take_ge by lia. cbn [map existsb negb].
    by rewrite app_nil_r, andb_true_r.
  - destruct (objs !! i) as [obj|] eqn:Hobj.
    2:{ apply lookup_ge_None in Hobj. lia. }
    rewrite (drop_S _ _ _ Hobj). cbn [map existsb].
    assert (Hrep : replaced cur obj
                   = if overlaps cur obj
                        && F32.gt (confidence cur) (confidence obj)
                     then cur else obj) by done.
    destruct (overlaps cur obj) eqn:Hov; cbn [andb orb negb] in *.
    + destruct (F32.gt (confidence cur) (confidence obj)) eqn:Hgt;
        rewrite Hrep.
      * rewrite IH by (rewrite length_insert; lia).
        rewrite take_insert_lt, drop_insert_lt by lia.
        rewrite (take_S_r _ _ _ Hobj).
        rewrite insert_app_r_alt by (rewrite length_take; lia).
        rewrite length_take, Nat.min_l by lia. rewrite Nat.sub_diag.
        cbn [insert list_insert].
        by rewrite <- app_assoc, !andb_false_r.
      * rewrite IH by lia. rewrite (take_S_r _ _ _ Hobj).
        by rewrite <- app_assoc, !andb_false_r.
    + rewrite Hrep, IH by lia. rewrite (take_S_r _ _ _ Hobj).
      by rewrite <- app_assoc.
Qed.

Lemma replaced_id cur acc :
  existsb (overlaps cur) acc = false → map (replaced cur) acc = acc.
Proof.
  induction acc as [|obj acc IH]; cbn [existsb map]; [done|].
  intros [Hobj Hacc]%orb_false_elim.
  unfold replaced at 1. rewrite Hobj. cbn [andb]. by rewrite IH.
Qed.

(** Lines 386-406 in closed form. *)
Lemma fuseCandidate_spec acc cur :
  fuseCandidate acc cur
  = if existsb (overlaps cur) acc then map (replaced cur) acc
    else acc ++ [cur].
Proof.
  unfold fuseCandidate. destruct (decide (length acc = 0%nat)) as [H0|H0].
  - apply nil_length_inv in H0. by subst.
  - rewrite rangeObjects_spec by done. rewrite take_0, drop_0. simpl.
    destruct (existsb (overlaps cur) acc) eqn:Hex; simpl; [done|].
    by rewrite replaced_id.
Qed.

Lemma fuse_snoc cands cur :
  fuse (cands ++ [cur]) = fuseCandidate (fuse cands) cur.
Proof. unfold fuse. by rewrite foldl_app. Qed.
End Fusion.

Section FusionPass.
Variable confidenceTreshold : F32.t.
Variable classes : list string.

Lemma detectRow_rowCandidates frame row acc :
  detectRow confidenceTreshold classes frame row acc
  = foldl fuseCandidate acc
      <$> rowCandidates confidenceTreshold classes frame row.
Proof.
  unfold detectRow, rowCandidates.
  destruct (decide (length row < 5)%nat); [done|].
  destruct (getClassIDAndConfidence (drop 5 row)) as [classID conf].
  destruct (F32.gt conf confidenceTreshold); [|done].
  by destruct (candidate classes frame row classID conf).
Qed.

Lemma detectRows_sliceRows frame output data fuel :
  ∀ j acc,
    detectRows confidenceTreshold classes fuel frame output data j acc
    = let '(rows, ok) := sliceRows fuel output data j in
      if ok : bool
      then foldl fuseCandidate acc
             <$> passingRows confidenceTreshold classes frame rows
      else None.
Proof.
  induction fuel as [|fuel IH]; intros j acc; cbn [detectRows sliceRows];
    destruct (j <? out_total output); try done.
  destruct (sliceOf data j (int_add j (out_cols output))) as [row|];
    [|done].
  cbn [mbind option_bind]. rewrite detectRow_rowCandidates.
  destruct (decide (length row < 5)%nat) as [Hshort|Hlong].
  { unfold rowCandidates. by destruct (decide (length row < 5)%nat). }
  destruct (rowCandidates confidenceTreshold classes frame row) as [c|]
    eqn:Hrow; cbn [fmap option_fmap option_map mbind option_bind].
  - rewrite (IH (int_add j (out_cols output))).
    destruct (sliceRows fuel output data (int_add j (out_cols output)))
      as [rows ok].
    destruct ok; [|done]. cbn [passingRows]. rewrite Hrow.
    cbn [mbind option_bind].
    destruct (passingRows confidenceTreshold classes frame rows) as [cs|];
      cbn [fmap option_fmap option_map mbind option_bind]; [|done].
    by rewrite foldl_app.
  - destruct (sliceRows fuel output data (int_add j (out_cols output)))
      as [rows ok].
    destruct ok; [|done]. cbn [passingRows]. by rewrite Hrow.
Qed.

(** The fuel of [detectRows] is never used up when it starts above the
    data that is left: a turn that does not panic moves [j] on by at
    least five entries and stays inside [data]. *)
Lemma detectRows_fuel frame output data fuel1 :
  ∀ fuel2 j acc,
    0 ≤ j ≤ Z.of_nat (length data) →
    Z.of_nat (length data) - j < Z.of_nat fuel1 →
    Z.of_nat (length data) - j < Z.of_nat fuel2 →
    detectRows confidenceTreshold classes fuel1 frame output data j acc
    = detectRows confidenceTreshold classes fuel2 frame output data j acc.
Proof.
  induction fuel1 as [|fuel1 IH]; intros fuel2 j acc Hj H1 H2; [lia|].
  destruct fuel2 as [|fuel2]; [lia|].
  cbn [detectRows]. destruct (j <? out_total output); [|done].
  set (hi := int_add j (out_cols output)).
  unfold sliceOf.
  destruct ((0 <=? j) && (j <=? hi) && (hi <=? Z.of_nat (length data)))
    eqn:Hin; [|done].
  apply andb_prop in Hin as [[_ Hlo%Z.leb_le]%andb_prop Hhi%Z.leb_le].
  cbn [mbind option_bind].
  set (row := take (Z.to_nat (hi - j)) (drop (Z.to_nat j) data)).
  assert (Hrow : length row = Z.to_nat (hi - j)).
  { unfold row. rewrite length_take, length_drop. lia. }
  unfold detectRow.
  destruct (decide (length row < 5)%nat) as [|Hlong]; [done|].
  assert (Hnext : ∀ objs,
            detectRows confidenceTreshold classes fuel1 frame output data
                       hi objs
            = detectRows confidenceTreshold classes fuel2 frame output data
                         hi objs)
    by (intros objs; apply IH; lia).
  destruct (getClassIDAndConfidence (drop 5 row)) as [classID conf].
  destruct (F32.gt conf confidenceTreshold); [|apply Hnext].
  destruct (candidate classes frame row classID conf);
    cbn [mbind option_bind]; [apply Hnext|done].
Qed.

Lemma detectOutputs_passing frame results :
  ∀ acc, detectOutputs confidenceTreshold classes frame results acc
         = foldl fuseCandidate acc
             <$> passing confidenceTreshold classes frame results.
Proof.
  induction results as [|output results IH]; intros acc;
    cbn [detectOutputs passing]; [done|].
  unfold sliced, out_rows.
  destruct (out_cols output <? 0) eqn:Hcols.
  - unfold sliceOf. cbn [Z.leb andb].
    destruct (10 <=? Z.of_nat (length (default [] (out_data output))));
      done.
  - rewrite detectRows_sliceRows.
    destruct (sliceRows _ output _ 0) as [rows ok]. cbn [fst snd].
    destruct ok; [|done].
    destruct (passingRows confidenceTreshold classes frame rows) as [c|];
      cbn [fmap option_fmap option_map mbind option_bind]; [|done].
    rewrite IH.
    destruct (passing confidenceTreshold classes frame results) as [cs|];
      cbn [fmap option_fmap option_map mbind option_bind]; [|done].
    by rewrite foldl_app.
Qed.

Lemma performDetection_fuse frame results :
  performDetection confidenceTreshold classes frame results
  = fuse <$> passing confidenceTreshold classes frame results.
Proof. apply detectOutputs_passing. Qed.
End FusionPass.

Lemma lookup_map {A B} (f : A → B) (l : list A) (i : nat) (x : A) :
  l !! i = Some x → map f l !! i = Some (f x).
Proof.
  revert i. induction l as [|a l IH]; intros [|i]; cbn [map]; try done.
  - by intros [= ->].
  - apply IH.
Qed.

Lemma existsb_elem_of {A} (f : A → bool) (l : list A) :
  existsb f l = true ↔ ∃ x, x ∈ l ∧ f x = true.
Proof.
  rewrite existsb_exists. split; intros (x & Hx & Hf); exists x; split;
    try done; by apply list_elem_of_In.
Qed.

Lemma existsb_none {A} (f : A → bool) (l : list A) :
  existsb f l = false ↔ ∀ x, x ∈ l → f x = false.
Proof.
  split.
  - intros Hex x Hx. destruct (f x) eqn:Hf; [|done].
    rewrite <- Hex. symmetry. apply existsb_elem_of. eauto.
  - intros Hall. destruct (existsb f l) eqn:Hex; [|done].
    apply existsb_elem_of in Hex as (x & Hx & Hf). by rewrite (Hall x Hx) in Hf.
Qed.

(** Every sequence in which no entry overlaps an earlier one above 0.7 is
    left as it is by the fusion pass. *)
Lemma separated_snoc (l : list detectedObject) (x : detectedObject) :
  separated (l ++ [x]) = true →
  separated l = true ∧ existsb (overlaps x) l = false.
Proof.
  induction l as [|a l IH]; cbn [app separated existsb]; [done|].
  rewrite forallb_app. cbn [forallb].
  intros [[Hal [Hxa _]%andb_prop]%andb_prop Hsep]%andb_prop.
  destruct (IH Hsep) as [Hl Hx].
  rewrite Hal, Hl, Hx. by destruct (overlaps x a).
Qed.

Lemma fuse_separated (l : list detectedObject) :
  separated l = true → fuse l = l.
Proof.
  induction l as [|x l IH] using rev_ind; [done|].
  intros [Hl Hx]%separated_snoc.
  by rewrite fuse_snoc, IH, fuseCandidate_spec, Hx.
Qed.

(** C4 (as amended).  Running the fusion pass on its own output gives the
    same sequence whenever that output holds no entry that overlaps an
    earlier entry above 0.7. *)
Theorem fuse_idempotent_when_separated (cands : list detectedObject) :
  separated (fuse cands) = true → fuse (fuse cands) = fuse cands.
Proof. apply fuse_separated. Qed.

Lemma fuse_idempotent_when_separated_witness :
  fuse (fuse [box (F32.lit 8 10) 0 0 99 99;
              box (F32.lit 9 10) 10 0 99 99;
              box (F32.lit 95 100) 300 0 99 99])
  = fuse [box (F32.lit 8 10) 0 0 99 99;
          box (F32.lit 9 10) 10 0 99 99;
          box (F32.lit 95 100) 300 0 99 99].
Proof.
  apply (fuse_idempotent_when_separated
           [box (F32.lit 8 10) 0 0 99 99;
            box (F32.lit 9 10) 10 0 99 99;
            box (F32.lit 95 100) 300 0 99 99]).
  vm_compute. reflexivity.
Defined.

(** C4, as stated, fails.  Three thresholded candidates [a], [b], [c] in a
    row of 100x100 boxes at x = 0, 20, 10 with confidences 0.8, 0.95, 0.9:
    [b] does not overlap [a] above 0.7, [c] overlaps both.  The pass gives
    [[c; b]] ([c] replaces [a] and leaves the more confident [b]); run
    again on [[c; b]] it gives [[b]]. *)
Lemma fuse_not_idempotent :
  fuse [box (F32.lit 8 10) 0 0 99 99;
        box (F32.lit 95 100) 20 0 99 99;
        box (F32.lit 9 10) 10 0 99 99]
    = [box (F32.lit 9 10) 10 0 99 99; box (F32.lit 95 100) 20 0 99 99]
  ∧ fuse (fuse [box (F32.lit 8 10) 0 0 99 99;
                box (F32.lit 95 100) 20 0 99 99;
                box (F32.lit 9 10) 10 0 99 99])
    = [box (F32.lit 95 100) 20 0 99 99]
  ∧ fuse (fuse [box (F32.lit 8 10) 0 0 99 99;
                box (F32.lit 95 100) 20 0 99 99;
                box (F32.lit 9 10) 10 0 99 99])
    ≠ fuse [box (F32.lit 8 10) 0 0 99 99;
            box (F32.lit 95 100) 20 0 99 99;
            box (F32.lit 9 10) 10 0 99 99].
Proof. split_and!; [vm_compute; reflexivity..|vm_compute; discriminate]. Qed.

(** ** getDeviceType and the launch loop of main *)

Section Strings.
Implicit Types (s p r suffix prefix : string).

Lemma append_nil_l s : String.append "" s = s.
Proof. done. Qed.

Lemma append_cons c p r :
  String.append (String c p) r = String c (String.append p r).
Proof. done. Qed.

Lemma substring_all s : substring 0 (String.length s) s = s.
Proof. induction s as [|c s IH]; simpl; [done|]. by f_equal. Qed.

Lemma substring_split s :
  ∀ n, (n ≤ String.length s)%nat →
    s = String.append (substring 0 n s) (substring n (String.length s - n) s).
Proof.
  induction s as [|c s IH]; intros [|n] Hn; simpl in *; try lia; try done.
  - by rewrite append_nil_l, substring_all.
  - rewrite append_cons. f_equal. apply IH. lia.
Qed.

Lemma substring_append_l prefix r :
  substring 0 (String.length prefix) (String.append prefix r) = prefix.
Proof.
  induction prefix as [|c p IH]; simpl.
  - rewrite ?append_nil_l. by destruct r.
  - rewrite ?append_cons. simpl. by f_equal.
Qed.

Lemma substring_append_r p suffix :
  substring (String.length p) (String.length suffix) (String.append p suffix)
  = suffix.
Proof.
  induction p as [|c p IH]; simpl.
  - rewrite ?append_nil_l. apply substring_all.
  - by rewrite ?append_cons.
Qed.

Lemma append_length p r :
  String.length (String.append p r) = (String.length p + String.length r)%nat.
Proof.
  induction p as [|c p IH]; [done|].
  rewrite ?append_cons. simpl. by f_equal.
Qed.
Lemma HasSuffix_endsWith s suffix :
  HasSuffix s suffix = true ↔ endsWith s suffix.
Proof.
  unfold HasSuffix, endsWith. rewrite andb_true_iff, Nat.leb_le, String.eqb_eq.
  split.
  - intros [Hlen Hsub].
    exists (substring 0 (String.length s - String.length suffix) s).
    pose proof (substring_split s (String.length s - String.length suffix))
      as Hsplit.
    replace (String.length s - (String.length s - String.length suffix))%nat
      with (String.length suffix) in Hsplit by lia.
    rewrite Hsub in Hsplit. apply Hsplit. lia.
  - intros (p & ->). rewrite append_length. split; [lia|].
    replace (String.length p + String.length suffix - String.length suffix)%nat
      with (String.length p) by lia.
    apply substring_append_r.
Qed.

Lemma HasPrefix_startsWith s prefix :
  HasPrefix s prefix = true ↔ startsWith s prefix.
Proof.
  unfold HasPrefix, startsWith. rewrite andb_true_iff, Nat.leb_le, String.eqb_eq.
  split.
  - intros [Hlen Hsub].
    exists (substring (String.length prefix)
                      (String.length s - String.length prefix) s).
    pose proof (substring_split s (String.length prefix) Hlen) as Hsplit.
    by rewrite Hsub in Hsplit.
  - intros (r & ->). rewrite append_length. split; [lia|].
    apply substring_append_l.
Qed.
End Strings.

Lemma launchLoop_launched (deviceIdList : list string) :
  ∀ (i : nat) (st : mainState) (l : launch),
    l ∈ launched (launchLoop i deviceIdList st)
    ↔ l ∈ launched st
      ∨ ∃ k d, deviceIdList !! k = Some d
          ∧ l = {| launch_type := getDeviceType d;
                   launch_device := d;
                   launch_captureId := (i + k)%nat |}
          ∧ getDeviceType d ≠ -1.
Proof.
  assert (Hty : ∀ d, (getDeviceType d <? 0) = true ↔ getDeviceType d = -1).
  { intros d. unfold getDeviceType, IMAGE, VIDEO, STREAM.
    repeat case_match; split; intros Hlt; try done; try lia. }
  induction deviceIdList as [|d ds IH]; intros i st l; simpl.
  - split; [by left|]. intros [H|(k & d & Hk & _)]; [done|].
    by rewrite lookup_nil in Hk.
  - destruct (getDeviceType d <? 0) eqn:Hd; rewrite IH; simpl.
    + apply Hty in Hd. split.
      * intros [H|(k & d' & Hk & -> & Hne)]; [by left|right].
        exists (S k), d'. split_and!; [done| |done]. f_equal. lia.
      * intros [H|(k & d' & Hk & -> & Hne)]; [by left|right].
        destruct k as [|k]; simpl in Hk; [congruence|].
        exists k, d'. split_and!; [done| |done]. f_equal. lia.
    + assert (Hne : getDeviceType d ≠ -1).
      { intros H%Hty. congruence. }
      rewrite elem_of_app, list_elem_of_singleton. split.
      * intros [[H| ->]|(k & d' & Hk & -> & Hne')]; [by left|right..].
        -- exists 0%nat, d. split_and!; [done| |done]. f_equal. lia.
        -- exists (S k), d'. split_and!; [done| |done]. f_equal. lia.
      * intros [H|(k & d' & Hk & -> & Hne')]; [by left; left|].
        destruct k as [|k]; simpl in Hk.
        -- left; right. injection Hk as <-. f_equal. lia.
        -- right. exists k, d'. split_and!; [done| |done]. f_equal. lia.
Qed.

(** C10.  [getDeviceType] gives IMAGE exactly for an address that ends in
    ".jpg" or ".png"; otherwise VIDEO exactly for one that ends in ".mp4"
    or is "0"; otherwise STREAM exactly for one that starts with "rtsp";
    and -1 exactly for every other address.  The launch loop of [main]
    starts one pipeline for each listed address whose type is not -1,
    with the address, its type and its index, and none for the others. *)
Theorem getDeviceType_classification
    (deviceID : string) (deviceIdList : list string) :
  let image := endsWith deviceID ".jpg" ∨ endsWith deviceID ".png" in
  let video := endsWith deviceID ".mp4" ∨ deviceID = "0"%string in
  let stream := startsWith deviceID "rtsp" in
  (getDeviceType deviceID = IMAGE ↔ image)
  ∧ (getDeviceType deviceID = VIDEO ↔ ¬ image ∧ video)
  ∧ (getDeviceType deviceID = STREAM ↔ ¬ image ∧ ¬ video ∧ stream)
  ∧ (getDeviceType deviceID = -1 ↔ ¬ image ∧ ¬ video ∧ ¬ stream)
  ∧ (∀ l : launch,
       l ∈ launched (mainLaunches deviceIdList)
       ↔ ∃ d, deviceIdList !! launch_captureId l = Some d
            ∧ launch_device l = d
            ∧ launch_type l = getDeviceType d
            ∧ getDeviceType d ≠ -1).
Proof.
  intros image video stream. subst image video stream.
  rewrite <- !HasSuffix_endsWith, <- HasPrefix_startsWith, <- String.eqb_eq.
  unfold getDeviceType, IMAGE, VIDEO, STREAM.
  destruct (HasSuffix deviceID ".jpg"), (HasSuffix deviceID ".png"),
    (HasSuffix deviceID ".mp4"), (String.eqb deviceID "0"),
    (HasPrefix deviceID "rtsp"); simpl;
    (split_and!; [try (intuition congruence)..|]).
  all: intros l; unfold mainLaunches; rewrite launchLoop_launched; simpl;
    (split;
     [ intros [H|(k & d & Hk & -> & Hne)]; [by apply elem_of_nil in H|];
       by exists d
     | intros (d & Hd & Hdev & Hty & Hne); right;
       exists (launch_captureId l), d; split_and!; [done| |done];
       destruct l; simpl in *; by subst ]).
Qed.

(** ** The alert throttle *)

(** With a magnitude that fits a [time.Duration], the cases [m] and [h]
    compare the last alert with [captureTime] minus the interval. *)
Lemma withinInterval_cutoff (loc : Location) (u : string) (n unit last now : Z) :
  durationUnit u = Some unit →
  - 2 ^ 63 < unit * n < 2 ^ 63 →
  withinInterval loc u n last now = (now - unit * n <? last).
Proof.
  unfold durationUnit, withinInterval, After, Add, Duration_mul, int_neg.
  intros Hu Hn.
  destruct (String.eqb u "m"); [|destruct (String.eqb u "h"); [|done]];
    injection Hu as <-.
  - rewrite (wrap64_small (Minute * n)), wrap64_small by lia.
    f_equal; lia.
  - rewrite (wrap64_small (Hour * n)), wrap64_small by lia.
    f_equal; lia.
Qed.

Lemma withinInterval_days (loc : Location) (n last now : Z) :
  withinInterval loc "d" n last now
  = (AddDate_days loc now (int_neg n) <? last).
Proof. done. Qed.

Lemma withinInterval_unrecognized (loc : Location) (u : string)
    (n last now : Z) :
  recognized u = false → withinInterval loc u n last now = true.
Proof.
  unfold recognized, withinInterval.
  by destruct (String.eqb u "m"), (String.eqb u "h"), (String.eqb u "d").
Qed.

(** One day of the calendar is not always 24 hours: on 2023-03-26 at
    12:00 in Helsinki, the day the clocks went forward, the same
    wall-clock time one day earlier lies 23 hours back. *)
Lemma AddDate_days_clock_change :
  AddDate_days helsinki2023 (1679821200 * Second) (int_neg 1)
  = 1679821200 * Second - 23 * Hour.
Proof. vm_compute. reflexivity. Qed.

(** A timestamp recorded in the hour the wall clock shows twice is read
    back as the later of the two instants: 2023-10-29 03:30 in Helsinki,
    recorded at 00:30 UTC (summer time), is read back as 01:30 UTC. *)
Lemma ParseInLocation_repeated_hour :
  ParseInLocation helsinki2023
    (recordedAt helsinki2023 microseconds (1698539400 * Second))
  = 1698539400 * Second + Hour.
Proof. vm_compute. reflexivity. Qed.

(** C2 (as amended).  For the subscription the catalog gives for the
    observer, with interval magnitude [n] and unit [u] as [Sscanf] reads
    them: with no previous alert the decision is "allow" and an alert is
    recorded with the wall-clock time of Helsinki, whatever the unit;
    with a previous alert whose timestamp [created], read as wall-clock
    time of Helsinki, is the instant [ParseInLocation loc created]: for
    the units m and h (of length [unit], the magnitude fitting a 64-bit
    duration) the decision is "suppress" with nothing recorded when that
    instant is after [now - n * unit], and "allow" with an alert recorded
    otherwise; for the unit d the cutoff is the same wall-clock time [n]
    days of the calendar earlier, [AddDate_days loc now (-n)]; with any
    other unit code the decision is "suppress" with nothing recorded. *)
Theorem hasBeenAlerted_decision
    (loc : Location) (stamp : Z → Z)
    (db : Database) (email : string) (event now : Z)
    (subscriptionId : Z) (alertInterval : string) (n : Z) (u : string) :
  subscriptionOf db email = Some (subscriptionId, alertInterval) →
  Sscanf_d_s alertInterval = (n, u) →
  let allow :=
    Ok (insertAlert db event subscriptionId (stamp (wallClock loc now)),
        false) in
  let suppress := Ok (db, true) in
  (lastCapture db subscriptionId = None →
     hasBeenAlerted loc stamp db email event now = allow)
  ∧ (∀ created unit,
       lastCapture db subscriptionId = Some created →
       durationUnit u = Some unit →
       - 2 ^ 63 < unit * n < 2 ^ 63 →
       hasBeenAlerted loc stamp db email event now
       = if now - unit * n <? ParseInLocation loc created
         then suppress else allow)
  ∧ (∀ created,
       lastCapture db subscriptionId = Some created →
       u = "d"%string →
       hasBeenAlerted loc stamp db email event now
       = if AddDate_days loc now (int_neg n) <? ParseInLocation loc created
         then suppress else allow)
  ∧ (∀ created,
       lastCapture db subscriptionId = Some created →
       recognized u = false →
       hasBeenAlerted loc stamp db email event now = suppress).
Proof.
  intros Hsub Hscan allow suppress. subst allow suppress.
  unfold hasBeenAlerted. rewrite Hsub, Hscan.
  split_and!.
  - by intros ->.
  - intros created unit -> Hu Hn.
    by rewrite (withinInterval_cutoff loc u n unit).
  - intros created -> ->. by rewrite withinInterval_days.
  - intros created -> Hu. by rewrite withinInterval_unrecognized.
Qed.

(** The examples of the specification, on 2023-06-01 at 15:00 in
    Helsinki: interval "15m" and no alert so far gives "allow" and
    records the alert; asking again at the same instant gives
    "suppress". *)
Lemma hasBeenAlerted_decision_witness :
  let recorded := alertAt 7 1 (wallClock helsinki2023 noon) in
  hasBeenAlerted helsinki2023 microseconds (oneSubscription "15m" [])
                 "test@mail" 7 noon
  = Ok (oneSubscription "15m" [recorded], false)
  ∧ hasBeenAlerted helsinki2023 microseconds
                   (oneSubscription "15m" [recorded]) "test@mail" 8 noon
    = Ok (oneSubscription "15m" [recorded], true).
Proof.
  split.
  - refine (proj1 (hasBeenAlerted_decision helsinki2023 microseconds
              (oneSubscription "15m" []) "test@mail" 7 noon 1 "15m" 15 "m"
              _ _) _); vm_compute; reflexivity.
  - refine (proj1 (proj2 (hasBeenAlerted_decision helsinki2023 microseconds
              (oneSubscription "15m" [alertAt 7 1 (wallClock helsinki2023 noon)])
              "test@mail" 8 noon 1 "15m" 15 "m" _ _))
              (wallClock helsinki2023 noon) Minute _ _ _);
      try (vm_compute; reflexivity).
    unfold Minute. lia.
Defined.

(** C2, as stated, fails on its last clause: with the unit code "x" and
    no alert recorded so far the decision is "allow" and an alert is
    recorded; the unit is looked at only when a previous alert exists.
    (It also fails for a magnitude whose duration does not fit 64 bits:
    with "153722868m" the product wraps around, the cutoff lands in the
    future and an alert of one minute ago no longer suppresses.) *)
Lemma hasBeenAlerted_unrecognized_unit_first_alert :
  let before := alertAt 7 1 (wallClock helsinki2023 (noon - Minute)) in
  Sscanf_d_s "15x" = (15, "x"%string)
  ∧ recognized "x" = false
  ∧ lastCapture (oneSubscription "15x" []) 1 = None
  ∧ hasBeenAlerted helsinki2023 microseconds (oneSubscription "15x" [])
                   "test@mail" 7 noon
    = Ok (oneSubscription "15x" [alertAt 7 1 (wallClock helsinki2023 noon)],
          false)
  ∧ hasBeenAlerted helsinki2023 microseconds
      (oneSubscription "153722868m" [before]) "test@mail" 8 noon
    = Ok (oneSubscription "153722868m"
            [before; alertAt 8 1 (wallClock helsinki2023 noon)], false).
Proof. by vm_compute. Qed.

(** C8: the code against the claim.  One observer subscribed to the
    streams "rtsp://a" (subscription 1) and "rtsp://b" (subscription 2),
    both with interval "15m".  [hasBeenAlerted] picks the subscription by
    the observer alone, so an event on one stream is throttled by, and
    recorded under, the subscription the scan returns first, whichever
    stream it belongs to.  With row order 1, 2: an event on "rtsp://b" is
    mailed when subscription 1 has no alert and suppressed when
    subscription 1 was alerted a minute ago, the state of subscription 2
    being the same (no alert) in both runs; and the alert of the mailed
    event is stored under subscription 1.  With row order 2, 1 the same
    happens to an event on "rtsp://a".  (The runs are on 2023-06-01 at
    15:00 in Helsinki.) *)
Theorem throttle_keyed_by_observer_only :
  let now := noon in
  let at_ t := wallClock helsinki2023 t in
  let earlier := [alertAt 3 1 (at_ (noon - Minute))] in
  let earlier' := [alertAt 3 2 (at_ (noon - Minute))] in
  let notify := notifyObservers helsinki2023 microseconds in
  (lastCapture (twoSubscriptions false []) 2
     = lastCapture (twoSubscriptions false earlier) 2
   ∧ notify (twoSubscriptions false []) "rtsp://b" 7 now
     = Ok (twoSubscriptions false [alertAt 7 1 (at_ now)],
           ["test@mail"%string])
   ∧ notify (twoSubscriptions false earlier) "rtsp://b" 7 now
     = Ok (twoSubscriptions false earlier, []))
  ∧ (lastCapture (twoSubscriptions true []) 1
       = lastCapture (twoSubscriptions true earlier') 1
     ∧ notify (twoSubscriptions true []) "rtsp://a" 7 now
       = Ok (twoSubscriptions true [alertAt 7 2 (at_ now)],
             ["test@mail"%string])
     ∧ notify (twoSubscriptions true earlier') "rtsp://a" 7 now
       = Ok (twoSubscriptions true earlier', [])).
Proof. by vm_compute. Qed.

(** ** Integers in binary64

    Every integer of magnitude below 2^53 is a binary64 value, and
    [float64(z)], [+], [-], [*], the comparisons, [math.Max] and
    [math.Min] are exact on such values as long as the result stays below
    2^53. *)

Lemma shl_S p k : shl p (S k) = xO (shl p k).
Proof. reflexivity. Qed.

Lemma shl_add p j k : shl (shl p j) k = shl p (j + k).
Proof. unfold shl. rewrite Nat.add_comm. symmetry. apply Nat.iter_add. Qed.

Lemma shl_val p k : Z.pos (shl p k) = Z.pos p * 2 ^ Z.of_nat k.
Proof.
  induction k as [|k IH]; [simpl; lia|].
  rewrite shl_S, Nat2Z.inj_succ, Z.pow_succ_r by lia.
  rewrite Pos2Z.inj_xO, IH. lia.
Qed.

Lemma digits_shl p k :
  Z.pos (digits2_pos (shl p k)) = Z.pos (digits2_pos p) + Z.of_nat k.
Proof.
  induction k as [|k IH]; [simpl; lia|].
  rewrite shl_S. simpl digits2_pos. rewrite Pos2Z.inj_succ, IH. lia.
Qed.

Lemma digits_bounds p :
  2 ^ (Z.pos (digits2_pos p) - 1) <= Z.pos p < 2 ^ Z.pos (digits2_pos p).
Proof.
  induction p as [p IH|p IH|]; simpl digits2_pos; [| |simpl; lia].
  all: rewrite Pos2Z.inj_succ;
    replace (Z.succ (Z.pos (digits2_pos p)) - 1) with (Z.pos (digits2_pos p))
      by lia;
    rewrite Z.pow_succ_r by lia;
    assert (H2 : 2 ^ Z.pos (digits2_pos p)
                 = 2 * 2 ^ (Z.pos (digits2_pos p) - 1))
      by (rewrite <- Z.pow_succ_r by lia; f_equal; lia);
    lia.
Qed.

Lemma iter_pos_nat {A} (f : A -> A) (n : positive) (x : A) :
  SpecFloat.iter_pos f n x = Nat.iter (Pos.to_nat n) f x.
Proof.
  revert x. induction n as [n IH|n IH|]; intros x; cbn [SpecFloat.iter_pos].
  - rewrite !IH, Pos2Nat.inj_xI.
    replace (S (2 * Pos.to_nat n)) with (Pos.to_nat n + (Pos.to_nat n + 1))%nat
      by lia.
    rewrite !Nat.iter_add. reflexivity.
  - rewrite !IH, Pos2Nat.inj_xO.
    replace (2 * Pos.to_nat n)%nat with (Pos.to_nat n + Pos.to_nat n)%nat by lia.
    rewrite Nat.iter_add. reflexivity.
  - reflexivity.
Qed.

Lemma pos_iter_shl p d : Pos.iter xO p d = shl p (Pos.to_nat d).
Proof. unfold shl. apply Pos2Nat.inj_iter. Qed.

(** Shifting p * 2^(j+k) right by k bits loses nothing. *)
Lemma shr_exact p j k :
  Nat.iter k shr_1 {| shr_m := Z.pos (shl p (j + k)); shr_r := false; shr_s := false |}
  = {| shr_m := Z.pos (shl p j); shr_r := false; shr_s := false |}.
Proof.
  induction k as [|k IH].
  - simpl. by rewrite Nat.add_0_r.
  - rewrite Nat.iter_succ_r. rewrite Nat.add_succ_r, shl_S. simpl shr_1. apply IH.
Qed.

Lemma shr_fexp_exact p k e :
  digits p <= 53 -> 53 <= digits p + Z.of_nat k -> e = - Z.of_nat k ->
  shr_fexp 53 1024 (Z.pos (shl p k)) e loc_Exact
  = ({| shr_m := Z.pos (shl p (Z.to_nat (53 - digits p)));
        shr_r := false; shr_s := false |}, digits p - 53).
Proof.
  unfold digits. intros Hd Hk ->.
  unfold shr_fexp, Zdigits2, fexp, emin. rewrite digits_shl.
  replace (Z.max _ _ - - Z.of_nat k)
    with (Z.pos (digits2_pos p) + Z.of_nat k - 53) by lia.
  unfold shr_record_of_loc, shr.
  destruct (Z.pos (digits2_pos p) + Z.of_nat k - 53) as [|n|n] eqn:Hn.
  - do 2 f_equal; [|lia]. do 2 f_equal. lia.
  - rewrite iter_pos_nat.
    replace k with (Z.to_nat (53 - Z.pos (digits2_pos p)) + Pos.to_nat n)%nat
      at 1 by lia.
    rewrite shr_exact. f_equal. lia.
  - lia.
Qed.

Lemma binary_round_aux_exact s p k e :
  digits p <= 53 -> 53 <= digits p + Z.of_nat k -> e = - Z.of_nat k ->
  binary_round_aux 53 1024 s (Z.pos (shl p k)) e loc_Exact = norm s p.
Proof.
  intros Hd Hk He. unfold binary_round_aux.
  rewrite (shr_fexp_exact p k e) by done.
  cbn [shr_m loc_of_shr_record round_nearest_even].
  rewrite (shr_fexp_exact p (Z.to_nat (53 - digits p)) (digits p - 53))
    by lia.
  cbn [shr_m].
  unfold norm. destruct (Z.leb_spec (digits p - 53) (1024 - 53)); [done|exfalso; lia].
Qed.

Lemma binary_round_exact s p k e :
  digits p <= 53 -> e = - Z.of_nat k ->
  binary_round 53 1024 s (shl p k) e = norm s p.
Proof.
  intros Hd ->. unfold binary_round, shl_align, fexp, emin.
  fold (digits (shl p k)). unfold digits at 1 2. rewrite digits_shl. fold (digits p).
  assert (Hpos : 0 < digits p) by (unfold digits; lia).
  replace (Z.max _ _ - - Z.of_nat k) with (digits p - 53 + Z.of_nat k) by lia.
  replace (Z.max (digits p + Z.of_nat k + - Z.of_nat k - 53) (3 - 1024 - 53))
    with (digits p - 53) by lia.
  destruct (digits p - 53 + Z.of_nat k) as [|n|n] eqn:Hn.
  - apply binary_round_aux_exact; lia.
  - apply binary_round_aux_exact; lia.
  - rewrite pos_iter_shl, shl_add.
    apply binary_round_aux_exact; lia.
Qed.

Lemma digits_le p n : 0 <= n -> Z.pos p < 2 ^ n -> digits p <= n.
Proof.
  intros Hn Hp. pose proof (digits_bounds p) as [Hlo _]. fold (digits p) in Hlo.
  destruct (Z.le_gt_cases (digits p) n) as [|Hgt]; [done|].
  assert (2 ^ n <= 2 ^ (digits p - 1)) by (apply Z.pow_le_mono_r; lia). lia.
Qed.

Lemma digits_ge p n : 0 <= n -> 2 ^ n <= Z.pos p -> n + 1 <= digits p.
Proof.
  intros Hn Hp. pose proof (digits_bounds p) as [_ Hhi]. fold (digits p) in Hhi.
  destruct (Z.le_gt_cases (n + 1) (digits p)) as [|Hgt]; [done|].
  assert (2 ^ digits p <= 2 ^ n) by (apply Z.pow_le_mono_r; lia). lia.
Qed.

Lemma digits_pos p : 0 < digits p.
Proof. unfold digits. lia. Qed.

Lemma of_int_Zfloat z :
  Z.abs z < 2 ^ 53 -> binary_normalize 53 1024 z 0 false = Zfloat z.
Proof.
  intros Hz. destruct z as [|p|p]; simpl; [done|..].
  - apply (binary_round_exact false p 0); [apply digits_le|]; lia.
  - apply (binary_round_exact true p 0); [apply digits_le|]; lia.
Qed.

Lemma shl_align_fst m ex ez :
  ez <= ex -> fst (shl_align m ex ez) = shl m (Z.to_nat (ex - ez)).
Proof.
  intros He. unfold shl_align.
  destruct (ez - ex) as [|d|d] eqn:Hd; simpl.
  - by replace (ex - ez) with 0 by lia.
  - lia.
  - rewrite pos_iter_shl. f_equal. lia.
Qed.

(** [binary_normalize] of [z * 2^K] at exponent [-K]. *)
Lemma binary_normalize_exact z K (m : Z) :
  Z.abs z < 2 ^ 53 -> m = z * 2 ^ Z.of_nat K ->
  binary_normalize 53 1024 m (- Z.of_nat K) false = Zfloat z.
Proof.
  intros Hz ->. destruct z as [|p|p]; simpl Z.mul.
  - done.
  - replace (Z.pos p * 2 ^ Z.of_nat K) with (Z.pos (shl p K))
      by apply shl_val.
    apply binary_round_exact; [apply digits_le|]; lia.
  - replace (Z.neg p * 2 ^ Z.of_nat K) with (Z.neg (shl p K)).
    2:{ rewrite <- !Pos2Z.opp_pos, shl_val. lia. }
    apply binary_round_exact; [apply digits_le|]; lia.
Qed.

(** A nonzero [Zfloat] as sign, mantissa and exponent. *)
Lemma Zfloat_finite z :
  z <> 0 -> Z.abs z < 2 ^ 53 ->
  exists p j, Z.abs z = Z.pos p /\ digits p <= 53
    /\ j = Z.to_nat (53 - digits p)
    /\ Zfloat z = S754_finite (z <? 0) (shl p j) (- Z.of_nat j).
Proof.
  intros Hz Hlt. destruct z as [|p|p]; [done|..]; exists p, (Z.to_nat (53 - digits p));
    assert (digits p <= 53) by (apply digits_le; lia);
    (split_and!; [done|done|done|]); unfold Zfloat, norm; f_equal; lia.
Qed.

Lemma cond_Zopp_val (z : Z) p :
  Z.abs z = Z.pos p -> cond_Zopp (z <? 0) (Z.pos p) = z.
Proof. intros H. unfold cond_Zopp. destruct (Z.ltb_spec z 0); lia. Qed.

Lemma add_exact x y :
  Z.abs x < 2 ^ 53 -> Z.abs y < 2 ^ 53 -> Z.abs (x + y) < 2 ^ 53 ->
  SFadd 53 1024 (Zfloat x) (Zfloat y) = Zfloat (x + y).
Proof.
  intros Hx Hy Hxy.
  destruct (decide (x = 0)) as [->|Hx0].
  { destruct y; done. }
  destruct (decide (y = 0)) as [->|Hy0].
  { rewrite Z.add_0_r. destruct x; done. }
  destruct (Zfloat_finite x Hx0 Hx) as (px & jx & Hpx & Hdx & Hjx & ->).
  destruct (Zfloat_finite y Hy0 Hy) as (py & jy & Hpy & Hdy & Hjy & ->).
  cbn [SFadd].
  rewrite !shl_align_fst by lia. rewrite !shl_add.
  set (K := Z.to_nat (- Z.min (- Z.of_nat jx) (- Z.of_nat jy))).
  replace (Z.min (- Z.of_nat jx) (- Z.of_nat jy)) with (- Z.of_nat K) by lia.
  replace (jx + Z.to_nat (- Z.of_nat jx - - Z.of_nat K))%nat with K by lia.
  replace (jy + Z.to_nat (- Z.of_nat jy - - Z.of_nat K))%nat with K by lia.
  apply binary_normalize_exact; [done|].
  rewrite <- (cond_Zopp_val x px Hpx) at 2.
  rewrite <- (cond_Zopp_val y py Hpy) at 2.
  unfold cond_Zopp. rewrite !shl_val. destruct (x <? 0), (y <? 0); lia.
Qed.

Lemma sub_exact x y :
  Z.abs x < 2 ^ 53 -> Z.abs y < 2 ^ 53 -> Z.abs (x - y) < 2 ^ 53 ->
  SFsub 53 1024 (Zfloat x) (Zfloat y) = Zfloat (x - y).
Proof.
  intros Hx Hy Hxy.
  destruct (decide (y = 0)) as [->|Hy0].
  { rewrite Z.sub_0_r. destruct x; done. }
  destruct (decide (x = 0)) as [->|Hx0].
  { destruct y; done. }
  destruct (Zfloat_finite x Hx0 Hx) as (px & jx & Hpx & Hdx & Hjx & ->).
  destruct (Zfloat_finite y Hy0 Hy) as (py & jy & Hpy & Hdy & Hjy & ->).
  cbn [SFsub].
  rewrite !shl_align_fst by lia. rewrite !shl_add.
  set (K := Z.to_nat (- Z.min (- Z.of_nat jx) (- Z.of_nat jy))).
  replace (Z.min (- Z.of_nat jx) (- Z.of_nat jy)) with (- Z.of_nat K) by lia.
  replace (jx + Z.to_nat (- Z.of_nat jx - - Z.of_nat K))%nat with K by lia.
  replace (jy + Z.to_nat (- Z.of_nat jy - - Z.of_nat K))%nat with K by lia.
  apply binary_normalize_exact; [done|].
  rewrite <- (cond_Zopp_val x px Hpx) at 2.
  rewrite <- (cond_Zopp_val y py Hpy) at 2.
  unfold cond_Zopp. rewrite !shl_val. destruct (x <? 0), (y <? 0); lia.
Qed.

Lemma shl_mul p q j k : (shl p j * shl q k)%positive = shl (p * q) (j + k).
Proof.
  apply Pos2Z.inj. rewrite Pos2Z.inj_mul, !shl_val, Pos2Z.inj_mul.
  rewrite Nat2Z.inj_add, Z.pow_add_r by lia. lia.
Qed.

Lemma mul_exact x y :
  0 <= x -> 0 <= y -> x * y < 2 ^ 53 ->
  SFmul 53 1024 (Zfloat x) (Zfloat y) = Zfloat (x * y).
Proof.
  intros Hx Hy Hxy.
  destruct (decide (x = 0)) as [->|Hx0].
  { destruct y; done. }
  destruct (decide (y = 0)) as [->|Hy0].
  { rewrite Z.mul_0_r. destruct x; done. }
  destruct x as [|px|px]; [done| |lia].
  destruct y as [|py|py]; [done| |lia].
  assert (Hdx : digits px <= 53) by (apply digits_le; nia).
  assert (Hdy : digits py <= 53) by (apply digits_le; nia).
  cbn [Zfloat Z.mul]. unfold norm at 1 2. cbn [SFmul xorb].
  rewrite shl_mul.
  apply binary_round_aux_exact.
  - apply digits_le; [lia|]. by rewrite Pos2Z.inj_mul.
  - pose proof (digits_bounds px) as [Hlx _]. fold (digits px) in Hlx.
    pose proof (digits_bounds py) as [Hly _]. fold (digits py) in Hly.
    pose proof (digits_pos px). pose proof (digits_pos py).
    assert (digits px - 1 + (digits py - 1) + 1 <= digits (px * py)).
    { apply digits_ge; [lia|]. rewrite Z.pow_add_r, Pos2Z.inj_mul by lia. nia. }
    lia.
  - lia.
Qed.

Lemma shl_compare p q j : (shl p j ?= shl q j)%positive = (p ?= q)%positive.
Proof.
  induction j as [|j IH]; [done|]. rewrite !shl_S. exact IH.
Qed.

Lemma norm_compare p q :
  digits p <= 53 -> digits q <= 53 ->
  match digits p - 53 ?= digits q - 53 with
  | Lt => Lt
  | Gt => Gt
  | Eq => (shl p (Z.to_nat (53 - digits p)) ?= shl q (Z.to_nat (53 - digits q)))%positive
  end = (p ?= q)%positive.
Proof.
  intros Hp Hq.
  pose proof (digits_bounds p) as [Hlp Hhp]. fold (digits p) in Hlp, Hhp.
  pose proof (digits_bounds q) as [Hlq Hhq]. fold (digits q) in Hlq, Hhq.
  destruct (Z.compare_spec (digits p - 53) (digits q - 53)) as [He|He|He].
  - replace (digits q) with (digits p) by lia. apply shl_compare.
  - symmetry. apply Pos.compare_lt_iff.
    assert (2 ^ digits p <= 2 ^ (digits q - 1)) by (apply Z.pow_le_mono_r; lia).
    lia.
  - symmetry. apply Pos.compare_gt_iff.
    assert (2 ^ digits q <= 2 ^ (digits p - 1)) by (apply Z.pow_le_mono_r; lia).
    lia.
Qed.

Lemma compare_exact x y :
  Z.abs x < 2 ^ 53 -> Z.abs y < 2 ^ 53 ->
  SFcompare (Zfloat x) (Zfloat y) = Some (x ?= y).
Proof.
  intros Hx Hy.
  destruct x as [|p|p], y as [|q|q]; try done;
    assert (Hp : digits p <= 53) by (apply digits_le; lia);
    assert (Hq : digits q <= 53) by (apply digits_le; lia);
    cbn [Zfloat]; unfold norm; cbn [SFcompare];
    change (Pos.compare_cont Eq) with Pos.compare.
  - by rewrite norm_compare.
  - f_equal. cbn [Z.compare]. rewrite <- (norm_compare p q) by done.
    by destruct (digits p - 53 ?= digits q - 53).
Qed.

Lemma gt_exact x y :
  Z.abs x < 2 ^ 53 -> Z.abs y < 2 ^ 53 ->
  SFltb (Zfloat y) (Zfloat x) = (y <? x).
Proof.
  intros Hx Hy. unfold SFltb. rewrite compare_exact by done.
  unfold Z.ltb. by destruct (y ?= x).
Qed.

Lemma eqb_exact x y :
  Z.abs x < 2 ^ 53 -> Z.abs y < 2 ^ 53 ->
  SFeqb (Zfloat x) (Zfloat y) = (x =? y).
Proof.
  intros Hx Hy. unfold SFeqb. rewrite compare_exact by done.
  destruct (Z.eqb_spec x y) as [->|Hne].
  - by rewrite Z.compare_refl.
  - by destruct (Z.compare_spec x y).
Qed.

(** Nothing negative comes out of rounding a mantissa that is not
    negative: the result carries the sign it was given. *)
Lemma shr_1_nonneg (r : shr_record) : 0 <= shr_m r -> 0 <= shr_m (shr_1 r).
Proof. destruct r as [[|[m|m|]|m] r s]; simpl; lia. Qed.

Lemma shr_nonneg (r : shr_record) (e n : Z) :
  0 <= shr_m r -> 0 <= shr_m (fst (SpecFloat.shr r e n)).
Proof.
  intros Hr. unfold SpecFloat.shr. destruct n as [|n|n]; simpl; try done.
  rewrite iter_pos_nat. induction (Pos.to_nat n) as [|k IH]; simpl; [done|].
  by apply shr_1_nonneg.
Qed.

Lemma shr_fexp_nonneg (m e : Z) (l : location) :
  0 <= m -> 0 <= shr_m (fst (shr_fexp 53 1024 m e l)).
Proof.
  intros Hm. unfold shr_fexp. apply shr_nonneg.
  by destruct l as [|[]].
Qed.

Lemma binary_round_aux_sign (s : bool) (m e : Z) (l : location) :
  0 <= m ->
  match binary_round_aux 53 1024 s m e l with
  | S754_nan => False
  | S754_zero s' | S754_infinity s' | S754_finite s' _ _ => s' = s
  end.
Proof.
  intros Hm. unfold binary_round_aux.
  pose proof (shr_fexp_nonneg m e l Hm) as H1.
  destruct (shr_fexp 53 1024 m e l) as [mrs' e']. simpl in H1.
  assert (H2 : 0 <= round_nearest_even (shr_m mrs') (loc_of_shr_record mrs')).
  { unfold round_nearest_even.
    destruct (loc_of_shr_record mrs') as [|[]]; try lia.
    destruct (Z.even (shr_m mrs')); lia. }
  pose proof (shr_fexp_nonneg _ e' loc_Exact H2) as H3.
  destruct (shr_fexp 53 1024 _ e' loc_Exact) as [mrs'' e'']. simpl in H3.
  destruct (shr_m mrs'') as [|p|p]; [done| |lia].
  by destruct (e'' <=? 1024 - 53).
Qed.

(** The quotient of a non-negative by a positive integer-valued float is
    a number that is not negative; it is [+0] when the dividend is 0. *)
Lemma div_nonneg (x y : Z) :
  0 <= x < 2 ^ 53 -> 0 < y < 2 ^ 53 ->
  F64.is_nan (F64.div (Zfloat x) (Zfloat y)) = false
  ∧ F64.signbit (F64.div (Zfloat x) (Zfloat y)) = false
  ∧ (x = 0 -> F64.div (Zfloat x) (Zfloat y) = F64.zero).
Proof.
  intros Hx Hy. destruct y as [|q|q]; [lia| |lia].
  destruct x as [|p|p]; [done| |lia].
  split_and!; [| |done]; unfold F64.div, F64.prec, F64.emax, Zfloat, norm;
    cbn [SFdiv xorb].
  all: destruct (SFdiv_core_binary _ _ _ _ _ _) as [[mz ez] lz] eqn:Hcore.
  all: assert (Hmz : 0 <= mz).
  all: try (unfold SFdiv_core_binary in Hcore;
    match type of Hcore with
    | (let '(q, r) := Z.div_eucl ?m' ?d in _) = _ =>
        assert (Hm' : 0 <= m')
          by (destruct (_ - _ - _) eqn:?; [lia|apply Z.shiftl_nonneg; lia|lia]);
        pose proof (Z_div_mod m' d ltac:(lia)) as Hdiv;
        destruct (Z.div_eucl m' d) as [q' r'];
        injection Hcore as <- _ _; nia
    end).
  all: pose proof (binary_round_aux_sign false mz ez lz Hmz) as Hs.
  all: by destruct (binary_round_aux 53 1024 false mz ez lz).
Qed.

Lemma signbit_not_negative (x : F64.t) :
  F64.is_nan x = false -> F64.signbit x = false -> F64.gt F64.zero x = false.
Proof. by destruct x as [[]|[]| |[] m e]. Qed.

Lemma Max_exact (x y : Z) :
  Z.abs x < 2 ^ 53 -> Z.abs y < 2 ^ 53 ->
  F64.Max (Zfloat x) (Zfloat y) = Zfloat (Z.max x y).
Proof.
  intros Hx Hy. unfold F64.Max, F64.eqb, F64.gt, F64.zero.
  change (S754_zero false) with (Zfloat 0).
  rewrite !eqb_exact, gt_exact by (simpl; lia).
  assert (Hfin : ∀ z, F64.is_pinf (Zfloat z) = false
                      ∧ F64.is_nan (Zfloat z) = false).
  { by intros [|p|p]. }
  rewrite (proj1 (Hfin x)), (proj1 (Hfin y)), (proj2 (Hfin x)),
    (proj2 (Hfin y)). cbn [orb].
  destruct (Z.eqb_spec x 0) as [->|Hx0]; cbn [andb].
  - destruct (Z.eqb_spec 0 y) as [<-|Hy0]; [done|].
    destruct (Z.ltb_spec y 0); f_equal; lia.
  - destruct (Z.ltb_spec y x); f_equal; lia.
Qed.

Lemma Min_exact (x y : Z) :
  Z.abs x < 2 ^ 53 -> Z.abs y < 2 ^ 53 ->
  F64.Min (Zfloat x) (Zfloat y) = Zfloat (Z.min x y).
Proof.
  intros Hx Hy. unfold F64.Min, F64.eqb, F64.gt, F64.zero.
  change (S754_zero false) with (Zfloat 0).
  rewrite !eqb_exact, gt_exact by (simpl; lia).
  assert (Hfin : ∀ z, F64.is_ninf (Zfloat z) = false
                      ∧ F64.is_nan (Zfloat z) = false).
  { by intros [|p|p]. }
  rewrite (proj1 (Hfin x)), (proj1 (Hfin y)), (proj2 (Hfin x)),
    (proj2 (Hfin y)). cbn [orb].
  destruct (Z.eqb_spec x 0) as [->|Hx0]; cbn [andb].
  - destruct (Z.eqb_spec 0 y) as [<-|Hy0]; [done|].
    destruct (Z.ltb_spec 0 y); f_equal; lia.
  - destruct (Z.ltb_spec x y); f_equal; lia.
Qed.

(** ** bbIntersectionOverUnion *)

Lemma small_product (x y : Z) :
  0 <= x <= 2 ^ 24 + 1 -> 0 <= y <= 2 ^ 24 + 1 ->
  0 <= x * y <= 2 ^ 50.
Proof. intros Hx Hy. nia. Qed.

Lemma overlapTerm_bounds (a0 w b0 v : Z) :
  0 <= w -> 0 <= v ->
  0 <= overlapTerm a0 (a0 + w) b0 (b0 + v) <= w + 1
  ∧ overlapTerm a0 (a0 + w) b0 (b0 + v) <= v + 1.
Proof. unfold overlapTerm. lia. Qed.

Lemma pixel_counts (a b : detectedObject) :
  wellFormed a → wellFormed b →
  0 ≤ interPixels a b
  ∧ interPixels a b ≤ boxPixels a
  ∧ interPixels a b ≤ boxPixels b
  ∧ 1 ≤ boxPixels a ≤ 2 ^ 50
  ∧ 1 ≤ boxPixels b ≤ 2 ^ 50.
Proof.
  intros (Hwa & Hha & Hla & Hta) (Hwb & Hhb & Hlb & Htb).
  pose proof (overlapTerm_bounds (left a) (width a) (left b) (width b)
                ltac:(lia) ltac:(lia)) as [Hx Hx'].
  pose proof (overlapTerm_bounds (top a) (height a) (top b) (height b)
                ltac:(lia) ltac:(lia)) as [Hy Hy'].
  pose proof (small_product (width a + 1) (height a + 1) ltac:(lia) ltac:(lia))
    as Hpa.
  pose proof (small_product (width b + 1) (height b + 1) ltac:(lia) ltac:(lia))
    as Hpb.
  unfold interPixels, boxPixels in *. nia.
Qed.

(** On well-formed boxes the floating-point computation is the exact
    one: the quotient of the shared pixels by the pixels of the union,
    rounded once by the division. *)
Lemma bbIntersectionOverUnion_exact (a b : detectedObject) :
  wellFormed a -> wellFormed b ->
  bbIntersectionOverUnion a b
  = F64.div (Zfloat (interPixels a b))
            (Zfloat (boxPixels a + boxPixels b - interPixels a b)).
Proof.
  intros (Hwa & Hha & Hla & Hta) (Hwb & Hhb & Hlb & Htb).
  pose proof (overlapTerm_bounds (left a) (width a) (left b) (width b)
                ltac:(lia) ltac:(lia)) as [Hx Hx'].
  pose proof (overlapTerm_bounds (top a) (height a) (top b) (height b)
                ltac:(lia) ltac:(lia)) as [Hy Hy'].
  pose proof (small_product
                (overlapTerm (left a) (left a + width a) (left b) (left b + width b))
                (overlapTerm (top a) (top a + height a) (top b) (top b + height b))
                ltac:(lia) ltac:(lia)) as Hi.
  fold (interPixels a b) in Hi.
  pose proof (small_product (width a + 1) (height a + 1) ltac:(lia) ltac:(lia))
    as Ha.
  pose proof (small_product (width b + 1) (height b + 1) ltac:(lia) ltac:(lia))
    as Hb.
  unfold bbIntersectionOverUnion, int_add, int_sub.
  rewrite (wrap64_small (left a + width a)), (wrap64_small (top a + height a)),
    (wrap64_small (left b + width b)), (wrap64_small (top b + height b)) by lia.
  rewrite (wrap64_small (left a + width a - left a)),
    (wrap64_small (top a + height a - top a)),
    (wrap64_small (left b + width b - left b)),
    (wrap64_small (top b + height b - top b)) by lia.
  rewrite !wrap64_small by lia.
  unfold F64.of_int, F64.add, F64.sub, F64.mul, F64.prec, F64.emax, F64.zero.
  rewrite !of_int_Zfloat by lia.
  change (S754_zero false) with (Zfloat 0).
  rewrite !Max_exact, !Min_exact by lia.
  rewrite !sub_exact by lia.
  rewrite !add_exact by lia.
  rewrite !Max_exact by lia.
  fold (overlapTerm (left a) (left a + width a) (left b) (left b + width b)).
  fold (overlapTerm (top a) (top a + height a) (top b) (top b + height b)).
  replace (left a + width a - left a + 1) with (width a + 1) by lia.
  replace (top a + height a - top a + 1) with (height a + 1) by lia.
  replace (left b + width b - left b + 1) with (width b + 1) by lia.
  replace (top b + height b - top b + 1) with (height b + 1) by lia.
  unfold interPixels in Hi.
  rewrite !mul_exact by lia.
  fold (interPixels a b) in *. fold (boxPixels a) (boxPixels b) in *.
  rewrite add_exact, sub_exact by lia.
  done.
Qed.

(** C5 (as amended).  For boxes with sides that are not negative and
    coordinates of magnitude at most 2^24: the clamped overlap terms give
    a shared pixel count that is not negative and not above the pixel
    count of either box; the union count the code divides by is at least
    1, so there is no division by zero; the result is the binary64
    quotient of the two counts, it is a number, it is never negative, and
    it is exactly 0 when the boxes share no pixel.  A box of width 0 and
    height 0 counts as one pixel, and its ratio with itself is 1. *)
Theorem bbIntersectionOverUnion_well_formed (a b : detectedObject) :
  wellFormed a → wellFormed b →
  0 ≤ interPixels a b
  ∧ interPixels a b ≤ boxPixels a
  ∧ interPixels a b ≤ boxPixels b
  ∧ 1 ≤ boxPixels a + boxPixels b - interPixels a b
  ∧ bbIntersectionOverUnion a b
    = F64.div (F64.of_int (interPixels a b))
              (F64.of_int (boxPixels a + boxPixels b - interPixels a b))
  ∧ F64.is_nan (bbIntersectionOverUnion a b) = false
  ∧ F64.gt F64.zero (bbIntersectionOverUnion a b) = false
  ∧ (interPixels a b = 0 → bbIntersectionOverUnion a b = F64.zero)
  ∧ (width a = 0 → height a = 0 →
     bbIntersectionOverUnion a a = F64.of_int 1).
Proof.
  intros Ha Hb.
  pose proof (bbIntersectionOverUnion_exact a b Ha Hb) as Hab.
  pose proof (bbIntersectionOverUnion_exact a a Ha Ha) as Haa.
  destruct (pixel_counts a b Ha Hb) as (Hi0 & Hia & Hib & Hpa & Hpb).
  destruct (div_nonneg (interPixels a b)
              (boxPixels a + boxPixels b - interPixels a b))
    as (Hnan & Hsign & Hzero); [lia..|].
  destruct Ha as (Hwa & Hha & Hla & Hta).
  split_and!; try lia.
  - rewrite Hab. unfold F64.of_int, F64.prec, F64.emax.
    by rewrite !of_int_Zfloat by lia.
  - by rewrite Hab.
  - rewrite Hab. by apply signbit_not_negative.
  - intros H0. rewrite Hab. by apply Hzero.
  - intros Hw Hh. rewrite Haa.
    unfold interPixels, boxPixels, overlapTerm. rewrite Hw, Hh.
    replace (Z.max 0 (Z.min (left a + 0) (left a + 0)
                      - Z.max (left a) (left a) + 1)) with 1 by lia.
    replace (Z.max 0 (Z.min (top a + 0) (top a + 0)
                      - Z.max (top a) (top a) + 1)) with 1 by lia.
    reflexivity.
Qed.

Lemma bbIntersectionOverUnion_well_formed_witness :
  F64.is_nan (bbIntersectionOverUnion (box F32.zero 0 0 99 99)
                                      (box F32.zero 20 0 99 99)) = false
  ∧ F64.gt F64.zero (bbIntersectionOverUnion (box F32.zero 0 0 99 99)
                                             (box F32.zero 20 0 99 99)) = false
  ∧ bbIntersectionOverUnion (box F32.zero 0 0 99 99) (box F32.zero 20 0 99 99)
    = F64.div (F64.of_int 8000) (F64.of_int 12000).
Proof.
  destruct (bbIntersectionOverUnion_well_formed
              (box F32.zero 0 0 99 99) (box F32.zero 20 0 99 99))
    as (_ & _ & _ & _ & Heq & Hnan & Hneg & _).
  - unfold wellFormed. simpl. lia.
  - unfold wellFormed. simpl. lia.
  - split_and!; [exact Hnan|exact Hneg|exact Heq].
Defined.

(** C5, as stated, fails.  Two equal boxes of width 0 and height 0 have
    the ratio 1, not 0 (a box always holds the pixel of its corner).  Two
    boxes of width -1 and height -1 hold no pixel and the code divides 0
    by 0: the result is NaN.  At the far end of the integers the sums
    wrap around and the result is negative: -1. *)
Lemma bbIntersectionOverUnion_degenerate_boxes :
  bbIntersectionOverUnion (box F32.zero 0 0 0 0) (box F32.zero 0 0 0 0)
    = F64.of_int 1
  ∧ bbIntersectionOverUnion (box F32.zero 0 0 (-1) (-1))
                            (box F32.zero 5 5 (-1) (-1))
    = S754_nan
  ∧ bbIntersectionOverUnion (box F32.zero (- 2 ^ 63) (- 2 ^ 63) (-1) (-1))
                            (box F32.zero (- 2 ^ 63) (- 2 ^ 63) (-1) (-1))
    = F64.of_int (-1)
  ∧ F64.gt F64.zero (F64.of_int (-1)) = true.
Proof. by vm_compute. Qed.

(** ** The capture loop *)

Lemma countEvents_app kind (tr1 tr2 : list event) :
  countEvents kind (tr1 ++ tr2)
  = (countEvents kind tr1 + countEvents kind tr2)%nat.
Proof. unfold countEvents. by rewrite List.filter_app, length_app. Qed.

Lemma detections_in_app (tr1 tr2 : list event) :
  detections_in (tr1 ++ tr2) = detections_in tr1 ++ detections_in tr2.
Proof. unfold detections_in. apply omap_app. Qed.

Lemma detections_in_elem (tr : list event) f objs :
  Detected f objs ∈ tr ↔ (f, objs) ∈ detections_in tr.
Proof.
  unfold detections_in. rewrite list_elem_of_omap. split.
  - intros Hin. by exists (Detected f objs).
  - intros (e & He & Hd). by destruct e; simplify_eq/=.
Qed.

(** An event is not in a trace that is written out. *)
Ltac not_in_trace :=
  let H := fresh in
  cbn; intros H;
  repeat first
    [ apply elem_of_app in H as [H|H]
    | apply elem_of_cons in H as [H|H]
    | apply elem_of_nil in H; destruct H ];
  discriminate H.

Section Loop.
Variable confidenceTreshold : F32.t.
Variable classes : list string.
Variable prod : bool.
Variable infer : Frame → list Output.
Variable Rectangle : Frame → Z * Z * Z * Z → Frame.
Variable PutText : Frame → string → Z * Z → Frame.
Variable loc : Location.
Variable stamp : Z → Z.

Abbreviation handle :=
  (handleFrame confidenceTreshold classes prod infer Rectangle PutText loc
               stamp).
Abbreviation body :=
  (loopBody confidenceTreshold classes prod infer Rectangle PutText loc stamp).
Abbreviation loop :=
  (captureLoop confidenceTreshold classes prod infer Rectangle PutText loc
               stamp).
Abbreviation detect img :=
  (performDetection confidenceTreshold classes img (infer img)).
Abbreviation painted :=
  (paintedBy confidenceTreshold classes prod infer Rectangle PutText).
Abbreviation cached :=
  (cachedAfter confidenceTreshold classes prod infer Rectangle PutText).

(** What one turn on a frame already in hand can do. *)
Lemma handleFrame_cases deviceID img it db store :
  match handle deviceID img it db store with
  | (evs, st) =>
      countEvents isFrameRead evs = 0%nat
      ∧ detections_in evs
        = match detect img with Some objs => [(img, objs)] | None => [] end
      ∧ match st with
        | Next img' _ _ => detect img ≠ None ∧ img' = painted img
        | Stop Returned _ _ => prod = false ∧ 0 ≤ it_key it
        | Stop Running _ _ => False
        | Stop Exited _ _ =>
            prod = true ∧ ∃ objs, detect img = Some objs ∧ objs ≠ []
        | Stop Panicked _ _ => detect img = None
        end
  end.
Proof.
  unfold handleFrame, paintedBy.
  destruct (detect img) as [objs|] eqn:Hdet; [|done].
  assert (Hnonempty : length objs ≠ 0%nat → objs ≠ []) by by intros H ->.
  destruct prod.
  - destruct (decide (length objs = 0%nat)) as [H0|H0]; [done|].
    destruct (it_classId it); [|split_and!; eauto].
    destruct (insertDetections store objs _ _ _) as [store' [ev|]];
      [|split_and!; eauto].
    destruct (0 <? ev); [|done].
    destruct (notifyObservers loc stamp db deviceID ev (it_now it))
      as [[db' sent]|]; [done|split_and!; eauto].
  - by destruct (Z.leb_spec 0 (it_key it)).
Qed.

Lemma loopBody_image deviceID img it db store :
  body IMAGE deviceID img it db store = handle deviceID img it db store.
Proof. done. Qed.

Lemma cachedAfter_S k img : cached (S k) img = cached k (painted img).
Proof. unfold cachedAfter. apply Nat.iter_succ_r. Qed.

Lemma cachedAfter_fixed k img : painted img = img → cached k img = img.
Proof.
  intros Hfix. unfold cachedAfter.
  induction k as [|k IH]; [done|]. by rewrite Nat.iter_succ, IH.
Qed.

Lemma cached_frames k img :
  img :: map (λ i, cached i (painted img)) (seq 0 k)
  = map (λ i, cached i img) (seq 0 (S k)).
Proof.
  cbn [seq map]. f_equal. rewrite <- seq_shift, map_map.
  apply map_ext. intros i. by rewrite cachedAfter_S.
Qed.

(** The loop of an image source, started with [past] already in the
    trace. *)
Lemma captureLoop_image deviceID its :
  ∀ img db store past,
    let r := loop IMAGE deviceID img its db store past in
    countEvents isFrameRead (trace r) = countEvents isFrameRead past
    ∧ (∃ k, (k ≤ length its)%nat
            ∧ (final r = Running → k = length its)
            ∧ map fst (detections_in (trace r))
              = map fst (detections_in past)
                ++ map (λ i, cached i img) (seq 0 k))
    ∧ (∀ f objs, Detected f objs ∈ trace r →
         Detected f objs ∈ past ∨ detect f = Some objs)
    ∧ (final r = Returned → prod = false ∧ ∃ it, it ∈ its ∧ 0 ≤ it_key it)
    ∧ (prod = true → detect img = Some [] → final r = Running)
    ∧ (prod = false → Forall (λ it, it_key it < 0) its →
         (∀ k, (k < length its)%nat → detect (cached k img) ≠ None) →
         final r = Running).
Proof.
  induction its as [|it its IH]; intros img db store past;
    cbn [captureLoop].
  - cbn [trace final]. split_and!; try done.
    + exists 0%nat. cbn [seq map]. by rewrite app_nil_r.
    + by left.
  - rewrite loopBody_image.
    pose proof (handleFrame_cases deviceID img it db store) as Hit.
    destruct (handle deviceID img it db store)
      as [evs [img' db' store'|s db' store']].
    + destruct Hit as (Hread & Hdet & Hsome & ->).
      destruct (detect img) as [objs|] eqn:Hobjs; [|done].
      specialize (IH (painted img) db' store' (past ++ evs)).
      cbn zeta in IH.
      destruct IH as (IHread & (k & Hk & Hrun & Hframes) & IHdet & IHret
                      & IHprod & IHkey).
      split_and!.
      * by rewrite IHread, countEvents_app, Hread, Nat.add_0_r.
      * exists (S k). split_and!; [cbn [length]; lia| |].
        -- intros Hr. cbn [length]. by rewrite (Hrun Hr).
        -- rewrite Hframes, detections_in_app, Hdet, map_app.
           rewrite <- app_assoc. f_equal. cbn [map fst app].
           apply cached_frames.
      * intros f objs' [Hin|Hin]%IHdet; [|by right].
        apply elem_of_app in Hin as [Hin|Hin]; [by left|right].
        apply detections_in_elem in Hin. rewrite Hdet in Hin.
        apply list_elem_of_singleton in Hin. by injection Hin as -> ->.
      * intros Hret. destruct (IHret Hret) as (Hprod & it' & Hit' & Hkey).
        split; [done|]. exists it'. split; [by right|done].
      * intros Hprod Hnone. apply IHprod; [done|].
        unfold paintedBy. rewrite Hprod. by rewrite Hobjs.
      * intros Hprod [Hk' Hks]%Forall_cons Hall. apply IHkey; [done..|].
        intros i Hi. rewrite <- cachedAfter_S. apply Hall.
        cbn [length]. lia.
    + cbn [trace final]. destruct Hit as (Hread & Hdet & Hst).
      split_and!.
      * by rewrite countEvents_app, Hread, Nat.add_0_r.
      * destruct (detect img) as [objs|] eqn:Hobjs.
        -- exists 1%nat. split_and!; [cbn [length]; lia| |].
           ++ intros ->. by destruct Hst.
           ++ by rewrite detections_in_app, Hdet, map_app.
        -- exists 0%nat. split_and!; [lia| |].
           ++ intros ->. by destruct Hst.
           ++ by rewrite detections_in_app, Hdet, map_app.
      * intros f objs' [Hin|Hin]%elem_of_app; [by left|right].
        apply detections_in_elem in Hin. rewrite Hdet in Hin.
        destruct (detect img) as [objs|] eqn:Hobjs;
          [|by apply elem_of_nil in Hin].
        apply list_elem_of_singleton in Hin. by injection Hin as -> ->.
      * intros ->. destruct Hst as (Hprod & Hkey).
        split; [done|]. exists it. split; [by left|done].
      * intros Hprod Hnone. destruct s; try done.
        -- destruct Hst as (Hp & _). congruence.
        -- destruct Hst as (_ & objs & Hobjs & Hne). congruence.
        -- congruence.
      * intros Hprod [Hk Hks]%Forall_cons Hall. destruct s; try done.
        -- destruct Hst as (_ & Hkey). lia.
        -- destruct Hst as (Hp & _). congruence.
        -- exfalso. apply (Hall 0%nat); [cbn [length]; lia|done].
Qed.



End Loop.

(** C6 (as amended).  For an image source that was read and whose model
    was loaded, whatever the number of turns the environment grants the
    loop: no frame is read inside the loop; the detections run, one per
    turn, on the Mat read before the loop as the turns before left it
    ([cachedAfter k] for the turn after [k] turns) and each is the result
    of [performDetection] on that Mat; in production mode, and as long as
    nothing is detected, that Mat is the image as read, so the result is
    the same each time, while in interactive mode the boxes and labels
    drawn for a detection stay in it; the task returns only in the
    interactive mode, after a turn whose key code was not negative; as
    long as it is still running it has run one detection per turn.  In
    production mode it never returns (with nothing detected it runs on
    forever), and in interactive mode it runs on as long as no key is
    pressed. *)
Theorem image_source_loop
    (confidenceTreshold : F32.t) (classes : list string) (prod : bool)
    (infer : Frame → list Output)
    (Rectangle : Frame → Z * Z * Z * Z → Frame)
    (PutText : Frame → string → Z * Z → Frame)
    (loc : Location) (stamp : Z → Z) (deviceID : string) (o : opening)
    (its : list iteration) (db : Database) (store : Detections) :
  frame_empty (open_image o) = false →
  open_net o = true →
  let r := detectFromCapture confidenceTreshold classes prod infer
             Rectangle PutText loc stamp IMAGE deviceID o its db store in
  let detect f := performDetection confidenceTreshold classes f (infer f) in
  let cached k :=
    cachedAfter confidenceTreshold classes prod infer Rectangle PutText k
                (open_image o) in
  countEvents isFrameRead (trace r) = 0%nat
  ∧ (∃ k, (k ≤ length its)%nat
          ∧ (final r = Running → k = length its)
          ∧ map fst (detections_in (trace r)) = map cached (seq 0 k))
  ∧ (∀ f objs, Detected f objs ∈ trace r → detect f = Some objs)
  ∧ (prod = true → ∀ k, cached k = open_image o)
  ∧ (detect (open_image o) = Some [] → ∀ k, cached k = open_image o)
  ∧ (final r = Returned → prod = false ∧ ∃ it, it ∈ its ∧ 0 ≤ it_key it)
  ∧ (prod = true → final r ≠ Returned)
  ∧ (prod = true → detect (open_image o) = Some [] → final r = Running)
  ∧ (prod = false → Forall (λ it, it_key it < 0) its →
       (∀ k, (k < length its)%nat → detect (cached k) ≠ None) →
       final r = Running).
Proof.
  intros Himg Hnet r detect cached. subst r detect cached.
  unfold detectFromCapture. cbn [Z.eqb IMAGE]. rewrite Himg, Hnet.
  cbn [app].
  destruct (captureLoop_image confidenceTreshold classes prod infer
              Rectangle PutText loc stamp deviceID its
              (open_image o) db store [Printed StartReading])
    as (Hread & Hframes & Hdet & Hret & Hprod & Hkey).
  split_and!; try done.
  - intros f objs [Hin|Hin]%Hdet; [|done].
    apply list_elem_of_singleton in Hin. discriminate Hin.
  - intros Hp k. apply cachedAfter_fixed. unfold paintedBy. by rewrite Hp.
  - intros Hnone k. apply cachedAfter_fixed. unfold paintedBy.
    rewrite Hnone. by destruct prod.
  - intros Hp Hr. destruct (Hret Hr) as [Hp' _]. congruence.
Qed.

(** In interactive mode, with a network that finds the sample object in
    the picture as read and nothing once a box is painted into it, and no
    key pressed: two turns on, the task is still running. *)
Lemma image_source_loop_witness :
  final (detectFromCapture (F32.lit 75 100) ["osprey"; "gull"] false
           (sampleInfer sampleOutput) markRectangle markText
           helsinki2023 microseconds IMAGE "nest.jpg"
           {| open_image := picture; open_video := false;
              open_dial := DialHangs; open_tie := false; open_net := true |}
           [quiet; quiet] (oneSubscription "15m" []) noDetections) = Running.
Proof.
  refine (proj2 (proj2 (proj2 (proj2 (proj2 (proj2 (proj2 (proj2
    (image_source_loop (F32.lit 75 100) ["osprey"; "gull"] false
       (sampleInfer sampleOutput) markRectangle markText
       helsinki2023 microseconds "nest.jpg"
       {| open_image := picture; open_video := false;
          open_dial := DialHangs; open_tie := false; open_net := true |}
       [quiet; quiet] (oneSubscription "15m" []) noDetections
       _ _)))))))) _ _ _).
  - reflexivity.
  - reflexivity.
  - reflexivity.
  - repeat constructor.
  - intros [|[|k]] Hk; [vm_compute; discriminate..|cbn [length] in Hk; lia].
Defined.

(** C6, as stated, fails: the loop has no exit for an image.  In
    production mode, with a model that finds nothing in the picture,
    three turns run three detections on the same picture and the task is
    still in its loop.  In interactive mode, with no key pressed, the
    same happens, and the detections need not agree: the first turn finds
    an object in the picture and paints its box and label into the Mat,
    the second and third run on the painted Mat (and here find
    nothing). *)
Lemma image_source_keeps_looping :
  detectFromCapture (F32.lit 75 100) ["osprey"; "gull"] true (λ _, [])
    markRectangle markText helsinki2023 microseconds
    IMAGE "nest.jpg"
    {| open_image := picture; open_video := false;
       open_dial := DialHangs; open_tie := false; open_net := true |}
    [quiet; quiet; quiet] (oneSubscription "15m" []) noDetections
  = {| trace := [Printed StartReading; Detected picture [];
                 Detected picture []; Detected picture []];
       final := Running;
       catalog := oneSubscription "15m" [];
       stored := noDetections |}
  ∧ detectFromCapture (F32.lit 75 100) ["osprey"; "gull"] false
      (sampleInfer sampleOutput) markRectangle markText
      helsinki2023 microseconds IMAGE "nest.jpg"
      {| open_image := picture; open_video := false;
         open_dial := DialHangs; open_tie := false; open_net := true |}
      [quiet; quiet; quiet] (oneSubscription "15m" []) noDetections
    = {| trace := [Printed StartReading;
                   Detected picture [sampleObject];
                   Shown paintedPicture [sampleObject];
                   Detected paintedPicture []; Shown paintedPicture [];
                   Detected paintedPicture []; Shown paintedPicture []];
         final := Running;
         catalog := oneSubscription "15m" [];
         stored := noDetections |}.
Proof. split; vm_compute; reflexivity. Qed.




(** ** Opening a stream *)

(** C9: the code against the claim.  When the connection attempt fails
    (at any time [t]), the goroutine prints the error and calls
    [wg.Done()] but sends nothing on the channel: the caller's [select]
    stays blocked until the 5 s context fires, then calls [wg.Done()] a
    second time and reports a timeout.  The failure is seen by the caller
    as a timeout, both outcomes are signalled, and the caller waits the
    whole bound.  (An attempt that never returns gives the timeout alone,
    an attempt that succeeds before the bound gives the connection, and
    in no case does the caller wait longer than the bound.) *)
Theorem refused_connection_times_out (t : Z) (tie : bool) :
  let c := connectStream (DialError t) tie in
  conn_connected c = false
  ∧ conn_elapsed c = timeoutMs
  ∧ Printed ErrorOpeningStream ∈ map snd (conn_events c)
  ∧ Printed ConnectionTimeouted ∈ map snd (conn_events c)
  ∧ countEvents isWgDone (map snd (conn_events c)) = 2%nat
  ∧ conn_events (connectStream (DialError 100) tie)
    = [(100, Printed ErrorOpeningStream); (100, WgDone);
       (timeoutMs, WgDone); (timeoutMs, Printed ConnectionTimeouted)]
  ∧ conn_events (connectStream DialHangs tie)
    = [(timeoutMs, WgDone); (timeoutMs, Printed ConnectionTimeouted)]
  ∧ conn_events (connectStream (DialOk 100) tie)
    = [(100, Printed ConnectionSuccesful)]
  ∧ ∀ d, conn_elapsed (connectStream d tie) ≤ timeoutMs.
Proof.
  cbn zeta. unfold connectStream. cbn [conn_connected conn_elapsed conn_events].
  split_and!; try done.
  - destruct (t <=? timeoutMs); apply list_elem_of_In; cbn; tauto.
  - destruct (t <=? timeoutMs); apply list_elem_of_In; cbn; tauto.
  - by destruct (t <=? timeoutMs).
  - intros [t'| |]; cbn; try done.
    destruct (Z.ltb_spec t' timeoutMs); cbn; [lia|].
    destruct (Z.eqb_spec t' timeoutMs), tie; cbn; lia.
Qed.

(** ** More about the overlap ratio *)

Lemma div_self (n : Z) :
  0 < n < 2 ^ 53 -> F64.div (Zfloat n) (Zfloat n) = Zfloat 1.
Proof.
  intros Hn. destruct n as [|p|p]; [lia| |lia].
  assert (Hd : digits p <= 53) by (apply digits_le; lia).
  unfold F64.div, F64.prec, F64.emax, Zfloat at 1 2, norm. cbn [SFdiv xorb].
  set (m := shl p (Z.to_nat (53 - digits p))).
  set (e := digits p - 53).
  assert (Hdm : Zdigits2 (Z.pos m) = 53).
  { unfold m. cbn [Zdigits2]. rewrite digits_shl. fold (digits p). lia. }
  unfold SFdiv_core_binary. rewrite Hdm.
  replace (Z.min (fexp 53 1024 (53 + e - (53 + e))) (e - e)) with (-53)
    by (unfold fexp, emin; lia).
  replace (e - e - -53) with 53 by lia.
  assert (Hdiv : Z.div_eucl (Z.shiftl (Z.pos m) 53) (Z.pos m) = (2 ^ 53, 0)).
  { rewrite Z.shiftl_mul_pow2 by lia.
    pose proof (Z_div_mod (Z.pos m * 2 ^ 53) (Z.pos m) ltac:(lia)) as Hdm'.
    destruct (Z.div_eucl (Z.pos m * 2 ^ 53) (Z.pos m)) as [q r].
    destruct Hdm' as [Heq Hr].
    assert (q = 2 ^ 53) by nia. subst q.
    f_equal. lia. }
  rewrite Hdiv.
  replace (new_location (Z.pos m) 0) with loc_Exact
    by (unfold new_location; by destruct (Z.even (Z.pos m))).
  change (2 ^ 53) with (Z.pos (shl 1 53)).
  by rewrite (binary_round_aux_exact false 1 53 (-53)).
Qed.

Lemma overlapTerm_comm (a0 a1 b0 b1 : Z) :
  overlapTerm a0 a1 b0 b1 = overlapTerm b0 b1 a0 a1.
Proof. unfold overlapTerm. lia. Qed.

(** X1.  On well-formed boxes the overlap ratio does not depend on the
    order of the two boxes. *)
Theorem bbIntersectionOverUnion_symmetric (a b : detectedObject) :
  wellFormed a → wellFormed b →
  bbIntersectionOverUnion a b = bbIntersectionOverUnion b a.
Proof.
  intros Ha Hb. rewrite !bbIntersectionOverUnion_exact by done.
  assert (Hi : interPixels a b = interPixels b a).
  { unfold interPixels.
    by rewrite (overlapTerm_comm (left a)), (overlapTerm_comm (top a)). }
  rewrite Hi. do 2 f_equal. lia.
Qed.

Lemma bbIntersectionOverUnion_symmetric_witness :
  bbIntersectionOverUnion (box F32.zero 0 0 99 99) (box F32.zero 20 5 49 99)
  = bbIntersectionOverUnion (box F32.zero 20 5 49 99) (box F32.zero 0 0 99 99).
Proof.
  apply (bbIntersectionOverUnion_symmetric
           (box F32.zero 0 0 99 99) (box F32.zero 20 5 49 99));
    unfold wellFormed; simpl; lia.
Defined.

(** X2.  The overlap ratio of a well-formed box with itself is exactly
    1.0, also for a box of width 0 and height 0. *)
Theorem bbIntersectionOverUnion_self (a : detectedObject) :
  wellFormed a → bbIntersectionOverUnion a a = F64.of_int 1.
Proof.
  intros Ha. rewrite bbIntersectionOverUnion_exact by done.
  destruct Ha as (Hw & Hh & Hl & Ht).
  assert (Hi : interPixels a a = boxPixels a).
  { unfold interPixels, boxPixels, overlapTerm. f_equal; lia. }
  pose proof (small_product (width a + 1) (height a + 1) ltac:(lia) ltac:(lia))
    as Hp.
  fold (boxPixels a) in Hp.
  assert (1 ≤ boxPixels a) by (unfold boxPixels in *; nia).
  rewrite Hi. replace (boxPixels a + boxPixels a - boxPixels a)
    with (boxPixels a) by lia.
  rewrite div_self by lia. reflexivity.
Qed.

Lemma bbIntersectionOverUnion_self_witness :
  bbIntersectionOverUnion (box F32.zero 7 3 640 480) (box F32.zero 7 3 640 480)
  = F64.of_int 1.
Proof.
  apply (bbIntersectionOverUnion_self (box F32.zero 7 3 640 480)).
  unfold wellFormed. simpl. lia.
Defined.

(** X3.  Two well-formed boxes that share no column or no row of pixels
    have the ratio exactly 0. *)
Theorem bbIntersectionOverUnion_disjoint (a b : detectedObject) :
  wellFormed a → wellFormed b →
  left a + width a < left b ∨ left b + width b < left a
  ∨ top a + height a < top b ∨ top b + height b < top a →
  bbIntersectionOverUnion a b = F64.zero.
Proof.
  intros Ha Hb Hsep.
  rewrite bbIntersectionOverUnion_exact by done.
  destruct (pixel_counts a b Ha Hb) as (_ & _ & _ & Hpa & Hpb).
  assert (H0 : interPixels a b = 0); [|rewrite H0; apply div_nonneg; lia].
  unfold interPixels, overlapTerm.
  destruct Hsep as [H|[H|[H|H]]].
  - replace (Z.max 0 (Z.min (left a + width a) (left b + width b)
                      - Z.max (left a) (left b) + 1)) with 0 by lia. lia.
  - replace (Z.max 0 (Z.min (left a + width a) (left b + width b)
                      - Z.max (left a) (left b) + 1)) with 0 by lia. lia.
  - replace (Z.max 0 (Z.min (top a + height a) (top b + height b)
                      - Z.max (top a) (top b) + 1)) with 0 by lia. lia.
  - replace (Z.max 0 (Z.min (top a + height a) (top b + height b)
                      - Z.max (top a) (top b) + 1)) with 0 by lia. lia.
Qed.

Lemma bbIntersectionOverUnion_disjoint_witness :
  bbIntersectionOverUnion (box F32.zero 0 0 99 99) (box F32.zero 100 0 99 99)
  = F64.zero.
Proof.
  apply (bbIntersectionOverUnion_disjoint
           (box F32.zero 0 0 99 99) (box F32.zero 100 0 99 99)).
  - unfold wellFormed. simpl. lia.
  - unfold wellFormed. simpl. lia.
  - left. simpl. lia.
Defined.

(** ** More about the alert throttle *)

Lemma lastCapture_other (db : Database) (others : list alertRow) (sid : Z) :
  Forall (λ a, alert_subscription_id a ≠ sid) others →
  lastCapture
    {| observer := observer db; stream := stream db;
       subscription := subscription db; alert := alert db ++ others |} sid
  = lastCapture db sid.
Proof.
  intros Hothers. unfold lastCapture. cbn [alert].
  rewrite filter_app.
  replace (filter (λ a, alert_subscription_id a = sid) others) with
    (@nil alertRow); [by rewrite app_nil_r|].
  symmetry. induction Hothers as [|a others Ha _ IH]; [done|].
  by rewrite filter_cons_False.
Qed.

(** X5.  The decision for an observer reads the alert table only through the
    alerts of the subscription selected for that observer: alerts
    recorded under other subscriptions (other observers' among them) do
    not change it. *)
Theorem hasBeenAlerted_other_alerts
    (loc : Location) (stamp : Z → Z)
    (db : Database) (others : list alertRow) (email : string)
    (event now subscriptionId : Z) (alertInterval : string) :
  subscriptionOf db email = Some (subscriptionId, alertInterval) →
  Forall (λ a, alert_subscription_id a ≠ subscriptionId) others →
  let db' := {| observer := observer db; stream := stream db;
                subscription := subscription db;
                alert := alert db ++ others |} in
  match hasBeenAlerted loc stamp db email event now,
        hasBeenAlerted loc stamp db' email event now with
  | Ok (_, alerted), Ok (_, alerted') => alerted = alerted'
  | _, _ => False
  end.
Proof.
  intros Hsub Hothers db'. unfold hasBeenAlerted.
  assert (Hsub' : subscriptionOf db' email = Some (subscriptionId, alertInterval))
    by done.
  rewrite Hsub, Hsub'. unfold db'. rewrite lastCapture_other by done.
  destruct (Sscanf_d_s alertInterval) as [n u].
  destruct (lastCapture db subscriptionId) as [last|]; [|done].
  by destruct (withinInterval loc u n (ParseInLocation loc last) now).
Qed.

Lemma hasBeenAlerted_other_alerts_witness :
  match hasBeenAlerted helsinki2023 microseconds (twoSubscriptions false [])
                       "test@mail" 7 noon,
        hasBeenAlerted helsinki2023 microseconds
          (twoSubscriptions false
             [alertAt 3 2 (wallClock helsinki2023 (noon - Minute))])
          "test@mail" 7 noon with
  | Ok (_, alerted), Ok (_, alerted') => alerted = alerted'
  | _, _ => False
  end.
Proof.
  apply (hasBeenAlerted_other_alerts helsinki2023 microseconds
           (twoSubscriptions false [])
           [alertAt 3 2 (wallClock helsinki2023 (noon - Minute))]
           "test@mail" 7 noon 1 "15m").
  - reflexivity.
  - repeat constructor. discriminate.
Defined.

(** ** More about the launch loop *)

Lemma launchLoop_counts (deviceIdList : list string) :
  ∀ i st,
    wg_counter (launchLoop i deviceIdList st)
    = wg_counter st + Z.of_nat (length deviceIdList)
    ∧ (length (launched (launchLoop i deviceIdList st))
       + length (unrecognized (launchLoop i deviceIdList st)))%nat
      = (length (launched st) + length (unrecognized st)
         + length deviceIdList)%nat.
Proof.
  induction deviceIdList as [|d ds IH]; intros i st; cbn [launchLoop length].
  - lia.
  - destruct (getDeviceType d <? 0);
      match goal with |- context [launchLoop ?j ds ?s] =>
        destruct (IH j s) as [-> ->] end;
      cbn [wg_counter launched unrecognized]; rewrite length_app;
      cbn [length]; lia.
Qed.

(** X6.  [main] adds one to the wait group for every listed address, also for
    the unrecognized ones, for which no pipeline is started. *)
Theorem mainLaunches_counts (deviceIdList : list string) :
  wg_counter (mainLaunches deviceIdList) = Z.of_nat (length deviceIdList)
  ∧ (length (launched (mainLaunches deviceIdList))
     + length (unrecognized (mainLaunches deviceIdList)))%nat
    = length deviceIdList.
Proof.
  unfold mainLaunches.
  destruct (launchLoop_counts deviceIdList 0
              {| wg_counter := 0; launched := []; unrecognized := [] |})
    as [-> ->].
  cbn [wg_counter launched unrecognized length]. lia.
Qed.

(** ** More about the fusion pass *)

Lemma fuseCandidate_entries (acc : list detectedObject) (cur obj : detectedObject) :
  obj ∈ fuseCandidate acc cur → obj ∈ acc ∨ obj = cur.
Proof.
  rewrite fuseCandidate_spec. destruct (existsb (overlaps cur) acc).
  - intros Hin. apply list_elem_of_In, in_map_iff in Hin as (o & <- & Ho).
    unfold replaced. destruct (overlaps cur o && _); [by right|left].
    by apply list_elem_of_In.
  - intros [Hin|Hin]%elem_of_app; [by left|right].
    by apply list_elem_of_singleton in Hin.
Qed.

Lemma fuseCandidate_length (acc : list detectedObject) (cur : detectedObject) :
  (length (fuseCandidate acc cur) ≤ S (length acc))%nat.
Proof.
  rewrite fuseCandidate_spec. destruct (existsb (overlaps cur) acc).
  - rewrite length_map. lia.
  - rewrite length_app. cbn [length]. lia.
Qed.

(** X7.  The fusion pass invents nothing: every object it returns is one of
    the candidates, and it returns at most as many objects as there are
    candidates. *)
Theorem fuse_entries (cands : list detectedObject) :
  (∀ obj, obj ∈ fuse cands → obj ∈ cands)
  ∧ (length (fuse cands) ≤ length cands)%nat.
Proof.
  induction cands as [|c cands [IHin IHlen]] using rev_ind; [done|].
  rewrite fuse_snoc. split.
  - intros obj [Hin| ->]%fuseCandidate_entries; apply elem_of_app.
    + left. by apply IHin.
    + right. by apply list_elem_of_singleton.
  - pose proof (fuseCandidate_length (fuse cands) c).
    rewrite length_app. cbn [length]. lia.
Qed.

(** ** More about the order of floating-point values *)

Lemma SFleb_refl (a : spec_float) : a ≠ S754_nan → SFleb a a = true.
Proof. float_order. Qed.

Lemma SFleb_of_not_ltb (a b : spec_float) :
  a ≠ S754_nan → b ≠ S754_nan → SFltb a b = false → SFleb b a = true.
Proof. float_order. Qed.

Lemma SFltb_leb (a b : spec_float) : SFltb a b = true → SFleb a b = true.
Proof. float_order. Qed.

Lemma SFleb_trans (a b c : spec_float) :
  SFleb a b = true → SFleb b c = true → SFleb a c = true.
Proof. float_order. Qed.

Lemma SFltb_not_nan (a b : spec_float) :
  SFltb a b = true → a ≠ S754_nan ∧ b ≠ S754_nan.
Proof. intros H. split; intros ->; revert H; float_order. Qed.

Section Best.
Implicit Types (cur obj : detectedObject) (objs acc : list detectedObject).

Lemma fuseCandidate_keeps acc cur obj :
  numbered obj → obj ∈ acc →
  ∃ e, e ∈ fuseCandidate acc cur
       ∧ SFleb (confidence obj) (confidence e) = true.
Proof.
  intros Hn Hin. rewrite fuseCandidate_spec.
  destruct (existsb (overlaps cur) acc).
  - exists (replaced cur obj). split.
    + apply list_elem_of_In, in_map, list_elem_of_In, Hin.
    + unfold replaced.
      destruct (overlaps cur obj); cbn [andb]; [|by apply SFleb_refl].
      destruct (F32.gt (confidence cur) (confidence obj)) eqn:Hgt;
        [|by apply SFleb_refl].
      by apply SFltb_leb.
  - exists obj. split; [apply elem_of_app; by left|by apply SFleb_refl].
Qed.

Lemma fuseCandidate_takes acc cur :
  numbered cur → Forall numbered acc →
  ∃ e, e ∈ fuseCandidate acc cur
       ∧ SFleb (confidence cur) (confidence e) = true.
Proof.
  intros Hn Hacc. rewrite fuseCandidate_spec.
  destruct (existsb (overlaps cur) acc) eqn:Hex.
  - apply existsb_elem_of in Hex as (obj & Hin & Hov).
    exists (replaced cur obj). split.
    + apply list_elem_of_In, in_map, list_elem_of_In, Hin.
    + unfold replaced. rewrite Hov. cbn [andb].
      destruct (F32.gt (confidence cur) (confidence obj)) eqn:Hgt;
        [by apply SFleb_refl|].
      apply SFleb_of_not_ltb; [|done..].
      rewrite Forall_forall in Hacc. by apply Hacc.
  - exists cur. split; [|by apply SFleb_refl].
    apply elem_of_app. right. by apply list_elem_of_singleton.
Qed.

Lemma fuse_subset cands obj : obj ∈ fuse cands → obj ∈ cands.
Proof.
  revert obj. induction cands as [|c cands IH] using rev_ind; [done|].
  intros obj. rewrite fuse_snoc.
  intros [Hin| ->]%fuseCandidate_entries; apply elem_of_app.
  - left. by apply IH.
  - right. by apply list_elem_of_singleton.
Qed.

Lemma fuse_dominates cands :
  Forall numbered cands →
  ∀ c, c ∈ cands →
    ∃ e, e ∈ fuse cands ∧ SFleb (confidence c) (confidence e) = true.
Proof.
  induction cands as [|x cands IH] using rev_ind; intros Hall c Hc.
  - by apply elem_of_nil in Hc.
  - apply Forall_app in Hall as [Hcands Hx]. apply Forall_inv in Hx.
    rewrite fuse_snoc.
    assert (Hfused : Forall numbered (fuse cands)).
    { apply Forall_forall. intros o Ho%fuse_subset.
      rewrite Forall_forall in Hcands. by apply Hcands. }
    apply elem_of_app in Hc as [Hc|Hc].
    + destruct (IH Hcands c Hc) as (e & He & Hle).
      destruct (fuseCandidate_keeps (fuse cands) x e) as (e' & He' & Hle').
      { rewrite Forall_forall in Hfused. by apply Hfused. }
      { done. }
      exists e'. split; [done|]. by eapply SFleb_trans.
    + apply list_elem_of_singleton in Hc as ->.
      by apply fuseCandidate_takes.
Qed.
End Best.

(** X8.  The fusion pass never loses the best confidence: when every
    candidate's confidence is a number, each candidate is matched or
    beaten in confidence by an object that the pass returns (and that
    object is itself one of the candidates).  So the highest confidence
    among the candidates is the highest confidence among the results. *)
Theorem fuse_keeps_best_confidence (cands : list detectedObject) :
  Forall (λ c, confidence c ≠ S754_nan) cands →
  ∀ c, c ∈ cands →
    ∃ e, e ∈ fuse cands ∧ e ∈ cands
         ∧ SFleb (confidence c) (confidence e) = true.
Proof.
  intros Hall c Hc.
  destruct (fuse_dominates cands Hall c Hc) as (e & He & Hle).
  exists e. split_and!; [done| |done]. by apply fuse_subset.
Qed.

Lemma fuse_keeps_best_confidence_witness :
  ∃ e, e ∈ fuse [box (F32.lit 8 10) 0 0 99 99;
                 box (F32.lit 95 100) 20 0 99 99;
                 box (F32.lit 9 10) 10 0 99 99]
       ∧ SFleb (F32.lit 9 10) (confidence e) = true.
Proof.
  destruct (fuse_keeps_best_confidence
              [box (F32.lit 8 10) 0 0 99 99;
               box (F32.lit 95 100) 20 0 99 99;
               box (F32.lit 9 10) 10 0 99 99]) with
    (c := box (F32.lit 9 10) 10 0 99 99) as (e & He & _ & Hle).
  - repeat constructor; vm_compute; discriminate.
  - apply list_elem_of_In. cbn. tauto.
  - exists e. by split.
Defined.

Section Sound.
Variable confidenceTreshold : F32.t.
Variable classes : list string.
Variable frame : Frame.

Lemma candidate_confidence row classID conf o :
  candidate classes frame row classID conf = Some o → confidence o = conf.
Proof.
  unfold candidate. intros H.
  destruct (row !! 0%nat); [|done]. destruct (row !! 1%nat); [|done].
  destruct (row !! 2%nat); [|done]. destruct (row !! 3%nat); [|done].
  destruct (classes !! classID); [|done].
  cbn in H. by injection H as <-.
Qed.

Lemma rowCandidates_built row cands :
  rowCandidates confidenceTreshold classes frame row = Some cands →
  (length cands ≤ 1)%nat
  ∧ ∀ o, o ∈ cands → builtFrom confidenceTreshold classes frame row o.
Proof.
  unfold rowCandidates. destruct (decide (length row < 5)%nat); [done|].
  destruct (getClassIDAndConfidence (drop 5 row)) as [classID conf] eqn:Hbest.
  destruct (F32.gt conf confidenceTreshold) eqn:Hgt.
  - destruct (candidate classes frame row classID conf) as [cur|] eqn:Hcur;
      [|done].
    intros [= <-]. split; [cbn; lia|].
    intros o ->%list_elem_of_singleton.
    pose proof (candidate_confidence _ _ _ _ Hcur) as Hconf.
    exists classID. by rewrite Hconf.
  - intros [= <-]. split; [cbn; lia|]. by intros o Ho%elem_of_nil.
Qed.

Lemma passingRows_built rows : ∀ cands,
  passingRows confidenceTreshold classes frame rows = Some cands →
  (length cands ≤ length rows)%nat
  ∧ ∀ o, o ∈ cands →
      ∃ row, row ∈ rows ∧ builtFrom confidenceTreshold classes frame row o.
Proof.
  induction rows as [|row rows IH]; intros cands; cbn [passingRows].
  - intros [= <-]. split; [done|]. by intros o Ho%elem_of_nil.
  - destruct (rowCandidates confidenceTreshold classes frame row) as [c|]
      eqn:Hrow; [|done].
    destruct (passingRows confidenceTreshold classes frame rows) as [cs|];
      [|done].
    cbn. intros [= <-].
    destruct (rowCandidates_built _ _ Hrow) as [Hlen Hc].
    destruct (IH cs eq_refl) as [Hlens Hcs].
    split; [rewrite length_app; cbn [length]; lia|].
    intros o [Ho|Ho]%elem_of_app.
    + exists row. split; [apply elem_of_cons; by left|by apply Hc].
    + destruct (Hcs o Ho) as (r & Hr & Hb).
      exists r. split; [apply elem_of_cons; by right|done].
Qed.

Lemma passing_built results : ∀ cands,
  passing confidenceTreshold classes frame results = Some cands →
  (length cands ≤ length (allRows results))%nat
  ∧ ∀ o, o ∈ cands →
      ∃ output row, output ∈ results ∧ row ∈ out_rows output
        ∧ builtFrom confidenceTreshold classes frame row o.
Proof.
  unfold allRows.
  induction results as [|output results IH]; intros cands;
    cbn [passing map concat].
  - intros [= <-]. split; [done|]. by intros o Ho%elem_of_nil.
  - destruct (sliced output); [|done].
    destruct (out_cols output <? 0).
    { intros [= <-]. split; [cbn; lia|]. by intros o Ho%elem_of_nil. }
    destruct (passingRows confidenceTreshold classes frame (out_rows output))
      as [c|] eqn:Hrows; [|done].
    destruct (passing confidenceTreshold classes frame results) as [cs|];
      [|done].
    cbn. intros [= <-].
    destruct (passingRows_built _ _ Hrows) as [Hlen Hc].
    destruct (IH cs eq_refl) as [Hlens Hcs].
    split; [rewrite !length_app; lia|].
    intros o [Ho|Ho]%elem_of_app.
    + destruct (Hc o Ho) as (r & Hr & Hb).
      exists output, r. split_and!; [apply elem_of_cons; by left|done..].
    + destruct (Hcs o Ho) as (out & r & Hout & Hr & Hb).
      exists out, r. split_and!; [apply elem_of_cons; by right|done..].
Qed.
End Sound.

Lemma fuse_length (cands : list detectedObject) :
  (length (fuse cands) ≤ length cands)%nat.
Proof.
  induction cands as [|c cands IH] using rev_ind; [done|].
  rewrite fuse_snoc. pose proof (fuseCandidate_length (fuse cands) c).
  rewrite length_app. cbn [length]. lia.
Qed.

(** X9.  What [performDetection] returns when it does not panic: at most
    one object per row of the outputs, and each object is what the loop
    body builds from some row of some output - its confidence is that
    row's best class score and is strictly above the threshold. *)
Theorem performDetection_sound
    (confidenceTreshold : F32.t) (classes : list string) (frame : Frame)
    (results : list Output) (objs : list detectedObject) :
  performDetection confidenceTreshold classes frame results = Some objs →
  (length objs ≤ length (allRows results))%nat
  ∧ ∀ o, o ∈ objs →
      F32.gt (confidence o) confidenceTreshold = true
      ∧ ∃ output row, output ∈ results ∧ row ∈ out_rows output
          ∧ builtFrom confidenceTreshold classes frame row o.
Proof.
  rewrite performDetection_fuse.
  destruct (passing confidenceTreshold classes frame results) as [cands|]
    eqn:Hpass; [|done].
  cbn. intros [= <-].
  destruct (passing_built _ _ _ _ _ Hpass) as [Hlen Hbuilt].
  split; [pose proof (fuse_length cands); lia|].
  intros o Ho%fuse_subset.
  destruct (Hbuilt o Ho) as (output & row & Hout & Hrow & Hb).
  split; [|by exists output, row].
  by destruct Hb as (classID & _ & Hgt & _).
Qed.

Lemma performDetection_sound_witness :
  ∃ objs, performDetection (F32.lit 75 100) ["osprey"; "gull"] picture
            [sampleOutput] = Some objs
          ∧ (length objs ≤ 2)%nat.
Proof.
  eexists. split; [vm_compute; reflexivity|].
  refine (proj1 (performDetection_sound (F32.lit 75 100) ["osprey"; "gull"]
                   picture [sampleOutput] _ _)).
  vm_compute. reflexivity.
Defined.

Section Safe.
Variable confidenceTreshold : F32.t.
Variable classes : list string.
Variable frame : Frame.
Hypothesis threshold_not_negative : F32.gt F32.zero confidenceTreshold = false.

Lemma best_index scores classID conf :
  getClassIDAndConfidence scores = (classID, conf) →
  F32.gt conf confidenceTreshold = true →
  (classID < length scores)%nat.
Proof.
  intros Hbest Hgt. pose proof (getClassIDAndConfidence_scanned scores) as Hs.
  rewrite Hbest in Hs. cbn in Hs.
  destruct Hs as [(_ & _ & ->)|(Hres & _)].
  - by rewrite threshold_not_negative in Hgt.
  - by apply lookup_lt_Some in Hres.
Qed.

Lemma rowCandidates_safe row :
  covered classes row → is_Some (rowCandidates confidenceTreshold classes frame row).
Proof.
  intros [H5 Hcls]. unfold rowCandidates.
  destruct (decide (length row < 5)%nat); [lia|].
  destruct (getClassIDAndConfidence (drop 5 row)) as [classID conf] eqn:Hbest.
  destruct (F32.gt conf confidenceTreshold) eqn:Hgt; [|done].
  pose proof (best_index _ _ _ Hbest Hgt) as Hid.
  rewrite length_drop in Hid.
  unfold candidate.
  destruct (lookup_lt_is_Some_2 row 0) as [r0 ->]; [lia|].
  destruct (lookup_lt_is_Some_2 row 1) as [r1 ->]; [lia|].
  destruct (lookup_lt_is_Some_2 row 2) as [r2 ->]; [lia|].
  destruct (lookup_lt_is_Some_2 row 3) as [r3 ->]; [lia|].
  destruct (lookup_lt_is_Some_2 classes classID) as [class ->]; [lia|].
  done.
Qed.

Lemma passingRows_safe rows :
  Forall (covered classes) rows →
  is_Some (passingRows confidenceTreshold classes frame rows).
Proof.
  induction 1 as [|row rows Hrow _ IH]; cbn [passingRows]; [done|].
  destruct (rowCandidates_safe row Hrow) as [c ->].
  by destruct IH as [cs ->].
Qed.

Lemma passing_safe results :
  forallb sliced results = true →
  Forall (λ output, Forall (covered classes) (out_rows output)) results →
  is_Some (passing confidenceTreshold classes frame results).
Proof.
  intros Hsliced Hrows. revert Hsliced.
  induction Hrows as [|output results Hout _ IH];
    cbn [passing forallb]; [done|].
  intros [-> Hrest]%andb_prop.
  destruct (out_cols output <? 0); [done|].
  destruct (passingRows_safe _ Hout) as [c ->].
  by destruct (IH Hrest) as [cs ->].
Qed.
End Safe.

(** The rows sliced off data that holds them, from row [k] on. *)
Lemma sliceRows_holds (output : Output) (data : list F32.t) (fuel : nat) :
  5 ≤ out_cols output →
  Z.of_nat (length data) < 2 ^ 63 →
  (0 < out_total output →
   ((out_total output - 1) / out_cols output + 1) * out_cols output
   ≤ Z.of_nat (length data)) →
  ∀ k, 0 ≤ k →
    Z.of_nat (length data) - k * out_cols output < Z.of_nat fuel →
    ∃ rows, sliceRows fuel output data (k * out_cols output) = (rows, true)
            ∧ Forall (λ row, length row = Z.to_nat (out_cols output)) rows.
Proof.
  set (cols := out_cols output). set (total := out_total output).
  set (len := Z.of_nat (length data)).
  intros Hcols Hlen Hfit.
  assert (Hin : ∀ k, 0 ≤ k → k * cols < total → (k + 1) * cols ≤ len).
  { intros k Hk Hlt.
    assert (k ≤ (total - 1) / cols)
      by (apply Z.div_le_lower_bound; lia).
    specialize (Hfit ltac:(nia)). nia. }
  induction fuel as [|fuel IH]; intros k Hk Hfuel; cbn [sliceRows];
    fold total cols; destruct (Z.ltb_spec (k * cols) total) as [Hlt|Hge];
    try (exists []; by split).
  { specialize (Hin k Hk Hlt). lia. }
  specialize (Hin k Hk Hlt).
  assert (Hnext : int_add (k * cols) cols = (k + 1) * cols).
  { unfold int_add. rewrite wrap64_small; nia. }
  rewrite Hnext. unfold sliceOf. fold len.
  replace ((0 <=? k * cols) && (k * cols <=? (k + 1) * cols)
           && ((k + 1) * cols <=? len)) with true.
  2:{ symmetry. rewrite !andb_true_iff, !Z.leb_le. nia. }
  set (row := take (Z.to_nat ((k + 1) * cols - k * cols))
                   (drop (Z.to_nat (k * cols)) data)).
  assert (Hrow : length row = Z.to_nat cols).
  { unfold row. rewrite length_take, length_drop. unfold len in *. nia. }
  destruct (decide (length row < 5)%nat) as [Hshort|_]; [lia|].
  destruct (IH (k + 1)) as (rows & -> & Hrows); [lia|nia|].
  exists (row :: rows). split; [done|]. by constructor.
Qed.

(** Data that holds its rows is walked without a panic, row by row. *)
Lemma holdsRows_sliced (classes : list string) (output : Output) :
  holdsRows classes output = true →
  sliced output = true ∧ Forall (covered classes) (out_rows output).
Proof.
  unfold holdsRows, sliced, out_rows.
  destruct (out_cols output <? 0); [by split|].
  intros [[[Hlo%Z.leb_le Hhi%Z.leb_le]%andb_prop Hlen%Z.ltb_lt]%andb_prop
            Hfit]%andb_prop.
  destruct (sliceRows_holds output (default [] (out_data output))
              (S (length (default [] (out_data output)))) Hlo Hlen)
    with (k := 0) as (rows & Hrows & Hall); [|done|lia|].
  { intros Htotal. apply orb_prop in Hfit as [H%Z.leb_le|H%Z.leb_le]; lia. }
  rewrite Z.mul_0_l in Hrows. rewrite Hrows. cbn [fst snd].
  split; [done|]. eapply Forall_impl; [exact Hall|].
  intros row Hrow. cbn beta in Hrow. unfold covered.
  clear -Hrow Hlo Hhi. lia.
Qed.

(** X10.  [performDetection] does not panic when the threshold is not
    negative and the data of every output holds the rows the loop takes
    off it: [Cols()] is at least 5 and at most 5 plus the number of
    classes, and the [(Total() - 1) / Cols() + 1] rows of [Cols()]
    entries that start below [Total()] lie within the data (or, with a
    negative [Cols()], the data has the ten values printed).  The
    run-time errors of the function, the slices of the data, the slice
    [row[5:]] and the index [classes[classID]], are then out of reach. *)
Theorem performDetection_no_panic
    (confidenceTreshold : F32.t) (classes : list string) (frame : Frame)
    (results : list Output) :
  F32.gt F32.zero confidenceTreshold = false →
  forallb (holdsRows classes) results = true →
  ∃ objs, performDetection confidenceTreshold classes frame results
          = Some objs.
Proof.
  intros Hthr Hholds. rewrite performDetection_fuse.
  destruct (passing_safe confidenceTreshold classes frame Hthr results)
    as [cands ->].
  - induction results as [|output results IH]; [done|].
    cbn [forallb] in *. apply andb_prop in Hholds as [Ho Hrest].
    destruct (holdsRows_sliced classes output Ho) as [-> _]. by apply IH.
  - induction results as [|output results IH]; [done|].
    cbn [forallb] in *. apply andb_prop in Hholds as [Ho Hrest].
    constructor; [|by apply IH]. by apply holdsRows_sliced.
  - by exists (fuse cands).
Qed.

Lemma performDetection_no_panic_witness :
  ∃ objs, performDetection (F32.lit 75 100) ["osprey"; "gull"] picture
            [sampleOutput] = Some objs.
Proof.
  apply (performDetection_no_panic (F32.lit 75 100) ["osprey"; "gull"]
           picture [sampleOutput]).
  - vm_compute. reflexivity.
  - vm_compute. reflexivity.
Defined.

(** ** The alert throttle across calls *)

Lemma latest_snoc (times : list Z) (c : Z) :
  latest (times ++ [c])
  = Some (match latest times with Some m => Z.max m c | None => c end).
Proof.
  unfold latest. induction times as [|t times IH]; cbn [app foldr]; [done|].
  rewrite IH. destruct (foldr _ None times) as [m|]; f_equal; lia.
Qed.

Lemma latest_le (times : list Z) (c : Z) :
  Forall (λ t, t ≤ c) times →
  match latest times with Some m => m ≤ c | None => True end.
Proof.
  unfold latest. induction 1 as [|t times Ht _ IH]; cbn [foldr]; [done|].
  destruct (foldr _ None times) as [m|]; lia.
Qed.

Lemma grownBy_refl (db : Database) : grownBy db db [].
Proof. unfold grownBy. by rewrite app_nil_r. Qed.


Lemma grownBy_insertAlert (db : Database) (event sid created : Z) :
  grownBy db (insertAlert db event sid created) [alertAt event sid created].
Proof. done. Qed.

Lemma subscriptionOf_grown (db db' : Database) (new : list alertRow)
    (email : string) :
  grownBy db db' new → subscriptionOf db' email = subscriptionOf db email.
Proof.
  intros (Ho & _ & Hs & _). unfold subscriptionOf. by rewrite Ho, Hs.
Qed.

(** The latest timestamp of a subscription after rows were added. *)
Lemma lastCapture_grown (db db' : Database) (new : list alertRow) (sid : Z) :
  grownBy db db' new →
  lastCapture db' sid
  = latest (map alert_created
              (filter (λ a, alert_subscription_id a = sid) (alert db))
            ++ map alert_created
                 (filter (λ a, alert_subscription_id a = sid) new)).
Proof.
  intros (_ & _ & _ & Ha). unfold lastCapture.
  by rewrite Ha, filter_app, map_app.
Qed.

Lemma lastCapture_grown_other (db db' : Database) (new : list alertRow)
    (sid : Z) :
  grownBy db db' new →
  Forall (λ a, alert_subscription_id a ≠ sid) new →
  lastCapture db' sid = lastCapture db sid.
Proof.
  intros Hg Hnew. rewrite (lastCapture_grown _ _ _ _ Hg).
  replace (filter (λ a, alert_subscription_id a = sid) new) with
    (@nil alertRow); [by rewrite app_nil_r|].
  symmetry. clear Hg. induction Hnew as [|a new Ha _ IH]; [done|].
  by rewrite filter_cons_False.
Qed.

Lemma lastCapture_insertAlert (db : Database) (event sid sid' c : Z) :
  lastCapture (insertAlert db event sid' c) sid
  = if decide (sid' = sid)
    then Some (match lastCapture db sid with
               | Some m => Z.max m c
               | None => c
               end)
    else lastCapture db sid.
Proof.
  unfold lastCapture, insertAlert. cbn [alert]. rewrite filter_app.
  destruct (decide (sid' = sid)) as [->|Hne].
  - rewrite filter_cons_True by done. rewrite filter_nil, map_app.
    apply latest_snoc.
  - rewrite filter_cons_False by done. by rewrite filter_nil, app_nil_r.
Qed.

Lemma lastCapture_noneAfter (db : Database) (sid c : Z) :
  noneAfter db sid c →
  match lastCapture db sid with Some m => m ≤ c | None => True end.
Proof.
  intros Hnone. unfold lastCapture. apply latest_le.
  apply Forall_fmap. apply Forall_forall.
  intros a [Hsid Hin]%list_elem_of_filter.
  unfold noneAfter in Hnone. rewrite Forall_forall in Hnone.
  by apply Hnone.
Qed.

Section Window.
Variable loc : Location.
Variable stamp : Z → Z.

(** The two ways a call that does not end the process can end. *)
Lemma hasBeenAlerted_inv (db db' : Database) (email : string)
    (event now : Z) (alerted : bool) :
  hasBeenAlerted loc stamp db email event now = Ok (db', alerted) →
  ∃ sid interval,
    subscriptionOf db email = Some (sid, interval)
    ∧ (if alerted then db' = db
       else db' = insertAlert db event sid (recordedAt loc stamp now)).
Proof.
  unfold hasBeenAlerted.
  destruct (subscriptionOf db email) as [[sid interval]|]; [|done].
  destruct (Sscanf_d_s interval) as [n u].
  intros H. exists sid, interval. split; [done|].
  destruct (match lastCapture db sid with Some _ => _ | None => _ end);
    by injection H as <- <-.
Qed.

(** Inside the window the switch says "already alerted". *)
Lemma withinInterval_window (u : string) (n unit last now' : Z) :
  unitLength u = Some unit →
  0 < n →
  (u ≠ "d"%string → unit * n < 2 ^ 63) →
  (u = "d"%string → sameClockBefore loc now' n) →
  now' < last + unit * n →
  withinInterval loc u n last now' = true.
Proof.
  intros Hunit Hn Hfit Hday Hnow.
  destruct (String.eqb_spec u "d") as [->|Hd].
  - injection Hunit as <-. rewrite withinInterval_days.
    unfold sameClockBefore in Hday. rewrite (Hday eq_refl).
    apply Z.ltb_lt. lia.
  - assert (Hdur : durationUnit u = Some unit).
    { revert Hunit. unfold unitLength, durationUnit.
      destruct (String.eqb u "m"); [done|].
      destruct (String.eqb u "h"); [done|].
      by destruct (String.eqb_spec u "d"). }
    assert (0 < unit).
    { revert Hdur. unfold durationUnit.
      destruct (String.eqb u "m"); [by intros [= <-]|].
      destruct (String.eqb u "h"); [by intros [= <-]|done]. }
    rewrite (withinInterval_cutoff loc u n unit) by (done || (split; [|auto]); nia).
    apply Z.ltb_lt. lia.
Qed.

(** A call for a subscription whose latest timestamp on record was
    recorded at [t0] and is read back as [t0], made before [t0] plus the
    interval, answers "already alerted" and records nothing. *)
Lemma hasBeenAlerted_suppressed (db : Database) (email : string)
    (event' t0 now' sid : Z) (interval : string) (n : Z) (u : string)
    (unit : Z) :
  subscriptionOf db email = Some (sid, interval) →
  Sscanf_d_s interval = (n, u) →
  unitLength u = Some unit →
  0 < n →
  (u ≠ "d"%string → unit * n < 2 ^ 63) →
  (u = "d"%string → sameClockBefore loc now' n) →
  lastCapture db sid = Some (recordedAt loc stamp t0) →
  readsBack loc stamp t0 →
  now' < t0 + unit * n →
  hasBeenAlerted loc stamp db email event' now' = Ok (db, true).
Proof.
  intros Hsub Hscan Hunit Hn Hfit Hday Hlast Hback Hnow.
  unfold hasBeenAlerted. rewrite Hsub, Hscan, Hlast.
  unfold readsBack in Hback. rewrite Hback.
  by rewrite (withinInterval_window u n unit t0 now').
Qed.

(** After an allowed call at [now], the timestamp recorded is the latest
    of the subscription. *)
Lemma hasBeenAlerted_latest (db db1 : Database) (email : string)
    (event now sid : Z) (interval : string) :
  subscriptionOf db email = Some (sid, interval) →
  noneAfter db sid (recordedAt loc stamp now) →
  hasBeenAlerted loc stamp db email event now = Ok (db1, false) →
  lastCapture db1 sid = Some (recordedAt loc stamp now)
  ∧ grownBy db db1 [alertAt event sid (recordedAt loc stamp now)].
Proof.
  intros Hsub Hnone Hcall.
  apply hasBeenAlerted_inv in Hcall as (sid' & interval' & Hsub' & ->).
  rewrite Hsub in Hsub'. injection Hsub' as <- <-.
  split; [|apply grownBy_insertAlert].
  rewrite lastCapture_insertAlert. rewrite decide_True by done.
  pose proof (lastCapture_noneAfter db sid _ Hnone) as Hle.
  destruct (lastCapture db sid) as [m|]; [|done]. f_equal. lia.
Qed.
End Window.

(** X4.  The throttle window.  For a subscription whose interval reads as
    [n] units of length [unit] (m, h or d, [n] positive and, for m and h,
    the product fitting a 64-bit duration): once [hasBeenAlerted] has
    allowed an alert at [now] and recorded it, with a timestamp that no
    alert of the subscription on record exceeds and that is read back as
    [now], every later call for the same observer at a time before
    [now + n * unit] answers "already alerted" and records nothing,
    whatever the event and whatever alerts of other subscriptions were
    recorded in between.  For the unit d the later call must see the same
    wall-clock time [n] days earlier (no change of the zone offset in
    between). *)
Theorem hasBeenAlerted_window
    (loc : Location) (stamp : Z → Z)
    (db db1 : Database) (email : string) (event now sid : Z)
    (interval : string) (n : Z) (u : string) (unit : Z) :
  subscriptionOf db email = Some (sid, interval) →
  Sscanf_d_s interval = (n, u) →
  unitLength u = Some unit →
  0 < n →
  (u ≠ "d"%string → unit * n < 2 ^ 63) →
  readsBack loc stamp now →
  noneAfter db sid (recordedAt loc stamp now) →
  hasBeenAlerted loc stamp db email event now = Ok (db1, false) →
  ∀ db2 others event' now',
    grownBy db1 db2 others →
    Forall (λ a, alert_subscription_id a ≠ sid) others →
    now' < now + unit * n →
    (u = "d"%string → sameClockBefore loc now' n) →
    hasBeenAlerted loc stamp db2 email event' now' = Ok (db2, true).
Proof.
  intros Hsub Hscan Hunit Hn Hfit Hback Hnone Hcall
         db2 others event' now' Hg Hothers Hnow Hday.
  destruct (hasBeenAlerted_latest loc stamp db db1 email event now sid
              interval Hsub Hnone Hcall) as [Hlast Hg1].
  apply (hasBeenAlerted_suppressed loc stamp db2 email event' now now' sid
           interval n u unit); try done.
  - rewrite (subscriptionOf_grown _ _ _ email Hg).
    by rewrite (subscriptionOf_grown _ _ _ email Hg1).
  - by rewrite (lastCapture_grown_other _ _ _ _ Hg Hothers).
Qed.

(** On 2023-06-01 in Helsinki: an alert allowed at 15:00 under the
    interval "15m" suppresses a call at 15:14. *)
Lemma hasBeenAlerted_window_witness :
  let recorded := alertAt 7 1 (wallClock helsinki2023 noon) in
  hasBeenAlerted helsinki2023 microseconds
                 (oneSubscription "15m" [recorded])
                 "test@mail" 8 (noon + 14 * Minute)
  = Ok (oneSubscription "15m" [recorded], true).
Proof.
  intros recorded.
  refine (hasBeenAlerted_window helsinki2023 microseconds
            (oneSubscription "15m" []) (oneSubscription "15m" [recorded])
            "test@mail" 7 noon 1 "15m" 15 "m" Minute _ _ _ _ _ _ _ _
            (oneSubscription "15m" [recorded]) [] 8 (noon + 14 * Minute)
            _ _ _ _).
  - reflexivity.
  - vm_compute. reflexivity.
  - reflexivity.
  - lia.
  - intros _. unfold Minute. lia.
  - vm_compute. reflexivity.
  - constructor.
  - vm_compute. reflexivity.
  - apply grownBy_refl.
  - constructor.
  - unfold Minute. lia.
  - discriminate.
Defined.

(** ** notifyObservers *)

Section Rounds.
Variable loc : Location.
Variable stamp : Z → Z.




End Rounds.





(** ** Reading an interval *)

Lemma decimalValue_of_uint_acc (d : Decimal.uint) :
  ∀ acc, Z.pos (Pos.of_uint_acc d acc) = decimalValue d (Z.pos acc).
Proof.
  induction d; intros acc; cbn [Pos.of_uint_acc decimalValue]; try done;
    rewrite IHd; f_equal; lia.
Qed.

Lemma decimalValue_of_uint (d : Decimal.uint) :
  Z.of_uint d = decimalValue d 0.
Proof.
  unfold Z.of_uint.
  induction d; cbn [Pos.of_uint decimalValue]; try done;
    cbn [Z.of_N]; by rewrite decimalValue_of_uint_acc.
Qed.

(** A string of ASCII characters is read one rune per byte. *)
Lemma DecodeRune_ascii (c : ascii) (p : list Z) :
  DecodeRune (byteOf c) p
  = if byteOf c <? 128 then (byteOf c, 1%nat) else DecodeRune (byteOf c) p.
Proof. unfold DecodeRune. by destruct (byteOf c <? 128). Qed.

Lemma runes_ascii (s : string) : allAscii s = true → runes s = bytes s.
Proof.
  induction s as [|c s IH]; cbn [allAscii runes bytes]; [done|].
  intros [Hc Hs]%andb_prop. rewrite DecodeRune_ascii, Hc.
  by rewrite (IH Hs).
Qed.

Lemma allAscii_app (s1 s2 : string) :
  allAscii s1 = true → allAscii s2 = true → allAscii (s1 ++ s2) = true.
Proof.
  intros H1 H2. induction s1 as [|c s1 IH]; [done|].
  rewrite append_cons. cbn [allAscii] in *.
  apply andb_prop in H1 as [-> H1]. by rewrite (IH H1).
Qed.

Lemma allAscii_uint (d : Decimal.uint) :
  allAscii (NilEmpty.string_of_uint d) = true.
Proof.
  induction d; cbn [NilEmpty.string_of_uint allAscii]; [done|..];
    by rewrite IHd.
Qed.

Lemma isWordChar_ascii (c : ascii) :
  isWordChar c = true →
  (byteOf c <? 128) = true ∧ isSpace (byteOf c) = false
  ∧ EncodeRune (byteOf c) = String c EmptyString.
Proof.
  destruct c as [[] [] [] [] [] [] [] []]; vm_compute;
    first [discriminate | by intros _].
Qed.

Lemma allAscii_word (u : string) : allWordChars u = true → allAscii u = true.
Proof.
  induction u as [|c u IH]; cbn [allWordChars allAscii]; [done|].
  intros [Hc Hu]%andb_prop.
  destruct (isWordChar_ascii c Hc) as (-> & _ & _). by rewrite (IH Hu).
Qed.

Lemma scanNumber_end (r : string) (count : nat) (acc : Z) :
  noDigitAhead r → scanNumber (bytes r) count acc = (count, acc, bytes r).
Proof.
  destruct r as [|c r]; cbn [bytes scanNumber noDigitAhead]; [done|].
  unfold digitOf. fold (byteOf c). unfold digitRune. by intros ->.
Qed.

Lemma scanNumber_decimal (d : Decimal.uint) (r : string) :
  noDigitAhead r →
  ∀ count acc,
    scanNumber (bytes (NilEmpty.string_of_uint d ++ r)) count acc
    = ((count + Decimal.nb_digits d)%nat, decimalValue d acc, bytes r).
Proof.
  intros Hr.
  induction d; intros count acc;
    cbn [NilEmpty.string_of_uint Decimal.nb_digits decimalValue];
    rewrite ?append_nil_l, ?append_cons.
  1:{ rewrite Nat.add_0_r. by apply scanNumber_end. }
  all: cbn [bytes scanNumber];
    match goal with |- context [digitRune ?c] =>
      let v := eval vm_compute in (digitRune c) in change (digitRune c) with v
    end;
    cbv beta iota; rewrite IHd; do 2 f_equal; first [lia | f_equal; lia].
Qed.

Lemma token_word (u : string) : allWordChars u = true → token (bytes u) = u.
Proof.
  induction u as [|c u IH]; cbn [allWordChars bytes token]; [done|].
  intros [Hc Hu]%andb_prop.
  destruct (isWordChar_ascii c Hc) as (_ & -> & ->). by rewrite (IH Hu).
Qed.

Lemma SkipSpace_word (u : string) :
  allWordChars u = true → SkipSpace (bytes u) = Some (bytes u).
Proof.
  destruct u as [|c u]; cbn [allWordChars bytes SkipSpace]; [done|].
  intros [Hc _]%andb_prop.
  destruct (isWordChar_ascii c Hc) as (_ & Hs & _). rewrite Hs.
  replace (isNewline (byteOf c)) with false; [done|].
  revert Hs. unfold isSpace, isNewline.
  destruct (byteOf c =? 10) eqn:E; [|done].
  apply Z.eqb_eq in E. by rewrite E.
Qed.

Lemma isWord_noDigitAhead (u : string) : isWord u = true → noDigitAhead u.
Proof.
  unfold isWord, noDigitAhead. destruct u as [|c u]; [done|].
  intros [_ [H _]%andb_prop]%andb_prop. by destruct (digitOf c).
Qed.

(** The digits of a positive number scan back to it. *)
Lemma scanNumber_pos (p : positive) (u : string) :
  noDigitAhead u →
  ∃ count,
    scanNumber (bytes (NilEmpty.string_of_uint (Pos.to_uint p) ++ u)) 0 0
    = (S count, Z.pos p, bytes u).
Proof.
  intros Hu. rewrite (scanNumber_decimal _ _ Hu).
  rewrite <- decimalValue_of_uint. unfold Z.of_uint.
  rewrite DecimalPos.Unsigned.of_to. cbn [Z.of_N].
  pose proof (DecimalPos.Unsigned.to_uint_nonnil p) as Hnil.
  destruct (Pos.to_uint p); [done|..]; cbn [Decimal.nb_digits];
    eexists; reflexivity.
Qed.

Lemma string_of_uint_pos (p : positive) :
  NilZero.string_of_uint (Pos.to_uint p)
  = NilEmpty.string_of_uint (Pos.to_uint p).
Proof.
  pose proof (DecimalPos.Unsigned.to_uint_nonnil p) as Hnil.
  by destruct (Pos.to_uint p).
Qed.

Lemma scanInt_unsigned (c : ascii) (s : string) :
  is_Some (digitOf c) →
  scanInt (bytes (String c s))
  = let '(count, v, rs3) := scanNumber (bytes (String c s)) 0 0 in
    if decide (count = 0%nat) then None
    else if (- 2 ^ 63 <=? v) && (v <? 2 ^ 63) then Some (v, rs3) else None.
Proof.
  intros Hc. unfold scanInt. cbn [bytes SkipSpace].
  destruct c as [[] [] [] [] [] [] [] []];
    first [by exfalso; revert Hc; vm_compute; intros [? ?] | reflexivity].
Qed.

Lemma string_of_uint_head (p : positive) :
  ∃ c s, NilEmpty.string_of_uint (Pos.to_uint p) = String c s
         ∧ is_Some (digitOf c).
Proof.
  pose proof (DecimalPos.Unsigned.to_uint_nonnil p) as Hnil.
  destruct (Pos.to_uint p); [done|..]; cbn [NilEmpty.string_of_uint];
    eexists _, _; (split; [reflexivity|]); vm_compute; eauto.
Qed.

Lemma allAscii_FormatInt (n : Z) : allAscii (FormatInt n) = true.
Proof.
  unfold FormatInt.
  destruct n as [|p|p]; cbn [Z.to_int NilZero.string_of_int]; [done|..];
    rewrite string_of_uint_pos; cbn [allAscii]; by rewrite allAscii_uint.
Qed.

(** The scanner skips Unicode space between the number and the unit:
    "15", a no-break space (U+00A0, the bytes C2 A0) and "m" read as 15
    and "m". *)
Lemma Sscanf_d_s_no_break_space :
  Sscanf_d_s ("15" ++ String (charOf 194) (String (charOf 160) "m"))
  = (15, "m"%string).
Proof. vm_compute. reflexivity. Qed.

(** X14.  Reading back an interval.  An integer [n] of the [int] range
    written in decimal and followed at once by a unit word [u] (printable
    ASCII characters, the first neither a digit nor an underscore; the
    empty word included) is read by the [Sscanf] of [hasBeenAlerted] as
    the length [n] and the unit [u]. *)
Theorem Sscanf_d_s_round_trip (n : Z) (u : string) :
  - 2 ^ 63 ≤ n < 2 ^ 63 →
  isWord u = true →
  Sscanf_d_s (FormatInt n ++ u) = (n, u).
Proof.
  intros Hn Hu.
  pose proof (isWord_noDigitAhead u Hu) as Hnext.
  assert (Hchars : allWordChars u = true).
  { unfold isWord in Hu. by apply andb_prop in Hu as [? _]. }
  assert (Hrest : match convertString (bytes u) with
                  | None => (n, EmptyString) | Some t => (n, t) end = (n, u)).
  { unfold convertString. rewrite (SkipSpace_word u Hchars).
    cbn [mbind option_bind].
    destruct u as [|c u'] eqn:Eu; [done|]. rewrite <- Eu in *.
    rewrite (token_word _ Hchars). by rewrite Eu. }
  assert (Hrange : (- 2 ^ 63 <=? n) && (n <? 2 ^ 63) = true).
  { apply andb_true_intro. split; [apply Z.leb_le|apply Z.ltb_lt]; lia. }
  unfold Sscanf_d_s.
  rewrite runes_ascii
    by (apply allAscii_app; [apply allAscii_FormatInt|by apply allAscii_word]).
  unfold FormatInt.
  destruct n as [|p|p]; cbn [Z.to_int NilZero.string_of_int].
  - change (NilZero.string_of_uint (Decimal.D0 Decimal.Nil)) with "0"%string.
    rewrite append_cons, append_nil_l.
    rewrite scanInt_unsigned by (vm_compute; eauto).
    cbn [bytes scanNumber]. change (digitRune (byteOf "0")) with (Some 0).
    cbv beta iota.
    rewrite (scanNumber_end u 1 (10 * 0 + 0) Hnext).
    destruct (decide (1%nat = 0%nat)); [done|]. exact Hrest.
  - rewrite string_of_uint_pos.
    destruct (scanNumber_pos p u Hnext) as (count & Hscan).
    destruct (string_of_uint_head p) as (c & s & Hs & Hc).
    rewrite Hs, append_cons in *.
    rewrite (scanInt_unsigned c _ Hc), Hscan.
    destruct (decide (S count = 0%nat)); [done|].
    rewrite Hrange. exact Hrest.
  - rewrite string_of_uint_pos, append_cons.
    destruct (scanNumber_pos p u Hnext) as (count & Hscan).
    unfold scanInt. cbn [bytes SkipSpace].
    change (isNewline (byteOf "-")) with false.
    change (isSpace (byteOf "-")) with false.
    change (byteOf "-") with 45.
    cbn [mbind option_bind]. rewrite Hscan.
    destruct (decide (S count = 0%nat)); [done|].
    change (- Z.pos p) with (Z.neg p). rewrite Hrange. exact Hrest.
Qed.

Lemma Sscanf_d_s_round_trip_witness :
  Sscanf_d_s (FormatInt 15 ++ "m") = (15, "m"%string).
Proof.
  apply (Sscanf_d_s_round_trip 15 "m"); [lia|reflexivity].
Defined.


(** ** Frames of a video or stream source *)

Section Frames.
Variable confidenceTreshold : F32.t.
Variable classes : list string.
Variable prod : bool.
Variable infer : Frame → list Output.
Variable Rectangle : Frame → Z * Z * Z * Z → Frame.
Variable PutText : Frame → string → Z * Z → Frame.
Variable loc : Location.
Variable stamp : Z → Z.

Abbreviation handle :=
  (handleFrame confidenceTreshold classes prod infer Rectangle PutText loc
               stamp).
Abbreviation body :=
  (loopBody confidenceTreshold classes prod infer Rectangle PutText loc stamp).
Abbreviation loop :=
  (captureLoop confidenceTreshold classes prod infer Rectangle PutText loc
               stamp).
Abbreviation detect img :=
  (performDetection confidenceTreshold classes img (infer img)).

Lemma frameEvents_app (tr1 tr2 : list event) :
  frameEvents (tr1 ++ tr2) = frameEvents tr1 ++ frameEvents tr2.
Proof. apply omap_app. Qed.

Lemma frameEvents_quiet (evs : list event) :
  Forall (λ e, frameEvent e = None) evs → frameEvents evs = [].
Proof.
  induction 1 as [|e evs He _ IH]; [done|].
  change (frameEvents (e :: evs))
    with (match frameEvent e with
          | Some x => x :: frameEvents evs | None => frameEvents evs end).
  by rewrite He.
Qed.

Lemma handleFrame_frames deviceID img it db store :
  match handle deviceID img it db store with
  | (evs, st) =>
      frameEvents evs = [inr img]
      ∨ frameEvents evs = [] ∧ st = Stop Panicked db store
  end.
Proof.
  unfold handleFrame.
  destruct (detect img) as [objs|]; [|by right].
  destruct prod.
  - destruct (decide (length objs = 0%nat)); [by left|].
    destruct (it_classId it); [|by left].
    destruct (insertDetections store objs _ _ _) as [store' [ev|]];
      [|by left].
    destruct (0 <? ev); [|by left].
    by destruct (notifyObservers loc stamp db deviceID ev (it_now it))
      as [[db' sent]|]; left.
  - by destruct (0 <=? it_key it); left.
Qed.

Lemma handleFrame_detected deviceID img it db store :
  ∀ f objs,
    Detected f objs ∈ (handle deviceID img it db store).1 →
    detect f = Some objs.
Proof.
  pose proof (handleFrame_cases confidenceTreshold classes prod infer
                Rectangle PutText loc stamp deviceID img it db store) as Hc.
  destruct (handle _ _ _ _ _) as [evs st].
  destruct Hc as (_ & Hdet & _). intros f objs Hin. cbn [fst] in Hin.
  apply detections_in_elem in Hin. rewrite Hdet in Hin.
  destruct (detect img) as [objs'|] eqn:E; [|by apply elem_of_nil in Hin].
  by apply list_elem_of_singleton in Hin as [= -> ->].
Qed.

(** One turn of the loop of a video or stream source. *)
Lemma loopBody_frames sourceType deviceID img it db store :
  (sourceType =? STREAM) || (sourceType =? VIDEO) = true →
  match body sourceType deviceID img it db store, it_read it with
  | (evs, Stop _ _ _), None => frameEvents evs = []
  | (evs, Next _ _ _), None => False
  | (evs, Stop _ _ _), Some f =>
      frameEvents evs = [inl f] ∨ frameEvents evs = [inl f; inr f]
  | (evs, Next _ _ _), Some f => frameEvents evs = [inl f; inr f]
  end.
Proof.
  intros Hsrc. unfold loopBody. rewrite Hsrc.
  destruct (it_read it) as [f|]; [|done].
  destruct (frame_empty f); [by left|].
  pose proof (handleFrame_frames deviceID f it db store) as Hf.
  destruct (handle _ _ _ _ _) as [evs [img' db' store'|s db' store']];
    unfold frameEvents in *; cbn [omap list_omap frameEvent].
  - destruct Hf as [->|[_ ?]]; done.
  - destruct Hf as [->|[-> _]]; [by right|by left].
Qed.

Lemma loopBody_detected sourceType deviceID img it db store :
  ∀ f objs,
    Detected f objs ∈ (body sourceType deviceID img it db store).1 →
    detect f = Some objs.
Proof.
  unfold loopBody.
  destruct ((sourceType =? STREAM) || (sourceType =? VIDEO));
    [|apply handleFrame_detected].
  destruct (it_read it) as [img'|].
  2:{ intros f objs Hin. exfalso. revert Hin. not_in_trace. }
  destruct (frame_empty img').
  { intros f objs Hin. exfalso. revert Hin. not_in_trace. }
  pose proof (handleFrame_detected deviceID img' it db store) as Hd.
  destruct (handle _ _ _ _ _) as [evs st]. cbn [fst] in *.
  intros f objs [?|Hin]%elem_of_cons; [done|]. by apply Hd.
Qed.

(** A turn never ends the loop with the task still running. *)
Lemma loopBody_stops sourceType deviceID img it db store evs db' store' :
  body sourceType deviceID img it db store ≠ (evs, Stop Running db' store').
Proof.
  unfold loopBody.
  assert (Hh : ∀ img evs,
            handle deviceID img it db store ≠ (evs, Stop Running db' store')).
  { intros img0 evs0 Heq.
    pose proof (handleFrame_cases confidenceTreshold classes prod infer
                  Rectangle PutText loc stamp deviceID img0 it db store)
      as Hc.
    rewrite Heq in Hc. by destruct Hc as (_ & _ & []). }
  destruct ((sourceType =? STREAM) || (sourceType =? VIDEO)); [|apply Hh].
  destruct (it_read it) as [img'|]; [|done].
  destruct (frame_empty img'); [done|].
  pose proof (Hh img') as Hh'.
  destruct (handle _ _ _ _ _) as [evs0 st].
  intros [= <- ->]. by apply (Hh' evs0).
Qed.

Lemma captureLoop_frames sourceType deviceID its :
  (sourceType =? STREAM) || (sourceType =? VIDEO) = true →
  ∀ img db store past,
    let r := loop sourceType deviceID img its db store past in
    (∃ more, frameEvents (trace r) = frameEvents past ++ more
             ∧ more `prefix_of` readThenDetect (supplied its)
             ∧ (final r = Running →
                  more = readThenDetect (supplied its)
                  ∧ length (supplied its) = length its))
    ∧ (∀ f objs, Detected f objs ∈ trace r →
         Detected f objs ∈ past ∨ detect f = Some objs).
Proof.
  intros Hsrc.
  induction its as [|it its IH]; intros img db store past;
    cbn [captureLoop].
  - cbn [trace final supplied]. split; [|by left].
    exists []. by rewrite app_nil_r.
  - pose proof (loopBody_frames sourceType deviceID img it db store Hsrc)
      as Hit.
    pose proof (loopBody_detected sourceType deviceID img it db store)
      as Hdet.
    destruct (body _ _ _ _ _ _)
      as [evs [img' db' store'|s db' store']] eqn:Hbody;
      cbn [fst] in Hdet; cbn [supplied].
    + destruct (it_read it) as [f|]; [|done].
      specialize (IH img' db' store' (past ++ evs)). cbn zeta in IH.
      destruct IH as [(more & Hmore & Hpre & Hrun) IHdet]. split.
      * exists ([inl f; inr f] ++ more). split_and!.
        -- by rewrite Hmore, frameEvents_app, Hit, <- app_assoc.
        -- unfold readThenDetect. cbn [flat_map].
           by apply prefix_app.
        -- intros Hfinal. destruct (Hrun Hfinal) as [-> Hlen].
           split; [done|]. cbn [length]. lia.
      * intros f' objs [Hin|?]%IHdet; [|by right].
        apply elem_of_app in Hin as [?|?]; [by left|right; by apply Hdet].
    + cbn [trace final]. split.
      * exists (frameEvents evs). split_and!.
        -- apply frameEvents_app.
        -- destruct (it_read it) as [f|]; [|rewrite Hit; apply prefix_nil].
           unfold readThenDetect. cbn [flat_map].
           destruct Hit as [-> | ->].
           ++ apply prefix_cons, prefix_nil.
           ++ apply prefix_cons, prefix_cons, prefix_nil.
        -- intros ->. by apply loopBody_stops in Hbody.
      * intros f' objs [?|?]%elem_of_app; [by left|right; by apply Hdet].
Qed.
End Frames.

(** X16.  Frames of a video or stream source are handled one at a time
    and in the order they are read: the reads and detections in the trace
    are a prefix of "read f1, detect f1, read f2, detect f2, ..." over the
    frames the environment supplies before the first failed read; a task
    still in its loop has read and detected every frame supplied; and
    every detection in the trace reports what [performDetection] gives on
    its frame. *)
Theorem detectFromCapture_frames_in_order
    (confidenceTreshold : F32.t) (classes : list string) (prod : bool)
    (infer : Frame → list Output)
    (Rectangle : Frame → Z * Z * Z * Z → Frame)
    (PutText : Frame → string → Z * Z → Frame)
    (loc : Location) (stamp : Z → Z) (sourceType : deviceSource)
    (deviceID : string) (o : opening) (its : list iteration) (db : Database)
    (store : Detections) :
  sourceType = VIDEO ∨ sourceType = STREAM →
  let r := detectFromCapture confidenceTreshold classes prod infer
             Rectangle PutText loc stamp sourceType deviceID o its db store in
  frameEvents (trace r) `prefix_of` readThenDetect (supplied its)
  ∧ (final r = Running →
       frameEvents (trace r) = readThenDetect (supplied its)
       ∧ length (supplied its) = length its)
  ∧ (∀ f objs, Detected f objs ∈ trace r →
       performDetection confidenceTreshold classes f (infer f) = Some objs).
Proof.
  intros Hsrc r. subst r.
  assert (Hloop : (sourceType =? STREAM) || (sourceType =? VIDEO) = true)
    by (by destruct Hsrc as [-> | ->]).
  assert (Hquiet : ∀ evs, Forall (λ e, frameEvent e = None) evs →
            let r := if open_net o then
                       captureLoop confidenceTreshold classes prod infer
                         Rectangle PutText loc stamp
                         sourceType deviceID emptyMat its db store
                         (evs ++ [Printed StartReading])
                     else {| trace := evs ++ [Printed ErrorReadingNet];
                             final := Returned; catalog := db;
                             stored := store |} in
            frameEvents (trace r) `prefix_of` readThenDetect (supplied its)
            ∧ (final r = Running →
                 frameEvents (trace r) = readThenDetect (supplied its)
                 ∧ length (supplied its) = length its)
            ∧ (∀ f objs, Detected f objs ∈ trace r →
                 performDetection confidenceTreshold classes f (infer f)
                 = Some objs)).
  { intros evs Hevs.
    assert (Hnone : ∀ m, frameEvents (evs ++ [Printed m]) = []).
    { intros m. rewrite frameEvents_app. by rewrite frameEvents_quiet. }
    assert (Hno : ∀ m f objs, Detected f objs ∉ evs ++ [Printed m]).
    { intros m f objs [Hin|Hin]%elem_of_app.
      - rewrite Forall_forall in Hevs. by specialize (Hevs _ Hin).
      - by apply list_elem_of_singleton in Hin. }
    destruct (open_net o); cbn zeta.
    - destruct (captureLoop_frames confidenceTreshold classes prod infer
                  Rectangle PutText loc stamp
                  sourceType deviceID its Hloop emptyMat db store
                  (evs ++ [Printed StartReading]))
        as [(more & Hmore & Hpre & Hrun) Hdet].
      rewrite Hnone, app_nil_l in Hmore. rewrite Hmore. split_and!; try done.
      intros f objs [Hin|?]%Hdet; [|done]. by apply Hno in Hin.
    - cbn [trace final]. rewrite Hnone. split_and!; try done.
      + apply prefix_nil.
      + intros f objs Hin. by apply Hno in Hin. }
  unfold detectFromCapture.
  destruct Hsrc as [-> | ->]; cbn [Z.eqb VIDEO STREAM IMAGE].
  - destruct (open_video o).
    + apply (Hquiet []). constructor.
    + cbn [trace final]. split_and!; [apply prefix_nil|done|].
      intros f objs Hin. apply list_elem_of_singleton in Hin. done.
  - assert (Hconn : Forall (λ e, frameEvent e = None)
                      (map snd (conn_events
                         (connectStream (open_dial o) (open_tie o))))).
    { unfold connectStream.
      destruct (open_dial o) as [t|t|]; cbn [conn_events].
      - destruct (t <? timeoutMs);
          [|destruct ((t =? timeoutMs) && open_tie o)];
          repeat constructor.
      - destruct (t <=? timeoutMs); repeat constructor.
      - repeat constructor. }
    destruct (conn_connected _).
    + by apply Hquiet.
    + cbn [trace final]. split_and!; [|done|].
      * rewrite frameEvents_quiet by done. apply prefix_nil.
      * intros f objs Hin. rewrite Forall_forall in Hconn.
        by specialize (Hconn _ Hin).
Qed.

Lemma detectFromCapture_frames_in_order_witness :
  frameEvents
    (trace (detectFromCapture (F32.lit 75 100) ["osprey"] true (λ _, [])
              markRectangle markText helsinki2023 microseconds
              VIDEO "nest.mp4"
              {| open_image := emptyMat; open_video := true;
                 open_dial := DialHangs; open_tie := false;
                 open_net := true |}
              [{| it_read := Some picture;
                 it_captureTime := "2023-06-01T12:00:00+03:00";
                 it_classId := Some 1;
                 it_inserts := {| ins_event := Some 1;
                                  ins_detections := [true] |};
                 it_now := 0; it_key := -1 |}; quiet]
              (oneSubscription "15m" []) noDetections))
  `prefix_of` [inl picture; inr picture].
Proof.
  refine (proj1 (detectFromCapture_frames_in_order (F32.lit 75 100)
            ["osprey"] true (λ _, []) markRectangle markText helsinki2023
            microseconds VIDEO "nest.mp4" _
            [{| it_read := Some picture;
                 it_captureTime := "2023-06-01T12:00:00+03:00";
                 it_classId := Some 1;
                 it_inserts := {| ins_event := Some 1;
                                  ins_detections := [true] |};
                 it_now := 0; it_key := -1 |}; quiet]
            (oneSubscription "15m" []) noDetections _)).
  by left.
Defined.

(** ** The confidence flag *)

Lemma percentages_spec (c : Z) : c ∈ percentages ↔ 0 < c ≤ 100.
Proof. unfold percentages. rewrite elem_of_seqZ. lia. Qed.

Lemma forallb_elem_of {A} (f : A → bool) (l : list A) (x : A) :
  forallb f l = true → x ∈ l → f x = true.
Proof.
  intros Hall Hx. rewrite forallb_forall in Hall.
  by apply Hall, list_elem_of_In.
Qed.

(** X11.  The confidence threshold [main] derives from the [-confidence]
    flag is, for every flag value, a number greater than 0 and at most
    1.0; outside 1..100 it is the default 0.75; 100 gives exactly 1.0;
    and within 1..100 a greater percentage gives a strictly greater
    threshold. *)
Theorem confidenceTresholdOf_range (confidence : Z) :
  F32.gt (confidenceTresholdOf confidence) F32.zero = true
  ∧ SFleb (confidenceTresholdOf confidence) (F32.of_int 1) = true
  ∧ (¬ 0 < confidence ≤ 100 →
       confidenceTresholdOf confidence = F32.lit 75 100)
  ∧ confidenceTresholdOf 100 = F32.of_int 1
  ∧ ∀ lower, 0 < lower → lower < confidence → confidence ≤ 100 →
      F32.gt (confidenceTresholdOf confidence) (confidenceTresholdOf lower)
      = true.
Proof.
  assert (Hall : forallb (λ c,
            F32.gt (confidenceTresholdOf c) F32.zero
            && SFleb (confidenceTresholdOf c) (F32.of_int 1)
            && forallb (λ l, (c <=? l)
                 || F32.gt (confidenceTresholdOf c) (confidenceTresholdOf l))
                 percentages) percentages = true)
    by (vm_compute; reflexivity).
  assert (Hdefault : ¬ 0 < confidence ≤ 100 →
            confidenceTresholdOf confidence = F32.lit 75 100).
  { intros Hout. unfold confidenceTresholdOf.
    destruct (Z.leb_spec confidence 100), (Z.ltb_spec 0 confidence);
      cbn [andb]; first [exfalso; lia | reflexivity]. }
  assert (Hfull : confidenceTresholdOf 100 = F32.of_int 1)
    by (vm_compute; reflexivity).
  destruct (decide (0 < confidence ≤ 100)) as [Hin|Hout].
  - apply percentages_spec in Hin as Hmem.
    apply (forallb_elem_of _ _ _ Hall) in Hmem.
    apply andb_prop in Hmem as [[Hpos Hle]%andb_prop Hmono].
    refine (conj Hpos (conj Hle (conj Hdefault (conj Hfull _)))).
    intros lower Hlower Hlt _.
    assert (Hl : lower ∈ percentages) by (apply percentages_spec; lia).
    apply (forallb_elem_of _ _ _ Hmono) in Hl.
    apply orb_prop in Hl as [Hl|Hl]; [|exact Hl].
    apply Z.leb_le in Hl. lia.
  - rewrite (Hdefault Hout).
    refine (conj _ (conj _ (conj (λ _, eq_refl) (conj Hfull _)))).
    + vm_compute. reflexivity.
    + vm_compute. reflexivity.
    + intros lower Hlower Hlt Hle. lia.
Qed.

(** ** The names of the source types *)

Lemma FormatInt_parse (i : Z) :
  NilZero.int_of_string (FormatInt i) = Some (Z.to_int i).
Proof.
  unfold FormatInt. apply NilZero.isi.
  - destruct i as [|p|p]; cbn [Z.to_int]; try done.
    pose proof (DecimalPos.Unsigned.to_uint_nonnil p). congruence.
  - destruct i as [|p|p]; cbn [Z.to_int]; try done.
    pose proof (DecimalPos.Unsigned.to_uint_nonnil p). congruence.
Qed.

Lemma FormatInt_inj (i j : Z) : FormatInt i = FormatInt j → i = j.
Proof.
  intros Heq. apply DecimalZ.to_int_inj.
  pose proof (FormatInt_parse i) as Hi. rewrite Heq, FormatInt_parse in Hi.
  by injection Hi.
Qed.

Lemma append_inj_r (s1 s2 r : string) :
  String.append s1 r = String.append s2 r → s1 = s2.
Proof.
  revert s2. induction s1 as [|c s1 IH]; intros [|c2 s2];
    rewrite ?append_nil_l, ?append_cons; try done.
  - intros H. apply (f_equal String.length) in H.
    cbn [String.length] in H. rewrite append_length in H. lia.
  - intros H. apply (f_equal String.length) in H.
    cbn [String.length] in H. rewrite append_length in H. lia.
  - intros [= -> H]. by rewrite (IH _ H).
Qed.

Lemma deviceSource_String_other (i : deviceSource) :
  i < 0 ∨ 2 < i →
  deviceSource_String i = Some ("deviceSource(" ++ FormatInt i ++ ")")%string.
Proof.
  intros Hi. unfold deviceSource_String. cbn [length _deviceSource_index].
  destruct (Z.ltb_spec i 0); [done|].
  destruct (Z.leb_spec (Z.of_nat 4 - 1) i); [done|]. lia.
Qed.

(** X17.  [String()] of a source type: "IMAGE", "VIDEO" and "STREAM" for
    0, 1 and 2, and "deviceSource(n)" with [n] in decimal for every other
    value; it never indexes out of range; different values have
    different names; and the type [getDeviceType] gives an address is
    printed as one of the three names or as "deviceSource(-1)". *)
Theorem deviceSource_String_names :
  deviceSource_String IMAGE = Some "IMAGE"%string
  ∧ deviceSource_String VIDEO = Some "VIDEO"%string
  ∧ deviceSource_String STREAM = Some "STREAM"%string
  ∧ (∀ i, i < 0 ∨ 2 < i →
       deviceSource_String i
       = Some ("deviceSource(" ++ FormatInt i ++ ")")%string)
  ∧ (∀ i, is_Some (deviceSource_String i))
  ∧ (∀ i j, deviceSource_String i = deviceSource_String j → i = j)
  ∧ ∀ deviceID,
      deviceSource_String (getDeviceType deviceID)
      ∈ [Some "IMAGE"%string; Some "VIDEO"%string; Some "STREAM"%string;
         Some "deviceSource(-1)"%string].
Proof.
  assert (Hnamed : ∀ i, 0 ≤ i ≤ 2 →
            deviceSource_String i
            ∈ [Some "IMAGE"%string; Some "VIDEO"%string;
               Some "STREAM"%string]
            ∧ (i = 0 ∧ deviceSource_String i = Some "IMAGE"%string
               ∨ i = 1 ∧ deviceSource_String i = Some "VIDEO"%string
               ∨ i = 2 ∧ deviceSource_String i = Some "STREAM"%string)).
  { intros i Hi.
    assert (i = 0 ∨ i = 1 ∨ i = 2) as [-> | [-> | ->]] by lia;
      (split; [apply list_elem_of_In; cbn; tauto|tauto]). }
  split_and!; try done.
  - apply deviceSource_String_other.
  - intros i. destruct (decide (i < 0 ∨ 2 < i)) as [Hi|Hi].
    + by rewrite deviceSource_String_other.
    + destruct (Hnamed i) as [_ [[_ ->]|[[_ ->]|[_ ->]]]]; [lia|done..].
  - intros i j.
    destruct (decide (i < 0 ∨ 2 < i)) as [Hi|Hi],
             (decide (j < 0 ∨ 2 < j)) as [Hj|Hj].
    + rewrite !deviceSource_String_other by done.
      intros [= H]. apply FormatInt_inj. by eapply append_inj_r.
    + rewrite deviceSource_String_other by done.
      destruct (Hnamed j) as [_ [[_ ->]|[[_ ->]|[_ ->]]]]; [lia|done..].
    + rewrite (deviceSource_String_other j) by done.
      destruct (Hnamed i) as [_ [[_ ->]|[[_ ->]|[_ ->]]]]; [lia|done..].
    + destruct (Hnamed i) as [_ [[-> ->]|[[-> ->]|[-> ->]]]]; [lia|..];
        (destruct (Hnamed j) as [_ [[-> ->]|[[-> ->]|[-> ->]]]]; [lia|done..]).
  - intros deviceID. unfold getDeviceType.
    destruct (HasSuffix deviceID ".jpg" || HasSuffix deviceID ".png");
      [apply list_elem_of_In; cbn; tauto|].
    destruct (HasSuffix deviceID ".mp4" || String.eqb deviceID "0");
      [apply list_elem_of_In; cbn; tauto|].
    destruct (HasPrefix deviceID "rtsp");
      apply list_elem_of_In; cbn; tauto.
Qed.

(** ** The device list *)

Lemma Split_nonempty (s : string) (sep : ascii) : Split s sep ≠ [].
Proof.
  destruct s as [|c s]; cbn [Split]; [done|].
  destruct (Ascii.eqb c sep); [done|]. by destruct (Split s sep).
Qed.

Lemma Join_cons (e : string) (rest : list string) (sep : ascii) :
  rest ≠ [] → Join (e :: rest) sep = (e ++ String sep (Join rest sep))%string.
Proof. by destruct rest. Qed.

(** X18.  [strings.Split] at a one-byte separator, as [main] uses it on
    the [-d] flag: joining the pieces with the separator gives the string
    back, there is one piece more than there are separators in the string
    (so never no piece), and no piece holds the separator. *)
Theorem Split_pieces (s : string) (sep : ascii) :
  Join (Split s sep) sep = s
  ∧ length (Split s sep) = S (countByte sep s)
  ∧ Forall (λ piece, hasByte sep piece = false) (Split s sep).
Proof.
  induction s as [|c s (IHjoin & IHlen & IHall)]; cbn [Split countByte].
  - split_and!; try done. by repeat constructor.
  - pose proof (Split_nonempty s sep) as Hne.
    destruct (Ascii.eqb c sep) eqn:Hc.
    + apply Ascii.eqb_eq in Hc as ->. split_and!.
      * by rewrite Join_cons, IHjoin, append_nil_l.
      * cbn [length]. by rewrite IHlen.
      * by constructor.
    + destruct (Split s sep) as [|piece pieces]; [done|]. split_and!.
      * destruct pieces as [|p pieces]; cbn [Join] in *;
          rewrite ?append_cons; by rewrite IHjoin.
      * cbn [length] in *. by rewrite IHlen.
      * apply Forall_cons in IHall as [Hp Hps]. constructor; [|done].
        unfold hasByte in *. cbn [countByte]. by rewrite Hc.
Qed.

(** ** The label handed to getClassId *)

Lemma Split_head_append (s r : string) (sep : ascii) :
  Split (s ++ String sep r) sep !! 0%nat = Split s sep !! 0%nat.
Proof.
  induction s as [|c s IH]; rewrite ?append_nil_l, ?append_cons;
    cbn [Split].
  - by rewrite Ascii.eqb_refl.
  - destruct (Ascii.eqb c sep); [done|].
    pose proof (Split_nonempty (s ++ String sep r) sep).
    pose proof (Split_nonempty s sep).
    destruct (Split (s ++ String sep r) sep), (Split s sep); try done.
    cbn in *. congruence.
Qed.

Lemma Split_whole (s : string) (sep : ascii) :
  hasByte sep s = false → Split s sep = [s].
Proof.
  unfold hasByte. induction s as [|c s IH]; cbn [Split countByte]; [done|].
  destruct (Ascii.eqb c sep); [done|]. cbn [Nat.add]. intros H.
  by rewrite (IH H).
Qed.

Lemma Split_head_prefix (s : string) (sep : ascii) :
  ∃ key, Split s sep !! 0%nat = Some key
         ∧ hasByte sep key = false
         ∧ (s = key ∨ ∃ rest, s = (key ++ String sep rest)%string).
Proof.
  induction s as [|c s (key & Hkey & Hno & Hs)]; cbn [Split].
  - exists EmptyString. split_and!; [done..|by left].
  - destruct (Ascii.eqb c sep) eqn:Hc.
    + apply Ascii.eqb_eq in Hc as ->. exists EmptyString.
      split_and!; [done..|right]. exists s. by rewrite append_nil_l.
    + destruct (Split s sep) as [|p ps]; [done|]. cbn in Hkey.
      injection Hkey as ->. exists (String c key). split_and!; [done| |].
      * unfold hasByte in *. cbn [countByte]. by rewrite Hc.
      * destruct Hs as [->|[rest ->]]; [by left|right].
        exists rest. by rewrite append_cons.
Qed.

(** X19.  The key [detectFromCapture] hands to [getClassId] is the first
    word of the first object's label.  For a label built by
    [performDetection] from a class name, that is the class name when the
    name holds no space, and otherwise only the part of the name before
    its first space - a key that differs from the class name. *)
Theorem classKey_first_word
    (obj : detectedObject) (objs : list detectedObject)
    (class : string) (pct : Z) :
  label obj = formatLabel class pct →
  classKey (obj :: objs) = Split class " " !! 0%nat
  ∧ (hasByte " " class = false → classKey (obj :: objs) = Some class)
  ∧ (hasByte " " class = true →
       ∃ key rest, classKey (obj :: objs) = Some key
         ∧ class = (key ++ String " " rest)%string
         ∧ hasByte " " key = false
         ∧ key ≠ class).
Proof.
  intros Hlabel.
  assert (Hkey : classKey (obj :: objs) = Split class " " !! 0%nat).
  { unfold classKey. cbn [lookup list_lookup mbind option_bind].
    rewrite Hlabel. unfold formatLabel.
    change (" - " ++ ?r)%string with (String " " ("- " ++ r)%string).
    apply Split_head_append. }
  rewrite Hkey. split_and!; [done| |].
  - intros Hno. by rewrite Split_whole.
  - intros Hhas.
    destruct (Split_head_prefix class " ") as (key & Hk & Hno & Hs).
    assert (Hne : key ≠ class) by (intros ->; congruence).
    destruct Hs as [->|[rest Hs]]; [done|]. by exists key, rest.
Qed.

Lemma classKey_first_word_witness :
  classKey [{| confidence := F32.zero; top := 0; left := 0; width := 0;
               height := 0; label := formatLabel "traffic light" 95 |}]
  = Some "traffic"%string.
Proof.
  exact (proj1 (classKey_first_word
                  {| confidence := F32.zero; top := 0; left := 0; width := 0;
                     height := 0; label := formatLabel "traffic light" 95 |}
                  [] "traffic light" 95 eq_refl)).
Defined.

(** ** insertDetections *)

Lemma insertLoop_rows (lastInsertId : Z) (objs : list detectedObject) :
  ∀ answers rows rows' ok,
    insertLoop lastInsertId objs answers rows = (rows', ok) →
    ∃ k, rows' = rows ++ map (detectionOf lastInsertId) (take k objs)
         ∧ if ok then k = length objs else (k < length objs)%nat.
Proof.
  induction objs as [|obj objs IH]; intros answers rows rows' ok;
    cbn [insertLoop].
  - intros [= <- <-]. exists 0%nat. by rewrite app_nil_r.
  - destruct answers as [|[] answers].
    + intros [= <- <-]. exists 0%nat. rewrite app_nil_r. cbn. split; [done|lia].
    + intros (k & -> & Hk)%IH. exists (S k). cbn [take map length].
      rewrite <- app_assoc. split; [done|]. destruct ok; lia.
    + intros [= <- <-]. exists 0%nat. rewrite app_nil_r. cbn. split; [done|lia].
Qed.

(** X20.  [insertDetections] writes the event row first (with the number
    of objects as its count) and then one detection row per object, in
    order, each with the event's id, and undoes nothing: when it returns
    an id, the event row and all detection rows are in the catalog; when
    it returns an error, either the event INSERT failed and nothing was
    written, or the event row is in the catalog with the rows of the
    first [k] objects only, [k] less than the count the event row
    states. *)
Theorem insertDetections_writes
    (store store' : Detections) (detectedObjects : list detectedObject)
    (classId : Z) (captureTime : string) (a : inserts) (result : option Z) :
  insertDetections store detectedObjects classId captureTime a
    = (store', result) →
  match result with
  | Some lastInsertId =>
      ins_event a = Some lastInsertId
      ∧ detection_events store'
        = detection_events store ++ [eventOf lastInsertId classId detectedObjects captureTime]
      ∧ detections store'
        = detections store ++ map (detectionOf lastInsertId) detectedObjects
  | None =>
      (ins_event a = None ∧ store' = store)
      ∨ ∃ lastInsertId k,
          ins_event a = Some lastInsertId
          ∧ (k < length detectedObjects)%nat
          ∧ detection_events store'
            = detection_events store ++ [eventOf lastInsertId classId detectedObjects captureTime]
          ∧ detections store'
            = detections store
              ++ map (detectionOf lastInsertId) (take k detectedObjects)
  end.
Proof.
  unfold insertDetections. intros H.
  destruct (ins_event a) as [id|]; [|injection H as <- <-; by left].
  destruct (insertLoop id detectedObjects (ins_detections a)
              (detections store)) as [rows ok] eqn:Hloop.
  apply insertLoop_rows in Hloop as (k & -> & Hk).
  injection H as <- <-. destruct ok.
  - subst k. by rewrite firstn_all.
  - right. by exists id, k.
Qed.

Lemma insertDetections_writes_witness :
  (ins_event {| ins_event := Some 7; ins_detections := [true; false] |}
     = None
   ∧ {| detection_events :=
          [{| event_id := 7; event_class := 1; event_count := 2;
              event_created := "t" |}];
        detections := [detectionOf 7 (box (F32.lit 9 10) 0 0 9 9)] |}
     = {| detection_events := []; detections := [] |})
  ∨ ∃ lastInsertId k,
      Some 7 = Some lastInsertId
      ∧ (k < 2)%nat
      ∧ [{| event_id := 7; event_class := 1; event_count := 2;
            event_created := "t" |}]
        = [] ++ [{| event_id := lastInsertId; event_class := 1;
                    event_count := 2; event_created := "t" |}]
      ∧ [detectionOf 7 (box (F32.lit 9 10) 0 0 9 9)]
        = [] ++ map (detectionOf lastInsertId)
                  (take k [box (F32.lit 9 10) 0 0 9 9;
                           box (F32.lit 8 10) 50 50 9 9]).
Proof.
  exact (insertDetections_writes
           {| detection_events := []; detections := [] |} _
           [box (F32.lit 9 10) 0 0 9 9; box (F32.lit 8 10) 50 50 9 9]
           1 "t" {| ins_event := Some 7; ins_detections := [true; false] |}
           None eq_refl).
Defined.

(** ** The device list and the launch loop *)

Lemma launchLoop_unrecognized (deviceIdList : list string) :
  ∀ i st,
    unrecognized (launchLoop i deviceIdList st)
    = unrecognized st
      ++ filter (λ d, getDeviceType d = -1) deviceIdList.
Proof.
  assert (Hty : ∀ d, (getDeviceType d <? 0) = true ↔ getDeviceType d = -1).
  { intros d. unfold getDeviceType, IMAGE, VIDEO, STREAM.
    repeat case_match; split; intros Hlt; try done; try lia. }
  induction deviceIdList as [|d ds IH]; intros i st; cbn [launchLoop].
  - by rewrite app_nil_r.
  - destruct (getDeviceType d <? 0) eqn:Hd; rewrite IH;
      cbn [unrecognized].
    + apply Hty in Hd. by rewrite filter_cons_True, <- app_assoc.
    + rewrite filter_cons_False; [done|]. intros H%Hty. congruence.
Qed.

(** X21.  The device list of [main].  Read from the catalog (flag "--")
    it is the non-empty stream addresses in table order; otherwise it is
    the pieces of the flag between commas, one more than there are
    commas.  [main] adds one to the wait group per entry and starts no
    pipeline for the entries of unrecognized type, so the counter exceeds
    the number of pipelines by the number of unrecognized entries; an
    empty piece of the flag is such an entry, while the catalog never
    contributes an empty address. *)
Theorem main_device_list (db : Database) (deviceIds : string) :
  let deviceIdList := deviceIdListOf db deviceIds in
  let st := mainLaunches deviceIdList in
  unrecognized st = filter (λ d, getDeviceType d = -1) deviceIdList
  ∧ wg_counter st - Z.of_nat (length (launched st))
    = Z.of_nat (length (unrecognized st))
  ∧ (deviceIds = "--"%string →
       deviceIdList
       = filter (λ addr, addr ≠ EmptyString) (map stream_address (stream db))
       ∧ EmptyString ∉ unrecognized st)
  ∧ (deviceIds ≠ "--"%string →
       Join deviceIdList "," = deviceIds
       ∧ wg_counter st = Z.of_nat (S (countByte "," deviceIds))
       ∧ (EmptyString ∈ deviceIdList → EmptyString ∈ unrecognized st)).
Proof.
  intros deviceIdList st.
  assert (Hun : unrecognized st
                = filter (λ d, getDeviceType d = -1) deviceIdList).
  { unfold st, mainLaunches. by rewrite launchLoop_unrecognized. }
  destruct (launchLoop_counts deviceIdList 0
              {| wg_counter := 0; launched := []; unrecognized := [] |})
    as [Hwg Hlen].
  fold (mainLaunches deviceIdList) in Hwg, Hlen. fold st in Hwg, Hlen.
  cbn [wg_counter launched unrecognized length] in Hwg, Hlen.
  split_and!; [done|lia| |].
  - intros ->. unfold deviceIdList, deviceIdListOf. cbn [String.eqb].
    split; [done|]. rewrite Hun. intros [_ Hin]%list_elem_of_filter.
    unfold deviceIdList, deviceIdListOf, getStreamAddress in Hin.
    cbn [String.eqb] in Hin. by apply list_elem_of_filter in Hin as [? _].
  - intros Hflag. apply String.eqb_neq in Hflag.
    unfold deviceIdList, deviceIdListOf in *. rewrite Hflag in *.
    destruct (Split_pieces deviceIds ",") as (Hjoin & Hcount & _).
    split_and!; [done|lia|].
    intros Hin. rewrite Hun. by apply list_elem_of_filter.
Qed.

(** ** Division in binary64 *)

Lemma new_location_locates (d r : Z) :
  0 < d → 0 ≤ r < d → locates d r (new_location d r).
Proof.
  intros Hd Hr. unfold new_location, new_location_even, new_location_odd.
  destruct (Z.even d) eqn:Heven.
  - destruct (Z.eqb_spec r 0) as [->|Hne]; [done|].
    destruct (Z.compare_spec (2 * r) d); cbn; lia.
  - destruct (Z.eqb_spec r 0) as [->|Hne]; [done|].
    destruct (Z.compare_spec (2 * r + 1) d) as [Heq|Hlt|Hgt]; cbn; try lia.
    rewrite <- Z.negb_odd in Heven. apply negb_false_iff in Heven.
    apply Z.odd_spec in Heven as [x Hx]. lia.
Qed.

Lemma digits_53 (p : positive) :
  2 ^ 52 ≤ Z.pos p < 2 ^ 53 → Zdigits2 (Z.pos p) = 53.
Proof.
  intros [Hlo Hhi]. cbn [Zdigits2]. fold (digits p).
  pose proof (digits_le p 53 ltac:(lia) Hhi).
  pose proof (digits_ge p 52 ltac:(lia) Hlo). lia.
Qed.

Lemma digits_54 (p : positive) :
  2 ^ 53 ≤ Z.pos p < 2 ^ 54 → Zdigits2 (Z.pos p) = 54.
Proof.
  intros [Hlo Hhi]. cbn [Zdigits2]. fold (digits p).
  pose proof (digits_le p 54 ltac:(lia) Hhi).
  pose proof (digits_ge p 53 ltac:(lia) Hlo). lia.
Qed.

Lemma shr_fexp_keep (p : positive) (e : Z) (l : location) :
  2 ^ 52 ≤ Z.pos p < 2 ^ 53 → -1074 ≤ e →
  shr_fexp 53 1024 (Z.pos p) e l = (shr_record_of_loc (Z.pos p) l, e).
Proof.
  intros Hp He. unfold shr_fexp. rewrite digits_53 by done.
  by replace (fexp 53 1024 (53 + e) - e) with 0 by (unfold fexp, emin; lia).
Qed.

Lemma shr_fexp_shift (p : positive) (e : Z) (l : location) :
  2 ^ 53 ≤ Z.pos p < 2 ^ 54 → -1075 ≤ e →
  shr_fexp 53 1024 (Z.pos p) e l
  = (shr_1 (shr_record_of_loc (Z.pos p) l), e + 1).
Proof.
  intros Hp He. unfold shr_fexp. rewrite digits_54 by done.
  by replace (fexp 53 1024 (54 + e) - e) with 1 by (unfold fexp, emin; lia).
Qed.

Lemma loc_of_record (m : Z) (l : location) :
  loc_of_shr_record (shr_record_of_loc m l) = l
  ∧ shr_m (shr_record_of_loc m l) = m.
Proof. by destruct l as [|[]]. Qed.

(** The second half of [binary_round_aux]: a rounded mantissa of 53
    bits is kept, the carry [2^53] is renormalised. *)
Lemma renormalise (q e : Z) :
  2 ^ 52 ≤ q ≤ 2 ^ 53 → -1074 ≤ e ≤ 970 →
  ∃ m k,
    (let '(mrs, e') := shr_fexp 53 1024 q e loc_Exact in
     match shr_m mrs with
     | 0 => S754_zero false
     | Z.pos m => if e' <=? 1024 - 53 then S754_finite false m e'
                  else S754_infinity false
     | Z.neg _ => S754_nan
     end) = S754_finite false m (e + k)
    ∧ 2 ^ 52 ≤ Z.pos m < 2 ^ 53 ∧ 0 ≤ k ≤ 1 ∧ Z.pos m * 2 ^ k = q.
Proof.
  intros Hq He. destruct q as [|p|p]; [lia| |lia].
  destruct (decide (Z.pos p = 2 ^ 53)) as [Hcarry|Hkeep].
  - rewrite shr_fexp_shift by lia. cbn [shr_record_of_loc].
    destruct p as [p'|p'|]; [lia| |lia]. cbn [shr_1 shr_m orb].
    exists p', 1. destruct (Z.leb_spec (e + 1) (1024 - 53)); [|lia].
    split_and!; [done|lia..].
  - rewrite shr_fexp_keep by lia. cbn [shr_record_of_loc shr_m].
    exists p, 0. destruct (Z.leb_spec e (1024 - 53)); [|lia].
    rewrite Z.add_0_r. split_and!; [done|lia..].
Qed.

(** Rounding a quotient [q + r/d] whose integer part has 53 or 54 bits:
    the result is a normal number within half a unit in the last place
    of the quotient. *)
Lemma binary_round_aux_quotient (q e d r : Z) (l : location) :
  2 ^ 52 ≤ q < 2 ^ 54 → -1074 ≤ e ≤ 968 →
  0 < d → 0 ≤ r < d → locates d r l →
  ∃ m k,
    binary_round_aux 53 1024 false q e l = S754_finite false m (e + k)
    ∧ 2 ^ 52 ≤ Z.pos m < 2 ^ 53 ∧ 0 ≤ k ≤ 2
    ∧ (2 * Z.pos m - 1) * 2 ^ k * d ≤ 2 * (q * d + r)
    ∧ 2 * (q * d + r) ≤ (2 * Z.pos m + 1) * 2 ^ k * d.
Proof.
  intros Hq He Hd Hr Hl. unfold binary_round_aux.
  destruct q as [|p|p]; [lia| |lia].
  destruct (Z.lt_ge_cases (Z.pos p) (2 ^ 53)) as [H53|H54].
  - rewrite shr_fexp_keep by lia.
    destruct (loc_of_record (Z.pos p) l) as [-> ->].
    set (q' := round_nearest_even (Z.pos p) l).
    assert (Hq' : 2 ^ 52 ≤ q' ≤ 2 ^ 53
                  ∧ (2 * q' - 1) * d ≤ 2 * (Z.pos p * d + r)
                  ∧ 2 * (Z.pos p * d + r) ≤ (2 * q' + 1) * d).
    { unfold q', round_nearest_even.
      destruct l as [|[]]; cbn [locates] in Hl;
        try destruct (Z.even (Z.pos p)); nia. }
    destruct Hq' as (Hq' & Hlo & Hhi).
    destruct (renormalise q' e) as (m & k & -> & Hm & Hk & Hval); [lia..|].
    exists m, k. split_and!; [done|lia..| |].
    + assert (k = 0 ∨ k = 1) as [-> | ->] by lia; nia.
    + assert (k = 0 ∨ k = 1) as [-> | ->] by lia; nia.
  - rewrite shr_fexp_shift by lia.
    set (mrs := shr_1 (shr_record_of_loc (Z.pos p) l)).
    set (q' := round_nearest_even (shr_m mrs) (loc_of_shr_record mrs)).
    assert (Hq' : 2 ^ 52 ≤ q' ≤ 2 ^ 53
                  ∧ (2 * q' - 1) * d ≤ Z.pos p * d + r
                  ∧ Z.pos p * d + r ≤ (2 * q' + 1) * d).
    { unfold q', mrs. destruct p as [h|h|]; [| |lia];
        destruct l as [|[]]; cbn [locates] in Hl;
        cbn [shr_record_of_loc shr_1 shr_m loc_of_shr_record orb
             round_nearest_even];
        try destruct (Z.even (Z.pos h)); nia. }
    destruct Hq' as (Hq' & Hlo & Hhi).
    destruct (renormalise q' (e + 1)) as (m & k & -> & Hm & Hk & Hval);
      [lia..|].
    exists m, (1 + k). rewrite Z.add_assoc. split_and!; [done|lia..| |].
    + assert (k = 0 ∨ k = 1) as [-> | ->] by lia;
        [change (2 ^ (1 + 0)) with 2|change (2 ^ (1 + 1)) with 4]; nia.
    + assert (k = 0 ∨ k = 1) as [-> | ->] by lia;
        [change (2 ^ (1 + 0)) with 2|change (2 ^ (1 + 1)) with 4]; nia.
Qed.

(** The quotient of two positive normal numbers (away from overflow and
    underflow) is a normal number within half a unit in the last place
    of the exact quotient of the mantissas. *)
Lemma SFdiv_normal (m1 m2 : positive) (e1 e2 : Z) :
  2 ^ 52 ≤ Z.pos m1 < 2 ^ 53 → 2 ^ 52 ≤ Z.pos m2 < 2 ^ 53 →
  -1000 ≤ e1 - e2 ≤ 1000 →
  ∃ m k,
    SFdiv 53 1024 (S754_finite false m1 e1) (S754_finite false m2 e2)
    = S754_finite false m (e1 - e2 - 53 + k)
    ∧ 2 ^ 52 ≤ Z.pos m < 2 ^ 53 ∧ 0 ≤ k ≤ 2
    ∧ (2 * Z.pos m - 1) * 2 ^ k * Z.pos m2 ≤ Z.pos m1 * 2 ^ 54
    ∧ Z.pos m1 * 2 ^ 54 ≤ (2 * Z.pos m + 1) * 2 ^ k * Z.pos m2.
Proof.
  intros H1 H2 He. cbn [SFdiv xorb]. unfold SFdiv_core_binary.
  rewrite !digits_53 by done.
  replace (Z.min (fexp 53 1024 (53 + e1 - (53 + e2))) (e1 - e2))
    with (e1 - e2 - 53) by (unfold fexp, emin; lia).
  replace (e1 - e2 - (e1 - e2 - 53)) with 53 by lia.
  rewrite Z.shiftl_mul_pow2 by lia.
  pose proof (Z_div_mod (Z.pos m1 * 2 ^ 53) (Z.pos m2) ltac:(lia)) as Hdiv.
  destruct (Z.div_eucl (Z.pos m1 * 2 ^ 53) (Z.pos m2)) as [q r].
  destruct Hdiv as [Hqr Hr].
  assert (Hq : 2 ^ 52 ≤ q < 2 ^ 54) by nia.
  destruct (binary_round_aux_quotient q (e1 - e2 - 53) (Z.pos m2) r
              (new_location (Z.pos m2) r))
    as (m & k & -> & Hm & Hk & Hlo & Hhi);
    [lia|lia|lia|lia|by apply new_location_locates|].
  exists m, k. split_and!; [done|lia..].
Qed.

Lemma Zfloat_normal (z : Z) :
  0 < z < 2 ^ 53 →
  ∃ m j, Zfloat z = S754_finite false m (- j)
         ∧ 0 ≤ j ≤ 52 ∧ Z.pos m = z * 2 ^ j
         ∧ 2 ^ 52 ≤ Z.pos m < 2 ^ 53.
Proof.
  intros Hz. destruct z as [|p|p]; [lia| |lia].
  assert (Hd : digits p ≤ 53) by (apply digits_le; lia).
  pose proof (digits_pos p) as Hpos.
  pose proof (digits_bounds p) as Hb. fold (digits p) in Hb.
  exists (shl p (Z.to_nat (53 - digits p))), (53 - digits p).
  split_and!; [unfold Zfloat, norm; f_equal; lia|lia|lia| | |];
    rewrite shl_val, Z2Nat.id by lia.
  - done.
  - replace (2 ^ 52) with (2 ^ (digits p - 1) * 2 ^ (53 - digits p))
      by (rewrite <- Z.pow_add_r by lia; f_equal; lia).
    apply Z.mul_le_mono_nonneg_r; [apply Z.pow_nonneg|]; lia.
  - replace (2 ^ 53) with (2 ^ digits p * 2 ^ (53 - digits p))
      by (rewrite <- Z.pow_add_r by lia; f_equal; lia).
    apply Z.mul_lt_mono_pos_r; [apply Z.pow_pos_nonneg|]; lia.
Qed.

(** The binary64 quotient of two positive integers below 2^53: a normal
    number [m * 2^e] with [e = a - b + 1] and
    [(2m - 1) * 2^a * y <= x * 2^b <= (2m + 1) * 2^a * y]. *)
Lemma div_integers (x y : Z) :
  0 < x < 2 ^ 53 → 0 < y < 2 ^ 53 →
  ∃ m a b,
    F64.div (Zfloat x) (Zfloat y) = S754_finite false m (a - b + 1)
    ∧ 2 ^ 52 ≤ Z.pos m < 2 ^ 53 ∧ 0 ≤ a ∧ 0 ≤ b
    ∧ (2 * Z.pos m - 1) * y * 2 ^ a ≤ x * 2 ^ b
    ∧ x * 2 ^ b ≤ (2 * Z.pos m + 1) * y * 2 ^ a.
Proof.
  intros Hx Hy.
  destruct (Zfloat_normal x Hx) as (m1 & j1 & -> & Hj1 & Hv1 & Hm1).
  destruct (Zfloat_normal y Hy) as (m2 & j2 & -> & Hj2 & Hv2 & Hm2).
  destruct (SFdiv_normal m1 m2 (- j1) (- j2) Hm1 Hm2 ltac:(lia))
    as (m & k & Hdiv & Hm & Hk & Hlo & Hhi).
  exists m, (j2 + k), (j1 + 54). unfold F64.div, F64.prec, F64.emax.
  rewrite Hdiv. rewrite !Z.pow_add_r by lia. rewrite Hv1, Hv2 in *.
  split_and!; [f_equal; lia|lia..].
Qed.

(** Cancelling a power of two. *)
Lemma pow2_le_cancel (u v a : Z) : 0 ≤ a → u * 2 ^ a ≤ v * 2 ^ a → u ≤ v.
Proof.
  intros Ha H. apply Z.mul_le_mono_pos_r in H; [done|].
  by apply Z.pow_pos_nonneg.
Qed.

(** The constant 0.7 of [intersection > 0.7]. *)
Lemma lit_7_10 : F64.lit 7 10 = S754_finite false 6305039478318694 (-53).
Proof. vm_compute. reflexivity. Qed.

(** Products with a common positive factor. *)
Lemma mul_le_r (u v y : Z) : 0 ≤ y → u ≤ v → u * y ≤ v * y.
Proof. intros. by apply Z.mul_le_mono_nonneg_r. Qed.

Lemma pow2_le_shift (x a b c : Z) :
  0 ≤ x → 0 ≤ a → 0 ≤ c → b ≤ a + c → x * 2 ^ b ≤ x * 2 ^ c * 2 ^ a.
Proof.
  intros Hx Ha Hc Hb. rewrite <- Z.mul_assoc, <- Z.pow_add_r by lia.
  apply Z.mul_le_mono_nonneg_l; [lia|].
  destruct (Z.le_gt_cases 0 b).
  - apply Z.pow_le_mono_r; lia.
  - rewrite Z.pow_neg_r by lia. apply Z.pow_nonneg. lia.
Qed.

Lemma pow2_ge_shift (x a b c : Z) :
  0 ≤ x → 0 ≤ a → 0 ≤ c → a + c ≤ b → x * 2 ^ c * 2 ^ a ≤ x * 2 ^ b.
Proof.
  intros Hx Ha Hc Hb. rewrite <- Z.mul_assoc, <- Z.pow_add_r by lia.
  apply Z.mul_le_mono_nonneg_l; [lia|].
  apply Z.pow_le_mono_r; lia.
Qed.

(** The order of two positive finite numbers: exponents first, then
    mantissas. *)
Lemma SFcompare_positive (m1 m2 : positive) (e1 e2 : Z) :
  SFcompare (S754_finite false m1 e1) (S754_finite false m2 e2)
  = Some match e1 ?= e2 with
         | Lt => Lt
         | Gt => Gt
         | Eq => Z.pos m1 ?= Z.pos m2
         end.
Proof.
  cbn [SFcompare]. change (Pos.compare_cont Eq) with Pos.compare.
  by rewrite Pos2Z.inj_compare.
Qed.

Lemma div_gt_seven_tenths (x y : Z) :
  0 < x → x ≤ y → y < 2 ^ 53 →
  F64.gt (F64.div (Zfloat x) (Zfloat y)) (F64.lit 7 10) = (7 * y <? 10 * x).
Proof.
  intros Hx Hxy Hy.
  destruct (div_integers x y ltac:(lia) ltac:(lia))
    as (m & a & b & -> & Hm & Ha & Hb & Hlo & Hhi).
  rewrite lit_7_10. unfold F64.gt, SFltb. rewrite SFcompare_positive.
  destruct (Z.compare_spec (-53) (a - b + 1)) as [Heq|Hlt|Hgt].
  - (* the same exponent: the mantissas decide *)
    pose proof (pow2_le_shift x a b 54 ltac:(lia) Ha ltac:(lia) ltac:(lia)).
    pose proof (pow2_ge_shift x a b 54 ltac:(lia) Ha ltac:(lia) ltac:(lia)).
    assert (Hlo' : (2 * Z.pos m - 1) * y ≤ x * 2 ^ 54)
      by (apply (pow2_le_cancel _ _ a Ha); lia).
    assert (Hhi' : x * 2 ^ 54 ≤ (2 * Z.pos m + 1) * y)
      by (apply (pow2_le_cancel _ _ a Ha); lia).
    destruct (Z.compare_spec 6305039478318694 (Z.pos m)) as [Hm'|Hm'|Hm'];
      symmetry.
    + rewrite <- Hm' in *. apply Z.ltb_ge. lia.
    + apply Z.ltb_lt.
      pose proof (mul_le_r (2 * 6305039478318694 + 1) (2 * Z.pos m - 1) y
                    ltac:(lia) ltac:(lia)).
      lia.
    + apply Z.ltb_ge.
      pose proof (mul_le_r (2 * Z.pos m + 1) (2 * 6305039478318694 - 1) y
                    ltac:(lia) ltac:(lia)).
      lia.
  - (* a greater exponent *)
    pose proof (pow2_le_shift x a b 53 ltac:(lia) Ha ltac:(lia) ltac:(lia)).
    assert (Hlo' : (2 * Z.pos m - 1) * y ≤ x * 2 ^ 53)
      by (apply (pow2_le_cancel _ _ a Ha); lia).
    pose proof (mul_le_r (2 ^ 53 - 1) (2 * Z.pos m - 1) y
                  ltac:(lia) ltac:(lia)).
    symmetry. apply Z.ltb_lt. lia.
  - (* a smaller exponent *)
    pose proof (pow2_ge_shift x a b 55 ltac:(lia) Ha ltac:(lia) ltac:(lia)).
    assert (Hhi' : x * 2 ^ 55 ≤ (2 * Z.pos m + 1) * y)
      by (apply (pow2_le_cancel _ _ a Ha); lia).
    pose proof (mul_le_r (2 * Z.pos m + 1) (2 ^ 54 - 1) y
                  ltac:(lia) ltac:(lia)).
    symmetry. apply Z.ltb_ge. lia.
Qed.

Lemma Zfloat_1 : Zfloat 1 = S754_finite false 4503599627370496 (-52).
Proof. vm_compute. reflexivity. Qed.

Lemma div_le_one_aux (x y : Z) :
  0 < x → x ≤ y → y < 2 ^ 53 →
  ∃ m e, F64.div (Zfloat x) (Zfloat y) = S754_finite false m e
         ∧ e ≤ -52
         ∧ (e = -52 → (2 * Z.pos m - 1) * y ≤ x * 2 ^ 53).
Proof.
  intros Hx Hxy Hy.
  destruct (div_integers x y ltac:(lia) ltac:(lia))
    as (m & a & b & -> & Hm & Ha & Hb & Hlo & Hhi).
  exists m, (a - b + 1). split; [done|].
  assert (Hexp : a - b + 1 ≤ -52).
  { destruct (Z.le_gt_cases (a - b + 1) (-52)) as [|Hgt]; [done|exfalso].
    pose proof (pow2_le_shift x a b 52 ltac:(lia) Ha ltac:(lia) ltac:(lia)).
    assert (Hlo' : (2 * Z.pos m - 1) * y ≤ x * 2 ^ 52)
      by (apply (pow2_le_cancel _ _ a Ha); lia).
    pose proof (mul_le_r (2 ^ 53 - 1) (2 * Z.pos m - 1) y
                  ltac:(lia) ltac:(lia)).
    lia. }
  split; [done|].
  intros He.
  pose proof (pow2_le_shift x a b 53 ltac:(lia) Ha ltac:(lia) ltac:(lia)).
  apply (pow2_le_cancel _ _ a Ha). lia.
Qed.

Lemma div_le_one (x y : Z) :
  0 < x → x ≤ y → y < 2 ^ 53 →
  SFleb (F64.div (Zfloat x) (Zfloat y)) (Zfloat 1) = true
  ∧ (F64.div (Zfloat x) (Zfloat y) = Zfloat 1 → x = y).
Proof.
  intros Hx Hxy Hy.
  destruct (div_le_one_aux x y Hx Hxy Hy) as (m & e & -> & Hexp & Hsame).
  rewrite Zfloat_1. split.
  - unfold SFleb. rewrite SFcompare_positive.
    destruct (Z.compare_spec e (-52)) as [Heq|Hlt|Hgt]; [|done|lia].
    specialize (Hsame Heq).
    destruct (Z.compare_spec (Z.pos m) 4503599627370496) as [Hm'|Hm'|Hm'];
      [done|done|].
    exfalso.
    pose proof (mul_le_r (2 ^ 53 + 1) (2 * Z.pos m - 1) y
                  ltac:(lia) ltac:(lia)).
    lia.
  - intros [= Hm' He]. specialize (Hsame He).
    assert (Hmz : Z.pos m = 4503599627370496) by (by rewrite Hm').
    clear Hm'. rewrite Hmz in Hsame. lia.
Qed.

(** ** The overlap ratio against its threshold *)

(** The comparison [bbIntersectionOverUnion(a, b) > 0.7] in pixels. *)
Lemma ratio_above_threshold (a b : detectedObject) :
  wellFormed a → wellFormed b →
  F64.gt (bbIntersectionOverUnion a b) (F64.lit 7 10)
  = (7 * (boxPixels a + boxPixels b - interPixels a b)
     <? 10 * interPixels a b).
Proof.
  intros Ha Hb.
  rewrite bbIntersectionOverUnion_exact by done.
  destruct (pixel_counts a b Ha Hb) as (Hi0 & Hia & Hib & Hpa & Hpb).
  destruct (decide (interPixels a b = 0)) as [H0|H0].
  - destruct (div_nonneg (interPixels a b)
                (boxPixels a + boxPixels b - interPixels a b))
      as (_ & _ & Hzero); [lia..|].
    rewrite (Hzero H0), lit_7_10. symmetry. apply Z.ltb_ge. lia.
  - apply div_gt_seven_tenths; lia.
Qed.

(** X22.  On well-formed boxes the test [intersection > 0.7] of
    [performDetection] is decided as in exact arithmetic: it holds when
    10 times the shared pixels exceed 7 times the pixels of the union,
    and only then.  Neither the rounding of the quotient nor the rounding
    of the constant 0.7 moves a pair of boxes across the threshold. *)
Theorem overlaps_exact (a b : detectedObject) :
  wellFormed a → wellFormed b →
  overlaps a b
  = (7 * (boxPixels a + boxPixels b - interPixels a b)
     <? 10 * interPixels a b).
Proof.
  intros Ha Hb. unfold overlaps. by apply ratio_above_threshold.
Qed.

Lemma overlaps_exact_witness :
  overlaps (box F32.zero 0 0 99 99) (box F32.zero 10 0 99 99) = true.
Proof.
  rewrite (overlaps_exact (box F32.zero 0 0 99 99) (box F32.zero 10 0 99 99))
    by (unfold wellFormed; simpl; lia).
  reflexivity.
Defined.

Lemma same_pixels (a b : detectedObject) :
  wellFormed a → wellFormed b →
  interPixels a b = boxPixels a + boxPixels b - interPixels a b ↔
  left a = left b ∧ top a = top b ∧ width a = width b ∧ height a = height b.
Proof.
  intros (Hwa & Hha & Hla & Hta) (Hwb & Hhb & Hlb & Htb).
  pose proof (overlapTerm_bounds (left a) (width a) (left b) (width b)
                (proj1 Hwa) (proj1 Hwb)) as [Hx Hx'].
  pose proof (overlapTerm_bounds (top a) (height a) (top b) (height b)
                (proj1 Hha) (proj1 Hhb)) as [Hy Hy'].
  unfold interPixels, boxPixels. split.
  - intros Heq.
    set (ox := overlapTerm (left a) (left a + width a) (left b)
                 (left b + width b)) in *.
    set (oy := overlapTerm (top a) (top a + height a) (top b)
                 (top b + height b)) in *.
    assert (Hox : ox = width a + 1 ∧ ox = width b + 1) by nia.
    assert (Hoy : oy = height a + 1 ∧ oy = height b + 1) by nia.
    unfold ox, oy, overlapTerm in Hox, Hoy. lia.
  - intros (Hl & Ht & Hw & Hh). rewrite Hl, Ht, Hw, Hh.
    unfold overlapTerm.
    replace (Z.max 0 (Z.min (left b + width b) (left b + width b)
                      - Z.max (left b) (left b) + 1))
      with (width b + 1) by lia.
    replace (Z.max 0 (Z.min (top b + height b) (top b + height b)
                      - Z.max (top b) (top b) + 1))
      with (height b + 1) by lia.
    lia.
Qed.

(** X23.  On well-formed boxes the overlap ratio is at most 1.0, and it
    is exactly 1.0 for two boxes with the same corner, width and height
    and for no other pair. *)
Theorem bbIntersectionOverUnion_at_most_one (a b : detectedObject) :
  wellFormed a → wellFormed b →
  SFleb (bbIntersectionOverUnion a b) (F64.of_int 1) = true
  ∧ (bbIntersectionOverUnion a b = F64.of_int 1 ↔
     left a = left b ∧ top a = top b
     ∧ width a = width b ∧ height a = height b).
Proof.
  intros Ha Hb. rewrite bbIntersectionOverUnion_exact by done.
  destruct (pixel_counts a b Ha Hb) as (Hi0 & Hia & Hib & Hpa & Hpb).
  rewrite <- (same_pixels a b Ha Hb).
  change (F64.of_int 1) with (binary_normalize 53 1024 1 0 false).
  rewrite of_int_Zfloat by (simpl; lia).
  set (i := interPixels a b) in *.
  set (u := boxPixels a + boxPixels b - i).
  destruct (decide (i = 0)) as [H0|H0].
  - destruct (div_nonneg i u) as (_ & _ & Hzero); [lia..|].
    rewrite (Hzero H0), Zfloat_1. split; [done|]. split; [done|]. lia.
  - destruct (div_le_one i u) as [Hle Heq]; [lia..|].
    split; [done|]. split; [done|].
    intros Hiu. rewrite <- Hiu. apply div_self. lia.
Qed.

Lemma bbIntersectionOverUnion_at_most_one_witness :
  SFleb (bbIntersectionOverUnion (box F32.zero 0 0 99 99)
                                 (box F32.zero 10 0 99 99))
        (F64.of_int 1) = true.
Proof.
  apply (bbIntersectionOverUnion_at_most_one
           (box F32.zero 0 0 99 99) (box F32.zero 10 0 99 99));
    unfold wellFormed; simpl; lia.
Defined.

(** ** performDetection as a fusion pass *)

(** C1.  [performDetection] is the fusion pass [fuse] run over the
    candidates that passed the confidence threshold, in arrival order
    ([fuse] takes them one at a time, left to right; a frame on which the
    code panics has neither candidates nor a result).  Write "[a] overlaps
    [b] above 0.7" for [bbIntersectionOverUnion(a, b) > 0.7] as the code
    computes it in binary64.  For one candidate [cur] and the entries
    [acc] accumulated so far: if some entry overlaps [cur] above 0.7,
    nothing is added (the length stays the same) and the entry at each
    index is replaced by [cur] exactly when it overlaps [cur] above 0.7
    and [cur]'s confidence is strictly greater; if no entry overlaps
    [cur] above 0.7 (an empty [acc] among them), [cur] is appended.  On
    well-formed boxes "above 0.7" is the comparison of the pixel counts:
    10 times the shared pixels exceed 7 times the pixels of the union.
    Two candidates with overlap above 0.7 and confidences 0.8 then 0.95
    fuse to the single object of confidence 0.95; two candidates that do
    not overlap above 0.7 are both kept, in arrival order. *)
Theorem performDetection_fusion_pass
    (confidenceTreshold : F32.t) (classes : list string) (frame : Frame)
    (results : list Output) (acc : list detectedObject) (cur : detectedObject) :
  let above a b := F64.gt (bbIntersectionOverUnion a b) (F64.lit 7 10) in
  performDetection confidenceTreshold classes frame results
    = fuse <$> passing confidenceTreshold classes frame results
  ∧ fuse [] = []
  ∧ (∀ cands c, fuse (cands ++ [c]) = fuseCandidate (fuse cands) c)
  ∧ ((∃ obj, obj ∈ acc ∧ above cur obj = true) →
       length (fuseCandidate acc cur) = length acc
       ∧ ∀ i obj, acc !! i = Some obj →
           fuseCandidate acc cur !! i
           = Some (if above cur obj
                      && F32.gt (confidence cur) (confidence obj)
                   then cur else obj))
  ∧ ((∀ obj, obj ∈ acc → above cur obj = false) →
       fuseCandidate acc cur = acc ++ [cur])
  ∧ (∀ a b, wellFormed a → wellFormed b →
       above a b
       = (7 * (boxPixels a + boxPixels b - interPixels a b)
          <? 10 * interPixels a b))
  ∧ (∀ c1 c2, above c2 c1 = true →
       confidence c1 = F32.lit 8 10 → confidence c2 = F32.lit 95 100 →
       fuse [c1; c2] = [c2] ∧ confidence c2 = F32.lit 95 100)
  ∧ (∀ c1 c2, above c2 c1 = false → fuse [c1; c2] = [c1; c2]).
Proof.
  intros above.
  assert (Habove : ∀ a b, above a b = overlaps a b) by done.
  split_and!.
  - apply performDetection_fuse.
  - done.
  - apply fuse_snoc.
  - intros Hex. setoid_rewrite Habove in Hex. apply existsb_elem_of in Hex.
    rewrite fuseCandidate_spec, Hex. split.
    + by rewrite length_map.
    + intros i obj Hobj.
      by rewrite (lookup_map _ _ _ _ Hobj).
  - intros Hnone. setoid_rewrite Habove in Hnone.
    apply existsb_none in Hnone.
    by rewrite fuseCandidate_spec, Hnone.
  - intros a b. apply ratio_above_threshold.
  - intros c1 c2 Hov H1 H2. split; [|done]. rewrite Habove in Hov.
    unfold fuse. cbn [foldl]. rewrite !fuseCandidate_spec.
    cbn [existsb map app orb]. rewrite Hov. cbn [orb map].
    assert (Hgt : F32.gt (F32.lit 95 100) (F32.lit 8 10) = true)
      by (vm_compute; reflexivity).
    unfold replaced. by rewrite Hov, H1, H2, Hgt.
  - intros c1 c2 Hov. rewrite Habove in Hov.
    unfold fuse. cbn [foldl]. rewrite !fuseCandidate_spec.
    cbn [existsb map app orb]. by rewrite Hov.
Qed.

(** The examples of C1 on concrete boxes of 100 x 100 pixels: the second
    box, 10 pixels to the right of the first, replaces it; the third, 300
    pixels to the right, stays apart from both. *)
Lemma performDetection_fusion_pass_witness :
  fuse [box (F32.lit 8 10) 0 0 99 99; box (F32.lit 95 100) 10 0 99 99]
    = [box (F32.lit 95 100) 10 0 99 99]
  ∧ fuse [box (F32.lit 8 10) 0 0 99 99; box (F32.lit 9 10) 300 0 99 99]
    = [box (F32.lit 8 10) 0 0 99 99; box (F32.lit 9 10) 300 0 99 99]
  ∧ fuseCandidate [box (F32.lit 95 100) 10 0 99 99]
                  (box (F32.lit 9 10) 300 0 99 99)
    = [box (F32.lit 95 100) 10 0 99 99; box (F32.lit 9 10) 300 0 99 99]
  ∧ F64.gt (bbIntersectionOverUnion (box (F32.lit 9 10) 300 0 99 99)
                                    (box (F32.lit 95 100) 10 0 99 99))
           (F64.lit 7 10)
    = (7 * (10000 + 10000 - 0) <? 10 * 0).
Proof.
  destruct (performDetection_fusion_pass F32.zero [] emptyMat []
              [box (F32.lit 95 100) 10 0 99 99]
              (box (F32.lit 9 10) 300 0 99 99))
    as (_ & _ & _ & _ & Happend & Hpixels & Hfused & Hapart).
  split_and!.
  - apply Hfused; vm_compute; reflexivity.
  - apply Hapart. vm_compute. reflexivity.
  - apply Happend. intros obj Hobj.
    apply list_elem_of_singleton in Hobj as ->. vm_compute. reflexivity.
  - apply (Hpixels (box (F32.lit 9 10) 300 0 99 99)
                   (box (F32.lit 95 100) 10 0 99 99));
      unfold wellFormed; cbn; lia.
Defined.

(** ** The two run modes *)










Section Modes.
Variable confidenceTreshold : F32.t.
Variable classes : list string.
Variable prod : bool.
Variable infer : Frame → list Output.
Variable Rectangle : Frame → Z * Z * Z * Z → Frame.
Variable PutText : Frame → string → Z * Z → Frame.
Variable loc : Location.
Variable stamp : Z → Z.

Abbreviation handle :=
  (handleFrame confidenceTreshold classes prod infer Rectangle PutText loc
               stamp).
Abbreviation body :=
  (loopBody confidenceTreshold classes prod infer Rectangle PutText loc stamp).
Abbreviation loop :=
  (captureLoop confidenceTreshold classes prod infer Rectangle PutText loc
               stamp).



End Modes.


(** ** Rounding in binary32 *)

Lemma shr_1_fields (mrs : shr_record) :
  0 ≤ shr_m mrs →
  shr_m (shr_1 mrs) = shr_m mrs / 2
  ∧ shr_r (shr_1 mrs) = Z.odd (shr_m mrs)
  ∧ shr_s (shr_1 mrs) = shr_r mrs || shr_s mrs.
Proof.
  destruct mrs as [[|[p|p|]|p] r s]; cbn [shr_m shr_r shr_s shr_1];
    intros Hm; try lia; split_and!; try done.
  - rewrite Pos2Z.inj_xI. apply Z.div_unique with 1; lia.
  - rewrite Pos2Z.inj_xO. apply Z.div_unique with 0; lia.
Qed.

(** Shifting [k] bits out of [P]: the quotient is left, and the two
    flags are clear when nothing was lost. *)
Lemma shr_iter (P : Z) (k : nat) :
  0 ≤ P →
  let mrs := Nat.iter k shr_1 {| shr_m := P; shr_r := false; shr_s := false |} in
  shr_m mrs = P / 2 ^ Z.of_nat k
  ∧ (P mod 2 ^ Z.of_nat k = 0 → shr_r mrs = false ∧ shr_s mrs = false).
Proof.
  intros HP. induction k as [|k [IHm IHf]].
  - cbn. rewrite Z.div_1_r. done.
  - cbn zeta in *. rewrite Nat.iter_succ.
    set (mrs := Nat.iter k shr_1 _) in *.
    assert (Hpos : 0 ≤ shr_m mrs)
      by (rewrite IHm; apply Z.div_pos; [lia|apply Z.pow_pos_nonneg; lia]).
    destruct (shr_1_fields mrs Hpos) as (-> & -> & ->).
    rewrite Nat2Z.inj_succ, Z.pow_succ_r by lia.
    assert (H2k : 0 < 2 ^ Z.of_nat k) by (apply Z.pow_pos_nonneg; lia).
    split.
    + rewrite IHm, Z.div_div by lia. f_equal. lia.
    + intros Hmod.
      apply Z.mod_divide in Hmod as [c Hc]; [|lia].
      assert (Hmod' : P mod 2 ^ Z.of_nat k = 0).
      { apply Z.mod_divide; [lia|]. exists (c * 2). lia. }
      destruct (IHf Hmod') as [-> ->]. split; [|done].
      rewrite IHm.
      replace P with (c * 2 * 2 ^ Z.of_nat k) by lia.
      rewrite Z.div_mul by lia.
      by rewrite Z.odd_mul, andb_false_r.
Qed.

Lemma round_nearest_even_bounds (M : Z) (l : location) :
  M ≤ round_nearest_even M l ≤ M + 1
  ∧ (l = loc_Exact → round_nearest_even M l = M).
Proof.
  unfold round_nearest_even.
  destruct l as [|[]]; try destruct (Z.even M); split; (done || lia).
Qed.

Lemma digits_24 (p : positive) : Z.pos p < 2 ^ 24 → digits p ≤ 24.
Proof. intros Hp. apply digits_le; lia. Qed.

(** The second half of [binary_round_aux] in binary32, on a mantissa
    that fits: it is kept, and the carry [2^24] is renormalised. *)
Lemma renormalise32 (M g : Z) :
  0 ≤ M ≤ 2 ^ 24 → -149 ≤ g ≤ 103 →
  let R :=
    let '(mrs, e') := shr_fexp 24 128 M g loc_Exact in
    match shr_m mrs with
    | 0 => S754_zero false
    | Z.pos m => if e' <=? 128 - 24 then S754_finite false m e'
                 else S754_infinity false
    | Z.neg _ => S754_nan
    end in
  (M = 0 ∧ R = S754_zero false)
  ∨ ∃ m e, R = S754_finite false m e
           ∧ (e = g ∧ Z.pos m = M ∧ M < 2 ^ 24
              ∨ e = g + 1 ∧ 2 * Z.pos m = M ∧ M = 2 ^ 24).
Proof.
  intros HM Hg R. subst R. unfold shr_fexp.
  destruct M as [|p|p]; [|  |lia].
  - left. split; [done|]. cbn [Zdigits2].
    assert (Hk : fexp 24 128 (0 + g) - g ≤ 0) by (unfold fexp, emin; lia).
    unfold SpecFloat.shr. by destruct (fexp 24 128 (0 + g) - g).
  - right. destruct (decide (Z.pos p = 2 ^ 24)) as [Hcarry|Hkeep].
    + assert (Hd : Zdigits2 (Z.pos p) = 25).
      { cbn [Zdigits2]. fold (digits p).
        pose proof (digits_le p 25 ltac:(lia) ltac:(lia)).
        pose proof (digits_ge p 24 ltac:(lia) ltac:(lia)). lia. }
      rewrite Hd.
      replace (fexp 24 128 (25 + g) - g) with 1 by (unfold fexp, emin; lia).
      cbn [SpecFloat.shr SpecFloat.iter_pos shr_record_of_loc].
      destruct p as [p'|p'|]; [lia| |lia]. cbn [shr_1 shr_m orb].
      exists p', (g + 1). destruct (Z.leb_spec (g + 1) (128 - 24)); [|lia].
      split; [done|right]. lia.
    + assert (Hd : Zdigits2 (Z.pos p) ≤ 24)
        by (cbn [Zdigits2]; apply digits_24; lia).
      assert (Hk : fexp 24 128 (Zdigits2 (Z.pos p) + g) - g ≤ 0)
        by (unfold fexp, emin; lia).
      exists p, g.
      unfold SpecFloat.shr.
      destruct (fexp 24 128 (Zdigits2 (Z.pos p) + g) - g); try lia;
        cbn [shr_record_of_loc shr_m];
        (destruct (Z.leb_spec g (128 - 24)); [|lia]);
        (split; [done|left; lia]).
Qed.

(** [int(x)] of a positive value that is at most [N]. *)
Lemma to_int_le (m : positive) (e N : Z) :
  0 ≤ N < 2 ^ 63 →
  (if 0 <=? e then Z.pos m * 2 ^ e ≤ N else Z.pos m ≤ N * 2 ^ (- e)) →
  0 ≤ F32.to_int (S754_finite false m e) ≤ N.
Proof.
  intros HN Hle. unfold F32.to_int.
  set (v := if 0 <=? e then Z.pos m * 2 ^ e else Z.pos m / 2 ^ (- e)).
  assert (Hv : 0 ≤ v ≤ N).
  { unfold v. destruct (Z.leb_spec 0 e).
    - split; [|done]. apply Z.mul_nonneg_nonneg; [lia|].
      apply Z.pow_nonneg; lia.
    - assert (0 < 2 ^ (- e)) by (apply Z.pow_pos_nonneg; lia). split.
      + apply Z.div_pos; lia.
      + apply Z.div_le_upper_bound; lia. }
  destruct (Z.leb_spec (- 2 ^ 63) v), (Z.ltb_spec v (2 ^ 63)); cbn [andb];
    lia.
Qed.

(** The value [m * 2^e] is at most the integer [N]. *)
Lemma scaled_le_carry (M g N : Z) (m : positive) :
  g ≤ 0 → 0 ≤ N → M ≤ N * 2 ^ (- g) → 2 * Z.pos m = M →
  if 0 <=? g + 1 then Z.pos m * 2 ^ (g + 1) ≤ N
  else Z.pos m ≤ N * 2 ^ (- (g + 1)).
Proof.
  intros Hg HN HM Hm. destruct (Z.leb_spec 0 (g + 1)).
  - assert (g = -1 ∨ g = 0) as [-> | ->] by lia.
    + change (2 ^ (- -1)) with 2 in HM. change (2 ^ (-1 + 1)) with 1. lia.
    + change (2 ^ (- 0)) with 1 in HM. change (2 ^ (0 + 1)) with 2. lia.
  - replace (- g) with (1 + - (g + 1)) in HM by lia.
    rewrite Z.pow_add_r in HM by lia. change (2 ^ 1) with 2 in HM. lia.
Qed.

Lemma scaled_le_keep (M g N : Z) (m : positive) :
  g ≤ 0 → M ≤ N * 2 ^ (- g) → Z.pos m = M →
  if 0 <=? g then Z.pos m * 2 ^ g ≤ N else Z.pos m ≤ N * 2 ^ (- g).
Proof.
  intros Hg HM Hm. destruct (Z.leb_spec 0 g); [|lia].
  assert (g = 0) as -> by lia. change (2 ^ (- 0)) with 1 in HM.
  change (2 ^ 0) with 1. lia.
Qed.

(** Rounding a positive product [P * 2^E] that is at most the integer
    [N] gives zero or a positive value that is at most [N]. *)
Lemma round32_value (P : positive) (E N : Z) :
  0 ≤ N < 2 ^ 24 → -300 ≤ E < 0 → Z.pos P ≤ N * 2 ^ (- E) →
  binary_round_aux 24 128 false (Z.pos P) E loc_Exact = S754_zero false
  ∨ ∃ m e,
      binary_round_aux 24 128 false (Z.pos P) E loc_Exact
      = S754_finite false m e
      ∧ if 0 <=? e then Z.pos m * 2 ^ e ≤ N else Z.pos m ≤ N * 2 ^ (- e).
Proof.
  intros HN HE HP. unfold binary_round_aux.
  set (d := digits P).
  assert (Hd : 0 < d) by apply digits_pos.
  pose proof (digits_bounds P) as [Hlo Hhi]. fold (digits P) in Hlo, Hhi.
  fold d in Hlo, Hhi.
  assert (HdE : d + E ≤ 24).
  { destruct (Z.le_gt_cases (d + E) 24) as [|Hgt]; [done|exfalso].
    assert (2 ^ (24 - E) ≤ 2 ^ (d - 1)) by (apply Z.pow_le_mono_r; lia).
    assert (N * 2 ^ (- E) < 2 ^ 24 * 2 ^ (- E)).
    { apply Z.mul_lt_mono_pos_r; [apply Z.pow_pos_nonneg|]; lia. }
    rewrite <- Z.pow_add_r in * by lia.
    replace (24 + - E) with (24 - E) in * by lia. lia. }
  set (g := fexp 24 128 (d + E)).
  assert (Hg : g = Z.max (d + E - 24) (-149)) by (unfold g, fexp, emin; lia).
  unfold shr_fexp at 1 3. cbn [Zdigits2]. fold (digits P). fold d. fold g.
  clearbody g.
  destruct (Z.le_gt_cases (g - E) 0) as [Hk|Hk].
  - (* nothing is shifted out *)
    assert (Hshr : SpecFloat.shr (shr_record_of_loc (Z.pos P) loc_Exact) E (g - E)
                   = (shr_record_of_loc (Z.pos P) loc_Exact, E)).
    { unfold SpecFloat.shr. by destruct (g - E). }
    rewrite Hshr. cbn [shr_record_of_loc shr_m loc_of_shr_record
                       round_nearest_even].
    assert (HP24 : Z.pos P < 2 ^ 24).
    { assert (2 ^ d ≤ 2 ^ 24) by (apply Z.pow_le_mono_r; lia). lia. }
    assert (HE' : -149 ≤ E ≤ 103) by lia.
    assert (HP' : 0 ≤ Z.pos P ≤ 2 ^ 24) by lia.
    destruct (renormalise32 (Z.pos P) E HP' HE')
      as [[_ Hz]|(m & e & Hr & [(-> & Hm & _)|(-> & Hm & _)])]; cbn zeta in *.
    + by left.
    + right. exists m, E. split; [done|]. by apply (scaled_le_keep (Z.pos P)); try lia.
    + right. exists m, (E + 1). split; [done|].
      by apply (scaled_le_carry (Z.pos P)); try lia.
  - (* [k] bits are shifted out *)
    destruct (g - E) as [|kp|kp] eqn:Hkp; [lia| |lia].
    cbn [SpecFloat.shr shr_record_of_loc]. rewrite iter_pos_nat.
    replace (E + Z.pos kp) with g by lia.
    set (k := Pos.to_nat kp).
    assert (Hkz : Z.of_nat k = g - E) by (unfold k; lia).
    destruct (shr_iter (Z.pos P) k ltac:(lia)) as [HM Hflags].
    set (mrs := Nat.iter k shr_1 _) in *.
    set (M := shr_m mrs) in *.
    assert (H2k : 0 < 2 ^ Z.of_nat k) by (apply Z.pow_pos_nonneg; lia).
    assert (H2g : 0 < 2 ^ (- g)) by (apply Z.pow_pos_nonneg; lia).
    assert (Hpow : 2 ^ (- E) = 2 ^ (- g) * 2 ^ Z.of_nat k).
    { rewrite <- Z.pow_add_r by lia. f_equal. lia. }
    assert (HM0 : 0 ≤ M) by (rewrite HM; apply Z.div_pos; lia).
    assert (HM24 : M < 2 ^ 24).
    { rewrite HM. apply Z.div_lt_upper_bound; [lia|].
      rewrite <- Z.pow_add_r by lia.
      assert (2 ^ d ≤ 2 ^ (Z.of_nat k + 24))
        by (apply Z.pow_le_mono_r; lia).
      lia. }
    destruct (round_nearest_even_bounds M (loc_of_shr_record mrs))
      as [HM' Hexact].
    set (M' := round_nearest_even M (loc_of_shr_record mrs)) in *.
    assert (HMN : M' ≤ N * 2 ^ (- g)).
    { pose proof (Z.div_mod (Z.pos P) (2 ^ Z.of_nat k) ltac:(lia)) as Hdm.
      pose proof (Z.mod_pos_bound (Z.pos P) (2 ^ Z.of_nat k) H2k) as Hmod.
      rewrite <- HM in Hdm.
      destruct (decide (Z.pos P mod 2 ^ Z.of_nat k = 0)) as [H0|Hne].
      - destruct (Hflags H0) as [Hr Hs].
        rewrite Hexact.
        2:{ unfold loc_of_shr_record. destruct mrs as [mm rr ss].
            cbn [shr_r shr_s] in Hr, Hs. by subst. }
        rewrite Hpow in HP. nia.
      - rewrite Hpow in HP. nia. }
    assert (Hg' : -149 ≤ g ≤ 103) by lia.
    assert (HMr : 0 ≤ M' ≤ 2 ^ 24) by lia.
    destruct (renormalise32 M' g HMr Hg')
      as [[_ Hz]|(m & e & Hr & [(-> & Hm & _)|(-> & Hm & _)])]; cbn zeta in *.
    + by left.
    + right. exists m, g. split; [done|].
      by apply (scaled_le_keep M'); try lia.
    + right. exists m, (g + 1). split; [done|].
      by apply (scaled_le_carry M'); try lia.
Qed.

Lemma round32_le (P : positive) (E N : Z) :
  0 ≤ N < 2 ^ 24 → -300 ≤ E < 0 → Z.pos P ≤ N * 2 ^ (- E) →
  0 ≤ F32.to_int (binary_round_aux 24 128 false (Z.pos P) E loc_Exact) ≤ N.
Proof.
  intros HN HE HP.
  destruct (round32_value P E N HN HE HP) as [->|(m & e & -> & Hle)].
  - cbn [F32.to_int]. lia.
  - apply to_int_le; [lia|done].
Qed.

(** ** Scaling a relative coordinate to pixels *)

(** [float32(n)] for a frame size below 2^24 is [n] itself. *)
Lemma of_int32 (n : Z) :
  0 < n < 2 ^ 24 →
  ∃ m j, F32.of_int n = S754_finite false m (- j)
         ∧ 0 ≤ j ≤ 23 ∧ Z.pos m = n * 2 ^ j.
Proof.
  intros Hn. destruct n as [|p|p]; [lia| |lia].
  unfold F32.of_int, F32.prec, F32.emax. cbn [binary_normalize].
  unfold binary_round.
  pose proof (digits_24 p ltac:(lia)) as Hd. pose proof (digits_pos p) as Hd0.
  fold (digits p).
  replace (fexp 24 128 (digits p + 0)) with (digits p - 24)
    by (unfold fexp, emin; lia).
  set (j := Z.to_nat (24 - digits p)).
  assert (Hal : shl_align p 0 (digits p - 24) = (shl p j, - Z.of_nat j)).
  { unfold shl_align.
    destruct (digits p - 24 - 0) as [|q|q] eqn:Hq; [| lia |].
    - replace j with 0%nat by lia. done.
    - rewrite pos_iter_shl. f_equal; [f_equal|]; lia. }
  rewrite Hal.
  pose proof (digits_bounds p) as [Hlo Hhi]. fold (digits p) in Hlo, Hhi.
  assert (Hval : Z.pos (shl p j) = Z.pos p * 2 ^ Z.of_nat j) by apply shl_val.
  assert (Hdig : Zdigits2 (Z.pos (shl p j)) = 24).
  { cbn [Zdigits2]. rewrite digits_shl. fold (digits p). lia. }
  unfold binary_round_aux, shr_fexp. rewrite Hdig.
  replace (fexp 24 128 (24 + - Z.of_nat j) - - Z.of_nat j) with 0
    by (unfold fexp, emin; lia).
  cbn [SpecFloat.shr shr_record_of_loc shr_m loc_of_shr_record
       round_nearest_even].
  rewrite Hdig.
  replace (fexp 24 128 (24 + - Z.of_nat j) - - Z.of_nat j) with 0
    by (unfold fexp, emin; lia).
  cbn [SpecFloat.shr shr_m].
  destruct (Z.leb_spec (- Z.of_nat j) (128 - 24)); [|lia].
  exists (shl p j), (Z.of_nat j). split_and!; [done|lia|lia|done].
Qed.

Lemma one32 : F32.of_int 1 = S754_finite false 8388608 (-23).
Proof. vm_compute. reflexivity. Qed.

(** A binary32 value between 0 and 1 is a zero or [m * 2^e] with
    [e < 0] and [m ≤ 2^(-e)]. *)
Lemma unitInterval_value (v : F32.t) :
  unitInterval v = true →
  (∃ s, v = S754_zero s)
  ∨ ∃ m e, v = S754_finite false m e ∧ -149 ≤ e < 0 ∧ Z.pos m ≤ 2 ^ (- e).
Proof.
  unfold unitInterval. intros [[Hvalid H0]%andb_prop H1]%andb_prop.
  rewrite one32 in H1.
  destruct v as [s|s| |s m e].
  - left. by exists s.
  - destruct s; discriminate.
  - discriminate.
  - right. destruct s; [discriminate|]. exists m, e. split; [done|].
    unfold SFleb in H1. rewrite SFcompare_positive in H1.
    assert (Hcmp : e < -23 ∨ e = -23 ∧ Z.pos m ≤ 8388608).
    { destruct (Z.compare_spec e (-23)) as [->|Hlt|Hgt];
        [|by left|discriminate].
      right. split; [done|].
      by destruct (Z.compare_spec (Z.pos m) 8388608); [lia|lia|]. }
    clear H0 H1.
    cbn [valid_binary] in Hvalid. unfold bounded, canonical_mantissa in Hvalid.
    apply andb_prop in Hvalid as [Hcan _].
    apply Z.eqb_eq in Hcan. unfold fexp, emin in Hcan.
    pose proof (digits_bounds m) as [_ Hhi].
    assert (Hm : Z.pos m < 2 ^ 24).
    { eapply Z.lt_le_trans; [exact Hhi|].
      apply Z.pow_le_mono_r; lia. }
    split; [lia|].
    destruct Hcmp as [Hlt|[-> Hle]].
    + assert (2 ^ 24 ≤ 2 ^ (- e)) by (apply Z.pow_le_mono_r; lia). lia.
    + exact Hle.
Qed.

(** [int(v * float32(n))] for [v] between 0 and 1 lies between 0 and
    [n]. *)
Lemma scale_unit (v : F32.t) (n : Z) :
  unitInterval v = true → 0 ≤ n < 2 ^ 24 → 0 ≤ scale v n ≤ n.
Proof.
  intros Hv Hn. unfold scale, F32.mul, F32.prec, F32.emax.
  destruct (decide (n = 0)) as [->|Hn0].
  { change (F32.of_int 0) with (S754_zero false).
    destruct (unitInterval_value v Hv) as [[s ->]|(m & e & -> & _)]; done. }
  destruct (of_int32 n ltac:(lia)) as (mn & j & -> & Hj & Hmn).
  destruct (unitInterval_value v Hv) as [[s ->]|(m & e & -> & He & Hm)].
  { cbn [SFmul F32.to_int]. lia. }
  cbn [SFmul xorb]. apply round32_le; [lia|lia|].
  rewrite Pos2Z.inj_mul, Hmn.
  replace (- (e + - j)) with (- e + j) by lia.
  rewrite Z.pow_add_r by lia.
  assert (0 ≤ 2 ^ j) by (apply Z.pow_nonneg; lia).
  transitivity (2 ^ (- e) * (n * 2 ^ j)); [|lia].
  apply Z.mul_le_mono_nonneg_r; [lia|done].
Qed.

(** Multiplication does not depend on the order of its operands. *)
Lemma mul32_comm (x y : F32.t) : F32.mul x y = F32.mul y x.
Proof.
  unfold F32.mul.
  destruct x as [sx|sx| |sx mx ex], y as [sy|sy| |sy my ey];
    cbn [SFmul]; rewrite ?(xorb_comm sx sy); try reflexivity.
  by rewrite (Pos.mul_comm mx my), (Z.add_comm ex ey).
Qed.

Lemma normalised_lookup (row : list F32.t) (i : nat) (v : F32.t) :
  normalised row = true → (i < 4)%nat → row !! i = Some v →
  unitInterval v = true.
Proof.
  unfold normalised. intros Hrow Hi Hv.
  rewrite forallb_forall in Hrow. apply Hrow.
  apply list_elem_of_In, list_elem_of_lookup. exists i.
  by rewrite lookup_take_lt.
Qed.

(** The box of a candidate built from a normalised row. *)
Lemma candidate_inFrame (classes : list string) (frame : Frame)
    (row : list F32.t) (classID : nat) (conf : F32.t) (o : detectedObject) :
  0 ≤ frame_cols frame < 2 ^ 24 → 0 ≤ frame_rows frame < 2 ^ 24 →
  normalised row = true →
  candidate classes frame row classID conf = Some o →
  inFrame frame o ∧ wellFormed o.
Proof.
  intros Hc Hr Hrow. unfold candidate.
  destruct (row !! 0%nat) as [r0|] eqn:H0; [|done].
  destruct (row !! 1%nat) as [r1|] eqn:H1; [|done].
  destruct (row !! 2%nat) as [r2|] eqn:H2; [|done].
  destruct (row !! 3%nat) as [r3|] eqn:H3; [|done].
  destruct (classes !! classID) as [class|]; [|done].
  cbn [mbind option_bind]. intros [= <-].
  pose proof (scale_unit r0 _
    (normalised_lookup row 0 r0 Hrow ltac:(lia) H0) Hc) as Hx.
  pose proof (scale_unit r1 _
    (normalised_lookup row 1 r1 Hrow ltac:(lia) H1) Hr) as Hy.
  pose proof (scale_unit r2 _
    (normalised_lookup row 2 r2 Hrow ltac:(lia) H2) Hc) as Hw.
  pose proof (scale_unit r3 _
    (normalised_lookup row 3 r3 Hrow ltac:(lia) H3) Hr) as Hh.
  set (cx := scale r0 (frame_cols frame)) in *.
  set (cy := scale r1 (frame_rows frame)) in *.
  set (w := scale r2 (frame_cols frame)) in *.
  set (h := scale r3 (frame_rows frame)) in *.
  clearbody cx cy w h.
  assert (Hqw : 0 ≤ Z.quot w 2 ≤ w)
    by (rewrite Z.quot_div_nonneg by lia; split;
        [apply Z.div_pos; lia|apply Z.div_le_upper_bound; lia]).
  assert (Hqh : 0 ≤ Z.quot h 2 ≤ h)
    by (rewrite Z.quot_div_nonneg by lia; split;
        [apply Z.div_pos; lia|apply Z.div_le_upper_bound; lia]).
  assert (H24 : 2 ^ 24 = 16777216) by reflexivity.
  assert (H63 : 2 ^ 63 = 9223372036854775808) by reflexivity.
  unfold inFrame, wellFormed, int_sub, int_div. cbn [width height left top].
  rewrite !(wrap64_small (Z.quot w 2)), !(wrap64_small (Z.quot h 2)) by lia.
  rewrite !(wrap64_small (cx - Z.quot w 2)),
          !(wrap64_small (cy - Z.quot h 2)) by lia.
  lia.
Qed.

(** X25.  Boxes stay within the frame's size.  When the frame is less
    than 2^24 pixels wide and high and the four leading entries of every
    row of the network's outputs (centre and size, relative to the frame)
    are binary32 values between 0 and 1, every object [performDetection]
    returns is at most as wide and as high as the frame, the centre its
    corner was computed from lies in the frame, and the box is one the
    overlap computation handles exactly. *)
Theorem performDetection_boxes_in_frame
    (confidenceTreshold : F32.t) (classes : list string) (frame : Frame)
    (results : list Output) (objs : list detectedObject) :
  0 ≤ frame_cols frame < 2 ^ 24 → 0 ≤ frame_rows frame < 2 ^ 24 →
  forallb normalised (allRows results) = true →
  performDetection confidenceTreshold classes frame results = Some objs →
  ∀ o, o ∈ objs → inFrame frame o ∧ wellFormed o.
Proof.
  intros Hc Hr Hrows. rewrite performDetection_fuse.
  destruct (passing confidenceTreshold classes frame results) as [cands|]
    eqn:Hpass; [|done].
  cbn. intros [= <-] o Ho%fuse_subset.
  destruct (passing_built _ _ _ _ _ Hpass) as [_ Hbuilt].
  destruct (Hbuilt o Ho) as (output & row & Hout & Hrow & classID & _ & _ & Hcand).
  apply (candidate_inFrame classes frame row classID (confidence o));
    [done..| |done].
  rewrite forallb_forall in Hrows. apply Hrows.
  unfold allRows. apply in_concat. exists (out_rows output).
  split; [apply in_map|]; by apply list_elem_of_In.
Qed.

Lemma performDetection_boxes_in_frame_witness :
  ∃ objs, performDetection (F32.lit 75 100) ["osprey"; "gull"] picture
            [sampleOutput] = Some objs
          ∧ ∀ o, o ∈ objs → inFrame picture o ∧ wellFormed o.
Proof.
  eexists. split; [vm_compute; reflexivity|].
  apply (performDetection_boxes_in_frame (F32.lit 75 100) ["osprey"; "gull"]
           picture [sampleOutput]).
  - vm_compute. split; [discriminate|reflexivity].
  - vm_compute. split; [discriminate|reflexivity].
  - vm_compute. reflexivity.
  - vm_compute. reflexivity.
Defined.

(** X26.  The percentage in an object's label is the percentage
    [insertDetections] stores for it: for a candidate built with a
    confidence between 0 and 1, the label is the class name followed by
    the [confidence] column of the object's detection row, and that
    number lies between 0 and 100. *)
Theorem candidate_label_percentage
    (classes : list string) (frame : Frame) (row : list F32.t)
    (classID : nat) (conf : F32.t) (o : detectedObject) (lastInsertId : Z) :
  unitInterval conf = true →
  candidate classes frame row classID conf = Some o →
  let pct := detection_confidence (detectionOf lastInsertId o) in
  0 ≤ pct ≤ 100
  ∧ ∃ class, classes !! classID = Some class
             ∧ label o = formatLabel class pct.
Proof.
  intros Hconf. unfold candidate.
  destruct (row !! 0%nat) as [r0|]; [|done].
  destruct (row !! 1%nat) as [r1|]; [|done].
  destruct (row !! 2%nat) as [r2|]; [|done].
  destruct (row !! 3%nat) as [r3|]; [|done].
  destruct (classes !! classID) as [class|]; [|done].
  cbn [mbind option_bind]. intros Ho. apply (inj Some) in Ho. subst o.
  unfold detectionOf. cbn [detection_confidence confidence label].
  split.
  - apply (scale_unit conf 100 Hconf). lia.
  - exists class. split; [done|]. by rewrite (mul32_comm (F32.of_int 100)).
Qed.

Lemma candidate_label_percentage_witness :
  ∃ o, candidate ["osprey"; "gull"] picture sampleRow 1 (F32.lit 9 10)
       = Some o
       ∧ 0 ≤ detection_confidence (detectionOf 7 o) ≤ 100
       ∧ ∃ class, ["osprey"; "gull"] !! 1%nat = Some class
                  ∧ label o
                    = formatLabel class
                        (detection_confidence (detectionOf 7 o)).
Proof.
  eexists. split; [vm_compute; reflexivity|].
  apply (candidate_label_percentage ["osprey"; "gull"] picture sampleRow 1
           (F32.lit 9 10) _ 7); vm_compute; reflexivity.
Defined.
